(** * Noise2.py: the cyclic tone player, its parameters and its controls

    A shallow embedding of [src/Noise2.py].

    Numbers.  A Python float is a binary64 value.  A parameter is carried by
    a rational [q] that stands for the double nearest to it, [x64 q]; a
    rational too large for binary64 stands for an infinity.  Comparisons
    ([max], [min]) may be taken on the carriers, because rounding is monotone
    ([x64_clamps]).  The arithmetic of [_run] is done on the doubles: every
    product, difference and quotient is rounded to nearest, ties to even,
    overflows to an infinity and follows the IEEE rules for infinities and
    NaN ([xmul], [xsub], [xdiv]); the cast to float32 is [to32].  The two
    zeros are not told apart.  NaN arises in the arithmetic only: a parameter
    that is itself NaN has no carrier.  [int(x)] is truncation toward zero
    and raises on an infinity or NaN.  [np.sin] is a parameter [np_sin] of
    the sample buffer.  The ideal waveform over the real numbers
    ([waveform]) is kept beside the computed one ([samples32]).

    Library calls.  [float(s)] on a string is a parameter of the model
    ([str_float], [None] when Python raises [ValueError]); the outcome of
    [os.path.exists] + [json.load] on the parameter file is the input
    [ParamFile].  [sounddevice] is a device cell holding what was last handed
    to [sd.play], together with a log of the calls made by the player thread.
    NumPy refuses an array of 2^60 rows or more and raises [MemoryError]
    beyond what the machine can allocate ([max_rows]).

    Threads.  The player thread is a program counter over the statements of
    [CyclicPlayer._run]; one [thread_step] runs one statement.  The calls of
    the GUI/tray side ([start], [stop], [toggle_play], [apply_params]) are
    atomic actions interleaved with thread steps by [exec]. *)

From Stdlib Require Import ZArith QArith Qround Qabs Qpower Qreals Reals.
From Stdlib Require Import Lqa Lra Psatz Lia Floats.
From Stdlib Require Import List String Ascii Bool.
Import ListNotations.

Local Open Scope Z_scope.

(** ** Python numbers *)

Module PyNum.

(** [a < b] on floats. *)
Definition Qlt_bool (a b : Q) : bool := negb (Qle_bool b a).

(** [max(a, b)]: the first argument unless the second is strictly greater. *)
Definition py_max (a b : Q) : Q := if Qlt_bool a b then b else a.

(** [min(a, b)]: the first argument unless the second is strictly smaller. *)
Definition py_min (a b : Q) : Q := if Qlt_bool b a then b else a.

(** [int(x)] for a finite [x]: truncation toward zero. *)
Definition py_int (x : Q) : Z := Z.quot (Qnum x) (Zpos (Qden x)).

(** The product [x * n] of a rational and an integer, not rounded: the
    number the specification calls duration times sample rate. *)
Definition mul_int (x : Q) (n : Z) : Q := (x * inject_Z n)%Q.

(** [range(n)] / [np.arange(n)]: empty when [n <= 0]. *)
Definition py_range (n : Z) : list Z := map Z.of_nat (seq 0 (Z.to_nat n)).

End PyNum.
Export PyNum.

(** ** Exceptions *)

Inductive exn : Type :=
  | ValueError
  | TypeError
  | AttributeError
  | JSONDecodeError
  | OverflowError
  | MemoryError.

(** ** Binary floating point

    Round to nearest, ties to even, on rationals.  A format is given by its
    precision [prec] (bits of the significand), its least exponent [emin]
    (the exponent of the smallest subnormal) and [emax] (2^emax is the first
    power of two that overflows): binary64 is 53, -1074, 1024 and float32 is
    24, -149, 128. *)

Module Float.

Local Open Scope Q_scope.
Import ListNotations.

Definition pow2 (k : Z) : Q := 2 ^ k.

(** Integer part of the binary logarithm of a positive rational. *)
Definition ilog2 (q : Q) : Z :=
  let k0 := (Z.log2 (Qnum q) - Z.log2 (Zpos (Qden q)))%Z in
  if Qle_bool (pow2 k0) q then k0 else (k0 - 1)%Z.

(** Nearest integer, ties to even. *)
Definition rhe (x : Q) : Z :=
  let f := Qfloor x in
  match Qcompare (x - inject_Z f) (1 # 2) with
  | Lt => f
  | Gt => (f + 1)%Z
  | Eq => if Z.even f then f else (f + 1)%Z
  end.

(** Exponent of the unit in the last place of a positive rational. *)
Definition ulp_exp (prec emin : Z) (q : Q) : Z :=
  Z.max (ilog2 q - prec + 1) emin.

(** A positive rational rounded to [prec] bits, exponent at least [emin]. *)
Definition rnd_pos (prec emin : Z) (q : Q) : Q :=
  inject_Z (rhe (q / pow2 (ulp_exp prec emin q))) * pow2 (ulp_exp prec emin q).

(** Rounding of any rational: symmetric around zero. *)
Definition rnd (prec emin : Z) (q : Q) : Q :=
  match Qcompare q 0 with
  | Gt => rnd_pos prec emin q
  | Lt => - rnd_pos prec emin (- q)
  | Eq => 0
  end.

(** A floating-point value: a finite rational, an infinity, or NaN. *)
Inductive xfloat : Type :=
  | XFin (q : Q)
  | XInf (neg : bool)
  | XNaN.

(** Rounding into a format, overflowing to an infinity. *)
Definition round (prec emin emax : Z) (q : Q) : xfloat :=
  let r := rnd prec emin q in
  if Qle_bool (pow2 emax) (Qabs r) then XInf (Qlt_bool r 0) else XFin (Qred r).

(** The binary64 and the float32 value nearest to a rational. *)
Definition x64 (q : Q) : xfloat := round 53 (-1074) 1024 q.
Definition x32 (q : Q) : xfloat := round 24 (-149) 128 q.

(** [a * b] on binary64. *)
Definition xmul (a b : xfloat) : xfloat :=
  match a, b with
  | XNaN, _ | _, XNaN => XNaN
  | XFin x, XFin y => x64 (x * y)
  | XInf s, XFin y | XFin y, XInf s =>
      if Qeq_bool y 0 then XNaN else XInf (xorb s (Qlt_bool y 0))
  | XInf s, XInf t => XInf (xorb s t)
  end.

(** [a - b] on binary64. *)
Definition xsub (a b : xfloat) : xfloat :=
  match a, b with
  | XNaN, _ | _, XNaN => XNaN
  | XFin x, XFin y => x64 (x - y)
  | XInf s, XFin _ => XInf s
  | XFin _, XInf t => XInf (negb t)
  | XInf s, XInf t => if Bool.eqb s t then XNaN else XInf s
  end.

(** [a / b] on binary64 arrays: a zero divisor gives an infinity or NaN. *)
Definition xdiv (a b : xfloat) : xfloat :=
  match a, b with
  | XNaN, _ | _, XNaN => XNaN
  | XFin x, XFin y =>
      if Qeq_bool y 0
      then (if Qeq_bool x 0 then XNaN else XInf (Qlt_bool x 0))
      else x64 (x / y)
  | XInf s, XFin y => XInf (xorb s (Qlt_bool y 0))
  | XFin _, XInf _ => XFin 0
  | XInf _, XInf _ => XNaN
  end.

(** [.astype(np.float32)] on a binary64 value. *)
Definition to32 (a : xfloat) : xfloat :=
  match a with
  | XFin q => x32 q
  | _ => a
  end.

(** [a < b] and Python's [max(a, b)] on floats; a comparison with NaN is
    false. *)
Definition xlt_bool (a b : xfloat) : bool :=
  match a, b with
  | XFin x, XFin y => Qlt_bool x y
  | XFin _, XInf t => negb t
  | XInf s, XFin _ => s
  | XInf s, XInf t => s && negb t
  | _, _ => false
  end.

Definition xmax (a b : xfloat) : xfloat := if xlt_bool a b then b else a.

(** Python's [min(a, b)]. *)
Definition xmin (a b : xfloat) : xfloat := if xlt_bool b a then b else a.

(** [float(n)] for an int: [OverflowError] when it is too large. *)
Definition float_of_int (n : Z) : exn + xfloat :=
  match x64 (inject_Z n) with
  | XInf _ => inl OverflowError
  | x => inr x
  end.

(** [int(x)] for a float: [OverflowError] on an infinity, [ValueError] on
    NaN. *)
Definition int_of_float (x : xfloat) : exn + Z :=
  match x with
  | XFin q => inr (py_int q)
  | XInf _ => inl OverflowError
  | XNaN => inl ValueError
  end.

(** [x * n] for a float [x] and an int [n]: the int is converted first. *)
Definition mul_float_int (x : Q) (n : Z) : exn + xfloat :=
  match float_of_int n with
  | inl e => inl e
  | inr y => inr (xmul (x64 x) y)
  end.

(** Pi to 80 decimals. *)
Definition pi_q : Q :=
  Qred (inject_Z
          314159265358979323846264338327950288419716939937510582097494459230781640628620899
        / inject_Z (10 ^ 80)).

(** *** The processor's binary64

    Rocq's primitive floats are the processor's binary64 numbers; [of_prim]
    reads one as an [xfloat].  [ops_agree a b] tells whether the product,
    the difference and the quotient the processor computes for [a] and [b],
    and the cast of [a] and of [a * b] to float32 as the library's
    [binary_normalize] rounds it, are what [xmul], [xsub], [xdiv] and
    [to32] give. *)

Definition of_spec (f : spec_float) : xfloat :=
  match f with
  | S754_zero _ => XFin 0
  | S754_infinity s => XInf s
  | S754_nan => XNaN
  | S754_finite s m e =>
      XFin (Qred (inject_Z (if s then Zneg m else Zpos m) * pow2 e))
  end.

Definition of_prim (f : float) : xfloat := of_spec (Prim2SF f).

Definition cast32 (f : float) : xfloat :=
  match Prim2SF f with
  | S754_finite s m e =>
      of_spec (binary_normalize 24 128 (if s then Zneg m else Zpos m) e s)
  | x => of_spec x
  end.

Definition xeqb (a b : xfloat) : bool :=
  match a, b with
  | XFin p, XFin q => Qeq_bool p q
  | XInf s, XInf t => Bool.eqb s t
  | XNaN, XNaN => true
  | _, _ => false
  end.

Definition ops_agree (a b : float) : bool :=
  xeqb (of_prim (a * b)%float) (xmul (of_prim a) (of_prim b)) &&
  xeqb (of_prim (a - b)%float) (xsub (of_prim a) (of_prim b)) &&
  xeqb (of_prim (a / b)%float) (xdiv (of_prim a) (of_prim b)) &&
  xeqb (cast32 a) (to32 (of_prim a)) &&
  xeqb (cast32 (a * b)%float) (to32 (xmul (of_prim a) (of_prim b))).

(** Pairs of doubles: parameters and rates of the program, halfway cases,
    subnormal numbers, the largest double, zeros, infinities and NaN. *)
#[warnings="-inexact-float"]
Definition float_pairs : list (float * float) :=
  [ (0.7, 44100); (0.12, 44100); (0.12345, 48000); (4.1, 0.1); (1.2, 0.2);
    (60, 1); (5.5, 1); (0.1, 1); (0.001, 0.5); (1, 44100); (3, 44100);
    (6.283185307179586, 440); (6.283185307179586, 11025);
    (69272.11801165494, 0x1.7c6f5c1b0f5ap-16);
    (1e308, 10); (1e308, 1e308); (-1e308, 10); (1e-320, 0.5); (1e-320, 3);
    (5e-324, 0.5); (5e-324, 1.5); (0x1p-1074, 0x1p-1);
    (0x1.fffffffffffffp1023, 0x1.0000000000001p0);
    (0x1.fffffffffffffp1023, 1); (0x1.fffffep127, 1); (0x1.ffffffp127, 1);
    (0x1.000001p0, 1); (0x1.0000010000001p0, 1); (0x1.000003p0, 1);
    (0x1p-149, 1); (0x1p-150, 1); (0x1.8p-150, 1); (0x1p-126, 0.75);
    (0, 5); (5, 0); (0, 0); (-3, 0); (infinity, 0); (infinity, 2);
    (infinity, infinity); (infinity, neg_infinity); (2, infinity);
    (nan, 1); (1, nan); (-0.1, 3); (1e16, 3); (9007199254740993, 1);
    (0.1, 0.2); (1, 3); (2, 3); (1e22, 1e-22); (123456789.125, -0.3) ]%float.

(** [float(s)] as the processor's nearest double of a rational, for
    comparison with [x64]. *)
Definition x64_agree (f : float) (q : Q) : bool := xeqb (of_prim f) (x64 q).

#[warnings="-inexact-float"]
Definition float_values : list (float * Q) :=
  [ (0.7%float, 7 # 10); (0.1%float, 1 # 10); (0.001%float, 1 # 1000);
    (0.12345%float, 2469 # 20000); (4.1%float, 41 # 10);
    (1e308%float, inject_Z (10 ^ 308));
    (5e-324%float, 1 / inject_Z (10 ^ 324) * 5);
    (1e-400%float, 1 / inject_Z (10 ^ 400));
    (infinity, inject_Z (10 ^ 400)); (neg_infinity, - inject_Z (2 ^ 1024));
    (0x1.fffffffffffffp1023%float, inject_Z (2 ^ 1024 - 2 ^ 970 - 1));
    (infinity, inject_Z (2 ^ 1024 - 2 ^ 970));
    (9007199254740992%float, 9007199254740993);
    (9007199254740996%float, 9007199254740995);
    (3.141592653589793%float, pi_q) ].

(** [np.pi], the double nearest to pi. *)
Definition np_pi : xfloat := XFin (884279719003555 # 281474976710656).

(** *** A sine for the examples

    The statements about samples take [np.sin] as a parameter.  To run an
    example, [sin64] reduces a finite argument by the nearest multiple of
    pi/2 (with [pi_q]), evaluates the Taylor polynomial
    of the sine or the cosine on the rest in fixed point with 256 fractional
    bits, keeps the result within [-1, 1] and rounds it to binary64. *)

Definition fx_one : Z := 2 ^ 256.

Definition to_fx (q : Q) : Z := Qfloor (q * inject_Z fx_one).

(** Sum of [n] terms of an alternating power series in fixed point: after
    [term], of degree [k], comes [- term * x^2 / ((k + 1) * (k + 2))]. *)
Fixpoint fx_series (n : nat) (k : Z) (x2 term : Z) : Z :=
  match n with
  | O => 0%Z
  | S m =>
      (term + fx_series m (k + 2) x2
                (- (term * x2 / fx_one) / ((k + 1) * (k + 2))))%Z
  end.

Definition sin_q (x : Q) : Q :=
  let half_pi := pi_q / 2 in
  let n := rhe (x / half_pi) in
  let r := to_fx (x - inject_Z n * half_pi) in
  let r2 := (r * r / fx_one)%Z in
  let s := fx_series 22 1 r2 r in
  let c := fx_series 22 0 r2 fx_one in
  let v := match (n mod 4)%Z with
           | 0%Z => s
           | 1%Z => c
           | 2%Z => (- s)%Z
           | _ => (- c)%Z
           end in
  py_max (-1) (py_min 1 (Qred (inject_Z v / inject_Z fx_one))).

Definition sin64 (x : xfloat) : xfloat :=
  match x with
  | XFin q => x64 (sin_q q)
  | _ => XNaN
  end.

End Float.
Export Float.

(** ** A reader for float literals

    Used to instantiate [str_float] at concrete inputs.  It follows the
    grammar of Python's [float] on a string: blanks around the text, a sign,
    then either "inf" or "infinity" in any case, or digits with an optional
    fraction and an optional exponent, single underscores allowed between
    digits ("440", "0.1", "-2.5", ".5", "1e3", " 440 ", "1_0").  The result
    is the rational the text writes, which stands for the double nearest to
    it; an infinity is carried by [2^1024].  A text with no digit ("abc",
    "") is rejected as by Python.  The text "nan", which Python accepts, is
    not read: NaN has no carrier. *)

Module Decimal.

Definition digit_of (c : ascii) : option Z :=
  let n := Z.of_nat (nat_of_ascii c) in
  if (48 <=? n) && (n <=? 57) then Some (n - 48) else None.

(** Reads a run of digits: accumulated value, number of digits read, rest.
    An underscore is passed over when it stands between two digits. *)
Fixpoint read_digits (s : string) (acc : Z) (count : nat) : Z * nat * string :=
  match s with
  | EmptyString => (acc, count, s)
  | String c rest =>
      match digit_of c with
      | Some d => read_digits rest (10 * acc + d) (S count)
      | None =>
          if Ascii.eqb c "_" && (0 <? count)%nat then
            match rest with
            | String c' rest' =>
                match digit_of c' with
                | Some d => read_digits rest' (10 * acc + d) (S count)
                | None => (acc, count, s)
                end
            | EmptyString => (acc, count, s)
            end
          else (acc, count, s)
      end
  end.

Definition read_sign (s : string) : bool * string :=
  match s with
  | String "-" rest => (true, rest)
  | String "+" rest => (false, rest)
  | _ => (false, s)
  end.

(** The exponent part: empty, or [e] or [E], a sign and digits. *)
Definition read_exponent (s : string) : option Z :=
  match s with
  | EmptyString => Some 0
  | String c rest =>
      if Ascii.eqb c "e" || Ascii.eqb c "E" then
        let '(neg, rest1) := read_sign rest in
        match read_digits rest1 0 0%nat with
        | (e, n, EmptyString) =>
            if (0 <? n)%nat then Some (if neg then - e else e) else None
        | _ => None
        end
      else None
  end.

Definition read_unsigned (s : string) : option Q :=
  let '(ipart, ni, rest) := read_digits s 0 0%nat in
  let '(fpart, nf, rest') :=
    match rest with
    | String "." frac => read_digits frac 0 0%nat
    | _ => (0, 0%nat, rest)
    end in
  if (0 <? ni + nf)%nat then
    match read_exponent rest' with
    | Some e =>
        Some (Qred (Qmake (ipart * 10 ^ Z.of_nat nf + fpart)
                          (Z.to_pos (10 ^ Z.of_nat nf))
                    * Qpower 10 e))
    | None => None
    end
  else None.

(** The blanks [str.strip] removes, among the ASCII characters. *)
Definition is_blank (c : ascii) : bool :=
  let n := nat_of_ascii c in
  ((9 <=? n) && (n <=? 13) || (28 <=? n) && (n <=? 32))%nat.

Fixpoint drop_blanks (l : list ascii) : list ascii :=
  match l with
  | c :: rest => if is_blank c then drop_blanks rest else l
  | [] => []
  end.

Definition strip (s : string) : string :=
  string_of_list_ascii
    (rev (drop_blanks (rev (drop_blanks (list_ascii_of_string s))))).

Definition lower (c : ascii) : ascii :=
  let n := nat_of_ascii c in
  if ((65 <=? n) && (n <=? 90))%nat then ascii_of_nat (n + 32) else c.

Fixpoint lowercase (s : string) : string :=
  match s with
  | EmptyString => EmptyString
  | String c rest => String (lower c) (lowercase rest)
  end.

(** The carrier of [float('inf')]. *)
Definition inf_q : Q := inject_Z (2 ^ 1024).

Definition decimal_float (s : string) : option Q :=
  let '(neg, rest) := read_sign (strip s) in
  let name := lowercase rest in
  let magnitude :=
    if String.eqb name "inf" || String.eqb name "infinity"
    then Some inf_q
    else read_unsigned rest in
  match magnitude with
  | Some q => Some (if neg then Qred (- q) else q)
  | None => None
  end.

End Decimal.
Export Decimal.

(** ** The state-and-exception monad

    A raised exception keeps the writes made before it: the state is
    returned on both outcomes. *)

Definition M (St A : Type) : Type := St -> St * (exn + A).

Definition ret {St A} (a : A) : M St A := fun s => (s, inr a).

Definition raise {St A} (e : exn) : M St A := fun s => (s, inl e).

Definition bind {St A B} (m : M St A) (k : A -> M St B) : M St B :=
  fun s =>
    match m s with
    | (s', inr a) => k a s'
    | (s', inl e) => (s', inl e)
    end.

(** [try: body except ValueError: handler]; other exceptions pass. *)
Definition try_except_ValueError {St A} (body handler : M St A) : M St A :=
  fun s =>
    match body s with
    | (s', inl ValueError) => handler s'
    | r => r
    end.

Definition modify {St} (f : St -> St) : M St unit := fun s => (f s, inr tt).

Declare Scope py_scope.
Delimit Scope py_scope with py.
Notation "x <- m ;; k" := (bind m (fun x => k))
  (at level 61, m at next level, right associativity) : py_scope.
Notation "m ;; k" := (bind m (fun _ => k))
  (at level 61, right associativity) : py_scope.

(** ** JSON values, as [json.load] returns them

    A number written without fraction or exponent is a Python [int]
    ([JInteger]); any other number is a float ([JNumber], carried as the
    parameters are). *)

#[warnings="-register-all"]
Inductive json : Type :=
  | JNull
  | JBool (b : bool)
  | JInteger (n : Z)
  | JNumber (q : Q)
  | JString (s : string)
  | JArray (l : list json)
  | JObject (items : list (string * json)).

(** [d.get(k)] on the items of a dict. *)
Fixpoint dict_get (k : string) (items : list (string * json)) : option json :=
  match items with
  | [] => None
  | (k', v) :: rest => if String.eqb k k' then Some v else dict_get k rest
  end.

(** What [os.path.exists(PARAM_FILE)] and [json.load(f)] find. *)
Inductive ParamFile : Type :=
  | FileAbsent
  | FileNotJSON
  | FileJSON (data : json).

(** ** Parameters *)

Record Params : Type := mkParams {
  frequency : Q;
  volume : Q;
  play_sec : Q;
  cycle_sec : Q
}.

Definition DEFAULT : Params :=
  {| frequency := 440; volume := 1 # 1000; play_sec := 1; cycle_sec := 60 |}.

Definition set_frequency (x : Q) (p : Params) : Params :=
  {| frequency := x; volume := volume p;
     play_sec := play_sec p; cycle_sec := cycle_sec p |}.

Definition set_volume (x : Q) (p : Params) : Params :=
  {| frequency := frequency p; volume := x;
     play_sec := play_sec p; cycle_sec := cycle_sec p |}.

Definition set_play_sec (x : Q) (p : Params) : Params :=
  {| frequency := frequency p; volume := volume p;
     play_sec := x; cycle_sec := cycle_sec p |}.

Definition set_cycle_sec (x : Q) (p : Params) : Params :=
  {| frequency := frequency p; volume := volume p;
     play_sec := play_sec p; cycle_sec := x |}.

(** [json.dump(params, f)] followed by a later [json.load]. *)
Definition dump_params (p : Params) : json :=
  JObject [ ("frequency"%string, JNumber (frequency p));
            ("volume"%string, JNumber (volume p));
            ("play_sec"%string, JNumber (play_sec p));
            ("cycle_sec"%string, JNumber (cycle_sec p)) ].

(** ** The sound device, the window and the log *)

(** A generated sine buffer, held by what [_run] read to build it:
    [play_samples], [params['volume']], [params['frequency']] and [fs]. *)
Record Tone : Type := mkTone {
  tone_len : Z;
  tone_vol : Q;
  tone_freq : Q;
  tone_fs : Z
}.

(** What was last handed to [sd.play] and not stopped or finished. *)
Inductive Device : Type :=
  | DevIdle
  | DevTone (t : Tone)
  | DevSilence (frames : Z).

(** The texts [_run] passes to [update_status]: "waiting", "stopped". *)
Inductive StatusText : Type := TxtWaiting | TxtStopped.

(** The tooltips [_run] passes to [update_tray_tooltip]. *)
Inductive TrayText : Type := TipWaitNext | TipStopped.

(** The text of a level label: the initial "0.000" of [create_window], or a
    value written by [update_levels] with the format "+.3f". *)
Inductive LevelText : Type :=
  | LevelInitial
  | LevelShown (x : Q).

(** The labels of the window ([root] and its widgets). *)
Record Gui : Type := mkGui {
  status_lbl : StatusText;
  left_lbl : LevelText;
  right_lbl : LevelText
}.

(** Calls made by the player thread, newest first in the log. *)
Inductive Event : Type :=
  | EvPlayTone (t : Tone)
  | EvPlaySilence (frames : Z)
  | EvTick
  | EvStatus (s : StatusText).

(** ** The player thread *)

(** The locals of [_run] computed before the loop. *)
Record Locals : Type := mkLocals {
  fs : Z;
  play_samples : Z;
  cycle_samples : Z
}.

(** Where the thread stands in [_run]. *)
Inductive Pc : Type :=
  | PcSetup
  | PcLoopHead (L : Locals)
  | PcGen (L : Locals)
  | PcPlay (L : Locals) (sig : Tone)
  | PcWait (L : Locals)
  | PcStatus (L : Locals)
  | PcSilence (L : Locals)
  | PcRange (L : Locals)
  | PcTicks (L : Locals) (remaining : nat)
  | PcFinal
  | PcDone
  | PcCrashed (e : exn).

(** ** The whole program state

    [samplerate] is the module-level int read from the output device;
    [max_rows] is the longest array the machine can still allocate. *)

Record World : Type := mkWorld {
  params : Params;
  param_file : ParamFile;
  samplerate : Z;
  stop_evt : bool;
  thread : option Pc;
  device : Device;
  root : option Gui;
  tray_icon : option TrayText;
  log : list Event;
  max_rows : Z
}.

Definition with_params (p : Params) (w : World) : World :=
  mkWorld p (param_file w) (samplerate w) (stop_evt w) (thread w)
          (device w) (root w) (tray_icon w) (log w) (max_rows w).

Definition with_param_file (f : ParamFile) (w : World) : World :=
  mkWorld (params w) f (samplerate w) (stop_evt w) (thread w)
          (device w) (root w) (tray_icon w) (log w) (max_rows w).

Definition with_stop_evt (b : bool) (w : World) : World :=
  mkWorld (params w) (param_file w) (samplerate w) b (thread w)
          (device w) (root w) (tray_icon w) (log w) (max_rows w).

Definition with_thread (t : option Pc) (w : World) : World :=
  mkWorld (params w) (param_file w) (samplerate w) (stop_evt w) t
          (device w) (root w) (tray_icon w) (log w) (max_rows w).

Definition with_device (d : Device) (w : World) : World :=
  mkWorld (params w) (param_file w) (samplerate w) (stop_evt w) (thread w)
          d (root w) (tray_icon w) (log w) (max_rows w).

Definition with_root (g : option Gui) (w : World) : World :=
  mkWorld (params w) (param_file w) (samplerate w) (stop_evt w) (thread w)
          (device w) g (tray_icon w) (log w) (max_rows w).

Definition with_tray_icon (t : option TrayText) (w : World) : World :=
  mkWorld (params w) (param_file w) (samplerate w) (stop_evt w) (thread w)
          (device w) (root w) t (log w) (max_rows w).

Definition emit (e : Event) (w : World) : World :=
  mkWorld (params w) (param_file w) (samplerate w) (stop_evt w) (thread w)
          (device w) (root w) (tray_icon w) (e :: log w) (max_rows w).

Definition goto (pc : Pc) (w : World) : World := with_thread (Some pc) w.

(** ** GUI helpers *)

(** [update_status(txt)]: writes the label when the window exists. *)
Definition update_status (txt : StatusText) (w : World) : World :=
  match root w with
  | Some g => with_root (Some (mkGui txt (left_lbl g) (right_lbl g))) w
  | None => w
  end.

(** [update_levels(left, right)]: writes both level labels when the window
    exists.  No statement of the program calls it. *)
Definition update_levels (left right : Q) (w : World) : World :=
  match root w with
  | Some g =>
      with_root (Some (mkGui (status_lbl g) (LevelShown left) (LevelShown right))) w
  | None => w
  end.

(** [update_tray_tooltip(tip)]: writes the title when the icon exists. *)
Definition update_tray_tooltip (tip : TrayText) (w : World) : World :=
  match tray_icon w with
  | Some _ => with_tray_icon (Some tip) w
  | None => w
  end.

(** The window as [create_window] builds it. *)
Definition create_window (w : World) : World :=
  with_root (Some (mkGui TxtStopped LevelInitial LevelInitial)) w.

(** ** Loading, saving and applying parameters *)

Section Parameters.

(** [float(s)] for a string [s]; [None] stands for [ValueError]. *)
Variable str_float : string -> option Q.

(** [float(v)] for a value found in the JSON data: floats and booleans
    convert, an int converts unless it is too large for a float
    ([OverflowError]), strings go through [str_float], anything else is a
    [TypeError]. *)
Definition py_float (v : json) : exn + Q :=
  match v with
  | JNumber q => inr q
  | JInteger n =>
      match float_of_int n with
      | inl e => inl e
      | inr _ => inr (inject_Z n)
      end
  | JBool b => inr (if b then 1%Q else 0%Q)
  | JString s =>
      match str_float s with
      | Some q => inr q
      | None => inl ValueError
      end
  | JNull | JArray _ | JObject _ => inl TypeError
  end.

(** [type(DEFAULT[k])(data.get(k, DEFAULT[k]))] for one key. *)
Definition load_field (items : list (string * json)) (k : string) (dflt : Q)
  : exn + Q :=
  match dict_get k items with
  | Some v => py_float v
  | None => inr dflt
  end.

(** [load_params()], on what the parameter file holds. *)
Definition load_params (f : ParamFile) : exn + Params :=
  match f with
  | FileAbsent => inr DEFAULT
  | FileNotJSON => inl JSONDecodeError
  | FileJSON (JObject items) =>
      match load_field items "frequency" (frequency DEFAULT) with
      | inl e => inl e
      | inr fr =>
      match load_field items "volume" (volume DEFAULT) with
      | inl e => inl e
      | inr vo =>
      match load_field items "play_sec" (play_sec DEFAULT) with
      | inl e => inl e
      | inr pl =>
      match load_field items "cycle_sec" (cycle_sec DEFAULT) with
      | inl e => inl e
      | inr cy => inr (mkParams fr vo pl cy)
      end end end end
  | FileJSON _ => inl AttributeError
  end.

(** [save_params(params)]. *)
Definition save_params (w : World) : World :=
  with_param_file (FileJSON (dump_params (params w))) w.

(** The texts of the four entries when the button is pressed. *)
Record Entries : Type := mkEntries {
  freq_ent : string;
  vol_ent : string;
  play_ent : string;
  cycle_ent : string
}.

(** [float(ent.get())]. *)
Definition entry_float (s : string) : M World Q :=
  match str_float s with
  | Some q => ret q
  | None => raise ValueError
  end.

Local Open Scope py_scope.

(** The body of the [try] of [apply_params]: four reads, each followed by
    its write into the shared [params]. *)
Definition apply_params_body (e : Entries) : M World bool :=
  f <- entry_float (freq_ent e) ;;
  modify (fun w => with_params (set_frequency f (params w)) w) ;;
  v <- entry_float (vol_ent e) ;;
  modify (fun w => with_params (set_volume (py_max 0 (py_min 1 v)) (params w)) w) ;;
  p <- entry_float (play_ent e) ;;
  modify (fun w => with_params (set_play_sec (py_max (1 # 10) p) (params w)) w) ;;
  c <- entry_float (cycle_ent e) ;;
  modify (fun w => with_params (set_cycle_sec (py_max (1 # 10) c) (params w)) w) ;;
  ret true.

(** [apply_params()]: on [ValueError] it returns at once; otherwise it saves.
    The boolean tells whether [save_params] was reached. *)
Definition apply_params_m (e : Entries) : M World bool :=
  ok <- try_except_ValueError (apply_params_body e) (ret false) ;;
  if ok then (modify save_params ;; ret true) else ret false.

Definition apply_params (e : Entries) (w : World) : World :=
  fst (apply_params_m e w).

(** Whether the update was accepted (no [ValueError]). *)
Definition apply_accepted (e : Entries) (w : World) : bool :=
  match snd (apply_params_m e w) with
  | inr true => true
  | _ => false
  end.

End Parameters.

(** ** The waveform

    First the ideal one, over the real numbers; then the one the code
    computes, in binary64 and cast to float32. *)

(** [t = np.arange(play_samples) / fs]. *)
Definition time_axis (t : Tone) : list R :=
  map (fun i => (IZR i / IZR (tone_fs t))%R) (py_range (tone_len t)).

(** [sig = params['volume'] * np.sin(2 * np.pi * params['frequency'] * t)]. *)
Definition mono (t : Tone) : list R :=
  map (fun ti => (Q2R (tone_vol t) * sin (2 * PI * Q2R (tone_freq t) * ti))%R)
      (time_axis t).

(** [np.column_stack([sig, sig])]: one (left, right) row per sample. *)
Definition waveform (t : Tone) : list (R * R) :=
  map (fun x => (x, x)) (mono t).

Section Samples.

(** [np.sin] on a binary64 value. *)
Variable np_sin : xfloat -> xfloat.

(** Entry [i] of [sig] after [.astype(np.float32)]:
    [t[i] = i / fs], the phase [2 * np.pi * params['frequency'] * t[i]]
    multiplied from the left, the sine, the product with the volume. *)
Definition sample32 (t : Tone) (i : Z) : xfloat :=
  let ti := xdiv (x64 (inject_Z i)) (x64 (inject_Z (tone_fs t))) in
  let phase := xmul (xmul (xmul (XFin 2) np_pi) (x64 (tone_freq t))) ti in
  to32 (xmul (x64 (tone_vol t)) (np_sin phase)).

(** [np.column_stack([sig, sig]).astype(np.float32)]. *)
Definition samples32 (t : Tone) : list (xfloat * xfloat) :=
  map (fun i => (sample32 t i, sample32 t i)) (py_range (tone_len t)).

End Samples.

(** ** Array allocation *)

(** [np.zeros((n, 2), dtype=np.float32)]: a negative length and a length of
    2^60 rows or more (the byte size no longer fits) are [ValueError]s; a
    length beyond [limit] is a [MemoryError]. *)
Definition np_zeros (limit n : Z) : exn + unit :=
  if n <? 0 then inl ValueError
  else if 2 ^ 60 <=? n then inl ValueError
  else if limit <? n then inl MemoryError
  else inr tt.

(** [np.arange(n)] and the arrays computed from it: empty for a negative
    [n], otherwise as [np_zeros]. *)
Definition np_arange (limit n : Z) : exn + unit :=
  if n <? 0 then inr tt else np_zeros limit n.

(** ** [CyclicPlayer._run], one statement at a time *)

(** [int(params[k] * fs)]. *)
Definition count_samples (sec : Q) (fs : Z) : exn + Z :=
  match mul_float_int sec fs with
  | inl e => inl e
  | inr x => int_of_float x
  end.

(** The statements before the loop: the locals, and the silence buffer. *)
Definition run_setup (w : World) : exn + Locals :=
  let fs := samplerate w in
  match count_samples (play_sec (params w)) fs with
  | inl e => inl e
  | inr play_samples =>
      match count_samples (cycle_sec (params w)) fs with
      | inl e => inl e
      | inr cycle_samples =>
          match np_zeros (max_rows w) (cycle_samples - play_samples) with
          | inl e => inl e
          | inr _ => inr (mkLocals fs play_samples cycle_samples)
          end
      end
  end.

(** The tone of one pass: reads [params['volume']] and
    [params['frequency']]. *)
Definition run_gen (L : Locals) (w : World) : exn + Tone :=
  match np_arange (max_rows w) (play_samples L) with
  | inl e => inl e
  | inr _ =>
      inr (mkTone (play_samples L) (volume (params w))
                  (frequency (params w)) (fs L))
  end.

(** [int(params['cycle_sec'] - params['play_sec'])]. *)
Definition idle_count (p : Params) : exn + Z :=
  int_of_float (xsub (x64 (cycle_sec p)) (x64 (play_sec p))).

Arguments run_setup : simpl never.
Arguments run_gen : simpl never.
Arguments idle_count : simpl never.

Definition thread_step (w : World) : World :=
  match thread w with
  | None => w
  | Some pc =>
      match pc with
      | PcSetup =>
          (* fs = samplerate; play_samples, cycle_samples; np.zeros(...) *)
          match run_setup w with
          | inl e => goto (PcCrashed e) w
          | inr L => goto (PcLoopHead L) w
          end
      | PcLoopHead L =>
          (* while not self._stop_evt.is_set() *)
          if stop_evt w then goto PcFinal w else goto (PcGen L) w
      | PcGen L =>
          (* t = np.arange(play_samples) / fs; sig *)
          match run_gen L w with
          | inl e => goto (PcCrashed e) w
          | inr sig => goto (PcPlay L sig) w
          end
      | PcPlay L sig =>
          (* sd.play(sig, samplerate=fs) *)
          goto (PcWait L) (with_device (DevTone sig) (emit (EvPlayTone sig) w))
      | PcWait L =>
          (* sd.wait() returns: the buffer ended or sd.stop() was called *)
          goto (PcStatus L) (with_device DevIdle w)
      | PcStatus L =>
          (* update_status(waiting); update_tray_tooltip(wait for next) *)
          goto (PcSilence L)
               (update_tray_tooltip TipWaitNext
                  (update_status TxtWaiting (emit (EvStatus TxtWaiting) w)))
      | PcSilence L =>
          (* sd.play(silence, samplerate=fs) *)
          let frames := cycle_samples L - play_samples L in
          goto (PcRange L)
               (with_device (DevSilence frames) (emit (EvPlaySilence frames) w))
      | PcRange L =>
          (* range(int(params['cycle_sec'] - params['play_sec'])) *)
          match idle_count (params w) with
          | inl e => goto (PcCrashed e) w
          | inr n => goto (PcTicks L (Z.to_nat n)) w
          end
      | PcTicks L O =>
          (* the for loop is exhausted *)
          goto (PcLoopHead L) w
      | PcTicks L (S k) =>
          (* if self._stop_evt.wait(1): break *)
          if stop_evt w then goto (PcLoopHead L) w
          else goto (PcTicks L k) (emit EvTick w)
      | PcFinal =>
          (* update_status(stopped); update_tray_tooltip(stopped) *)
          goto PcDone
               (update_tray_tooltip TipStopped
                  (update_status TxtStopped (emit (EvStatus TxtStopped) w)))
      | PcDone => w
      | PcCrashed _ => w
      end
  end.

(** ** [CyclicPlayer.start], [stop] and [toggle_play] *)

(** [self._thread and self._thread.is_alive()]. *)
Definition is_alive (w : World) : bool :=
  match thread w with
  | None => false
  | Some PcDone => false
  | Some (PcCrashed _) => false
  | Some _ => true
  end.

Definition start (w : World) : World :=
  if is_alive w then w
  else goto PcSetup (with_stop_evt false w).

(** [self._stop_evt.set(); sd.stop()]. *)
Definition stop (w : World) : World :=
  with_device DevIdle (with_stop_evt true w).

Definition toggle_play (w : World) : World :=
  if is_alive w then stop w else start w.

(** ** Program start and interleaved runs *)

(** What the calls from the GUI and tray threads and the scheduler can do
    next: one call of the control side, or one statement of [_run]. *)
Inductive Action : Type :=
  | AStart
  | AStop
  | AToggle
  | AApply (e : Entries)
  | AThread.

Section Runs.

Variable str_float : string -> option Q.


Definition act (a : Action) (w : World) : World :=
  match a with
  | AStart => start w
  | AStop => stop w
  | AToggle => toggle_play w
  | AApply e => apply_params str_float e w
  | AThread => thread_step w
  end.

Fixpoint exec (l : list Action) (w : World) : World :=
  match l with
  | [] => w
  | a :: rest => exec rest (act a w)
  end.

End Runs.

(** [n] statements of the thread with no call in between. *)
Fixpoint thread_steps (n : nat) (w : World) : World :=
  match n with
  | O => w
  | S k => thread_steps k (thread_step w)
  end.

(** ** Readings of the log *)

Definition is_play (e : Event) : bool :=
  match e with EvPlayTone _ => true | _ => false end.

Definition is_silence (e : Event) : bool :=
  match e with EvPlaySilence _ => true | _ => false end.

Definition is_tick (e : Event) : bool :=
  match e with EvTick => true | _ => false end.

Definition plays (w : World) : nat := List.length (filter is_play (log w)).
Definition silences (w : World) : nat := List.length (filter is_silence (log w)).
Definition ticks (w : World) : nat := List.length (filter is_tick (log w)).

(** The tones handed to [sd.play], newest first. *)
Fixpoint tones (l : list Event) : list Tone :=
  match l with
  | [] => []
  | EvPlayTone t :: rest => t :: tones rest
  | _ :: rest => tones rest
  end.

(** ** The spec's rounding

    The sample count as the specification words it: the product rounded to
    the nearest integer (ties to even, as Python's [round]). *)

Definition round_nearest (x : Q) : Z :=
  let f := Qfloor x in
  let d := (x - inject_Z f)%Q in
  if Qlt_bool d (1 # 2) then f
  else if Qlt_bool (1 # 2) d then f + 1
  else if Z.even f then f else f + 1.

Definition spec_sample_count (duration : Q) (rate : Z) : Z :=
  round_nearest (mul_int duration rate).

(** ** Concrete program states *)

(** The example machine can allocate 2^30 rows (an 8 GiB stereo buffer). *)
Definition rows0 : Z := 2 ^ 30.

(** The program after start-up with no parameter file, on a 44100 Hz device. *)
Definition world0 : World :=
  create_window
    (mkWorld DEFAULT FileAbsent 44100 false None DevIdle None None [] rows0).

(** The same with given parameters and sample rate. *)
Definition world_with (p : Params) (rate : Z) : World :=
  create_window
    (mkWorld p FileAbsent rate false None DevIdle None None [] rows0).

(** ** Measures on the thread's position *)

(** How many statements the thread still runs once the stop event is set
    and stays set. *)
Definition pc_rank (pc : Pc) : nat :=
  match pc with
  | PcDone | PcCrashed _ => 0
  | PcFinal => 1
  | PcLoopHead _ => 2
  | PcTicks _ _ | PcSetup => 3
  | PcRange _ => 4
  | PcSilence _ => 5
  | PcStatus _ => 6
  | PcWait _ => 7
  | PcPlay _ _ => 8
  | PcGen _ => 9
  end.

Definition rank (w : World) : nat :=
  match thread w with
  | None => 0
  | Some pc => pc_rank pc
  end.

(** Calls of [sd.play] the thread is already committed to, having passed
    the loop test: the tone, and the silence that follows it. *)
Definition plays_due (w : World) : nat :=
  match thread w with
  | Some (PcGen _) | Some (PcPlay _ _) => 1
  | _ => 0
  end.

Definition silences_due (w : World) : nat :=
  match thread w with
  | Some (PcGen _) | Some (PcPlay _ _) | Some (PcWait _)
  | Some (PcStatus _) | Some (PcSilence _) => 1
  | _ => 0
  end.

(** Actions that may call [start]. *)
Definition may_start (a : Action) : bool :=
  match a with
  | AStart | AToggle => true
  | _ => false
  end.

Definition no_start (l : list Action) : bool :=
  forallb (fun a => negb (may_start a)) l.

Definition is_thread_action (a : Action) : bool :=
  match a with AThread => true | _ => false end.

(** Number of statements the thread is given in a run. *)
Definition thread_turns (l : list Action) : nat :=
  List.length (filter is_thread_action l).

(** What the two level labels show. *)
Definition levels (w : World) : option (LevelText * LevelText) :=
  match root w with
  | Some g => Some (left_lbl g, right_lbl g)
  | None => None
  end.

(** The player started on [world0], its thread past the loop test and about
    to build the tone. *)
Definition world_gen : World :=
  exec decimal_float [AStart; AThread; AThread] world0.

(** Actions of a run in which only the thread and parameter updates act. *)
Definition only_updates (l : list Action) : bool :=
  forallb (fun a => match a with AThread | AApply _ => true | _ => false end) l.

(** A player with a cycle of 5.5 s and a play time of 1 s, its thread about
    to evaluate the [range] of the idle wait. *)
Definition world_idle : World :=
  exec decimal_float
    [AStart; AThread; AThread; AThread; AThread; AThread; AThread; AThread]
    (world_with (mkParams 440 (1 # 2) 1 (11 # 2)) 44100).

(** Runs in which [apply_params] is not called. *)
Definition no_update (l : list Action) : bool :=
  forallb (fun a => match a with AApply _ => false | _ => true end) l.

(** A 48000 Hz device with a play time of 0.12345 s entered in the window,
    and the player started on it. *)
Definition world_short : World :=
  start (apply_params decimal_float (mkEntries "440" "0.5" "0.12345" "60")
           (world_with DEFAULT 48000)).

(** A run on the defaults (440 Hz, volume 0.001, play 1 s, cycle 60 s): the
    first tone is played, two ticks of the idle wait pass, the window then
    applies 880 Hz, volume 0.5, play 2 s, cycle 10 s, and the thread runs on
    through the rest of the wait and the second call of [sd.play]. *)
Definition run_with_update : list Action :=
  [AStart] ++ repeat AThread 10
  ++ [AApply (mkEntries "880" "0.5" "2" "10")]
  ++ repeat AThread 61.

(** Volume 0.5 applied, the player started, and the first tone handed to
    the device. *)
Definition world_playing : World :=
  exec decimal_float
    [AApply (mkEntries "440" "0.5" "1" "60"); AStart;
     AThread; AThread; AThread; AThread]
    world0.

(** The keys of [DEFAULT]. *)
Definition param_keys : list string :=
  ["frequency"; "volume"; "play_sec"; "cycle_sec"]%string.

(** The locals of [_run], once the thread is in its loop. *)
Definition pc_locals (pc : Pc) : option Locals :=
  match pc with
  | PcLoopHead L | PcGen L | PcPlay L _ | PcWait L | PcStatus L
  | PcSilence L | PcRange L | PcTicks L _ => Some L
  | PcSetup | PcFinal | PcDone | PcCrashed _ => None
  end.

(** The thread runs (or has left) the loop entered with locals [L], and a
    tone waiting to be played has the length [L] fixes. *)
Definition in_loop (L : Locals) (w : World) : Prop :=
  match thread w with
  | Some (PcPlay L' sig) => L' = L /\ tone_len sig = play_samples L
  | Some PcFinal | Some PcDone | Some (PcCrashed _) => True
  | Some pc => pc_locals pc = Some L
  | None => False
  end.

(** ** Further readings of the state *)

(** The locals of the running thread, if it is in its loop. *)
Definition thread_locals (w : World) : option Locals :=
  match thread w with
  | Some pc => pc_locals pc
  | None => None
  end.

(** A tone has been handed to the device and the silence that follows it
    has not been handed yet. *)
Definition silence_owed (w : World) : nat :=
  match thread w with
  | Some (PcWait _) | Some (PcStatus _) | Some (PcSilence _) => 1
  | _ => 0
  end.

(** The calls one pass of the loop body makes, newest first: [k] ticks of
    the idle wait, the silence, the status text, the tone. *)
Definition cycle_events (L : Locals) (p : Params) (k : nat) : list Event :=
  repeat EvTick k
  ++ [EvPlaySilence (cycle_samples L - play_samples L);
      EvStatus TxtWaiting;
      EvPlayTone (mkTone (play_samples L) (volume p) (frequency p) (fs L))].

(** When the thread has returned from [_run], the status label of an
    existing window reads "stopped". *)
Definition status_settled (w : World) : Prop :=
  forall g, root w = Some g -> thread w = Some PcDone ->
            status_lbl g = TxtStopped.

(** The three clamped fields are within the bounds [apply_params] gives. *)
Definition in_bounds (p : Params) : Prop :=
  (0 <= volume p)%Q /\ (volume p <= 1)%Q /\
  (1 # 10 <= play_sec p)%Q /\ (1 # 10 <= cycle_sec p)%Q.

(** * Proofs *)

(** ** Numbers *)

Lemma Qlt_bool_iff (a b : Q) : Qlt_bool a b = true <-> (a < b)%Q.
Proof.
  unfold Qlt_bool. rewrite negb_true_iff.
  split.
  - intros H. apply Qnot_le_lt. intros Hle.
    apply Qle_bool_iff in Hle. congruence.
  - intros H. destruct (Qle_bool b a) eqn:E; [|reflexivity].
    apply Qle_bool_iff in E. exfalso. exact (Qlt_not_le _ _ H E).
Qed.

Lemma Qlt_bool_false (a b : Q) : Qlt_bool a b = false -> (b <= a)%Q.
Proof.
  unfold Qlt_bool. rewrite negb_false_iff. apply Qle_bool_iff.
Qed.

Lemma py_max_lower (a b : Q) : (a <= py_max a b)%Q.
Proof.
  unfold py_max. destruct (Qlt_bool a b) eqn:E.
  - apply Qlt_le_weak, Qlt_bool_iff, E.
  - apply Qle_refl.
Qed.

Lemma py_max_upper (a b c : Q) : (a <= c)%Q -> (b <= c)%Q -> (py_max a b <= c)%Q.
Proof. unfold py_max. destruct (Qlt_bool a b); auto. Qed.

Lemma py_min_upper (a b : Q) : (py_min a b <= a)%Q.
Proof.
  unfold py_min. destruct (Qlt_bool b a) eqn:E.
  - apply Qlt_le_weak, Qlt_bool_iff, E.
  - apply Qle_refl.
Qed.

Lemma py_max_keeps (a b : Q) : (a <= b)%Q -> (py_max a b == b)%Q.
Proof.
  intros H. unfold py_max. destruct (Qlt_bool a b) eqn:E.
  - reflexivity.
  - apply Qle_antisym; [exact H | apply Qlt_bool_false, E].
Qed.

Lemma py_min_keeps (a b : Q) : (b <= a)%Q -> (py_min a b == b)%Q.
Proof.
  intros H. unfold py_min. destruct (Qlt_bool b a) eqn:E.
  - reflexivity.
  - apply Qle_antisym; [apply Qlt_bool_false, E | exact H].
Qed.

(** The clamp of [apply_params] on the volume lands in [0, 1]. *)
Lemma volume_clamp_range (v : Q) :
  (0 <= py_max 0 (py_min 1 v))%Q /\ (py_max 0 (py_min 1 v) <= 1)%Q.
Proof.
  split.
  - apply py_max_lower.
  - apply py_max_upper; [discriminate | apply py_min_upper].
Qed.

(** A volume already in [0, 1] passes the clamp unchanged (up to [==]). *)
Lemma volume_clamp_keeps (v : Q) :
  (0 <= v)%Q -> (v <= 1)%Q -> (py_max 0 (py_min 1 v) == v)%Q.
Proof.
  intros H0 H1.
  rewrite py_max_keeps; rewrite py_min_keeps; auto. reflexivity.
Qed.

Lemma py_int_floor (x : Q) : (0 <= x)%Q -> py_int x = Qfloor x.
Proof.
  destruct x as [n d]. unfold py_int, Qfloor, Qle. simpl.
  intros H. rewrite Z.mul_1_r in H.
  apply Z.quot_div_nonneg; lia.
Qed.
(** ** Rounding to nearest is monotone, idempotent and symmetric *)

Section Pow2.

Local Open Scope Q_scope.

Lemma pow2_pos (k : Z) : 0 < pow2 k.
Proof. apply Qpower_0_lt. reflexivity. Qed.

Lemma pow2_add (a b : Z) : pow2 (a + b) == pow2 a * pow2 b.
Proof. apply Qpower_plus. discriminate. Qed.

Lemma pow2_le (a b : Z) : (a <= b)%Z -> pow2 a <= pow2 b.
Proof. intros H. apply Qpower_le_compat_l; [exact H | discriminate]. Qed.

Lemma pow2_lt (a b : Z) : (a < b)%Z -> pow2 a < pow2 b.
Proof. intros H. apply Qpower_lt_compat_l; [exact H | reflexivity]. Qed.

Lemma pow2_Z (k : Z) : (0 <= k)%Z -> pow2 k == inject_Z (2 ^ k).
Proof. intros H. unfold pow2. rewrite Zpower_Qpower by exact H. reflexivity. Qed.

Lemma pow2_div (a b : Z) : pow2 a / pow2 b == pow2 (a - b).
Proof.
  pose proof (pow2_pos b) as Hb.
  assert (E : pow2 a == pow2 (a - b) * pow2 b).
  { rewrite <- pow2_add. replace (a - b + b)%Z with a by ring. reflexivity. }
  rewrite E. field. intros H0. rewrite H0 in Hb. discriminate.
Qed.


Lemma ilog2_spec (q : Q) :
  0 < q -> pow2 (ilog2 q) <= q /\ q < pow2 (ilog2 q + 1).
Proof.
  intros Hq. destruct q as [n d]. unfold ilog2. cbn [Qnum Qden].
  assert (Hn : (0 < n)%Z).
  { unfold Qlt in Hq. cbn in Hq. lia. }
  destruct (Z.log2_spec n Hn) as [Hn1 Hn2].
  destruct (Z.log2_spec (Zpos d) ltac:(lia)) as [Hd1 Hd2].
  set (a := Z.log2 n) in *. set (b := Z.log2 (Zpos d)) in *.
  assert (Ha : (0 <= a)%Z) by apply Z.log2_nonneg.
  assert (Hb : (0 <= b)%Z) by apply Z.log2_nonneg.
  assert (Hq' : n # d == inject_Z n / inject_Z (Zpos d)) by apply Qmake_Qdiv.
  assert (Hdpos : 0 < inject_Z (Zpos d)).
  { change 0 with (inject_Z 0). rewrite <- Zlt_Qlt. lia. }
  (* bounds in Q *)
  assert (En1 : pow2 a <= inject_Z n).
  { rewrite pow2_Z by exact Ha. rewrite <- Zle_Qle. exact Hn1. }
  assert (En2 : inject_Z n < pow2 (a + 1)).
  { rewrite pow2_Z by lia. rewrite <- Zlt_Qlt. replace (a + 1)%Z with (Z.succ a) by lia. exact Hn2. }
  assert (Ed1 : pow2 b <= inject_Z (Zpos d)).
  { rewrite pow2_Z by exact Hb. rewrite <- Zle_Qle. exact Hd1. }
  assert (Ed2 : inject_Z (Zpos d) < pow2 (b + 1)).
  { rewrite pow2_Z by lia. rewrite <- Zlt_Qlt. replace (b + 1)%Z with (Z.succ b) by lia. exact Hd2. }
  assert (Hup : n # d < pow2 (a - b + 1)).
  { rewrite Hq'. apply Qlt_shift_div_r; [exact Hdpos|].
    apply Qlt_le_trans with (pow2 (a + 1)); [exact En2|].
    replace (a + 1)%Z with ((a - b + 1) + b)%Z by ring.
    rewrite pow2_add. apply Qmult_le_l; [apply pow2_pos | exact Ed1]. }
  assert (Hlo : pow2 (a - b - 1) < n # d).
  { rewrite Hq'. apply Qlt_shift_div_l; [exact Hdpos|].
    apply Qlt_le_trans with (pow2 a); [|exact En1].
    replace a with ((a - b - 1) + (b + 1))%Z at 2 by ring.
    rewrite pow2_add. apply Qmult_lt_l; [apply pow2_pos | exact Ed2]. }
  destruct (Qle_bool (pow2 (a - b)) (n # d)) eqn:E.
  - apply Qle_bool_iff in E. split; assumption.
  - split.
    + apply Qlt_le_weak. exact Hlo.
    + replace (a - b - 1 + 1)%Z with (a - b)%Z by ring.
      apply Qnot_le_lt. intros H. apply Qle_bool_iff in H. congruence.
Qed.

Lemma ilog2_unique (q : Q) (k : Z) :
  pow2 k <= q -> q < pow2 (k + 1) -> ilog2 q = k.
Proof.
  intros H1 H2.
  assert (Hq : 0 < q) by (eapply Qlt_le_trans; [apply pow2_pos | exact H1]).
  destruct (ilog2_spec q Hq) as [S1 S2].
  destruct (Z.lt_trichotomy (ilog2 q) k) as [Hlt | [Heq | Hgt]]; [|exact Heq|].
  - exfalso. assert (pow2 (ilog2 q + 1) <= pow2 k) by (apply pow2_le; lia). lra.
  - exfalso. assert (pow2 (k + 1) <= pow2 (ilog2 q)) by (apply pow2_le; lia). lra.
Qed.

Lemma ilog2_mono (x y : Q) : 0 < x -> x <= y -> (ilog2 x <= ilog2 y)%Z.
Proof.
  intros Hx Hxy. assert (Hy : 0 < y) by lra.
  destruct (ilog2_spec x Hx) as [X1 X2].
  destruct (ilog2_spec y Hy) as [Y1 Y2].
  destruct (Z.le_gt_cases (ilog2 x) (ilog2 y)) as [H|H]; [exact H|].
  exfalso. assert (pow2 (ilog2 y + 1) <= pow2 (ilog2 x)) by (apply pow2_le; lia). lra.
Qed.


#[global] Instance rhe_comp : Proper (Qeq ==> eq) rhe.
Proof.
  intros x y E. unfold rhe. rewrite (Qfloor_comp x y E).
  assert (E' : x - inject_Z (Qfloor y) == y - inject_Z (Qfloor y)) by (rewrite E; reflexivity).
  rewrite (Qcompare_comp _ _ E' (1#2) (1#2) (Qeq_refl _)). reflexivity.
Qed.

Lemma rhe_near (x : Q) :
  inject_Z (rhe x) - (1 # 2) <= x /\ x <= inject_Z (rhe x) + (1 # 2).
Proof.
  unfold rhe. pose proof (Qfloor_le x) as H1. pose proof (Qlt_floor x) as H2.
  rewrite inject_Z_plus in H2. change (inject_Z 1) with 1 in H2.
  destruct (Qcompare (x - inject_Z (Qfloor x)) (1 # 2)) eqn:E.
  - apply Qeq_alt in E. destruct (Z.even (Qfloor x)).
    + lra.
    + rewrite inject_Z_plus. change (inject_Z 1) with 1. lra.
  - apply Qlt_alt in E. lra.
  - apply Qgt_alt in E. rewrite inject_Z_plus. change (inject_Z 1) with 1. lra.
Qed.

Lemma rhe_Z (n : Z) : rhe (inject_Z n) = n.
Proof.
  unfold rhe. rewrite Qfloor_Z.
  assert (E : Qcompare (inject_Z n - inject_Z n) (1 # 2) = Lt).
  { apply Qlt_alt. setoid_replace (inject_Z n - inject_Z n) with 0 by ring.
    reflexivity. }
  rewrite E. reflexivity.
Qed.

Lemma rhe_mono (x y : Q) : x <= y -> (rhe x <= rhe y)%Z.
Proof.
  intros H. destruct (Z.le_gt_cases (rhe x) (rhe y)) as [L|G]; [exact L|].
  exfalso.
  destruct (rhe_near x) as [X1 X2]. destruct (rhe_near y) as [Y1 Y2].
  assert (G' : inject_Z (rhe y) + 1 <= inject_Z (rhe x)).
  { change 1 with (inject_Z 1). rewrite <- inject_Z_plus, <- Zle_Qle. lia. }
  assert (E : x == y) by lra.
  rewrite E in G. lia.
Qed.

End Pow2.

Section Format.

Local Open Scope Q_scope.

Variables prec emin : Z.
Hypothesis prec_pos : (1 <= prec)%Z.

Local Abbreviation ulp_exp := (Float.ulp_exp prec emin).
Local Abbreviation rnd_pos := (Float.rnd_pos prec emin).
Local Abbreviation rnd := (Float.rnd prec emin).



Lemma scale_le (x y : Q) (e : Z) : x <= y -> x / pow2 e <= y / pow2 e.
Proof.
  intros H. unfold Qdiv. apply Qmult_le_compat_r; [exact H|].
  apply Qlt_le_weak, Qinv_lt_0_compat, pow2_pos.
Qed.

Lemma grid_scale (n : Z) (g e : Z) :
  (e <= g)%Z ->
  inject_Z n * pow2 g / pow2 e == inject_Z (n * 2 ^ (g - e)).
Proof.
  intros H. unfold Qdiv. rewrite <- Qmult_assoc.
  change (pow2 g * / pow2 e) with (pow2 g / pow2 e).
  rewrite pow2_div, pow2_Z by lia. rewrite inject_Z_mult. reflexivity.
Qed.

Lemma grid_unscale (n : Z) (g e : Z) :
  (e <= g)%Z ->
  inject_Z (n * 2 ^ (g - e)) * pow2 e == inject_Z n * pow2 g.
Proof.
  intros H. rewrite inject_Z_mult, <- pow2_Z by lia.
  rewrite <- Qmult_assoc, <- pow2_add.
  replace (g - e + e)%Z with g by ring. reflexivity.
Qed.

(** Rounding does not cross a number of the grid it rounds to. *)
Lemma rnd_pos_le_grid (x : Q) (n g : Z) :
  x <= inject_Z n * pow2 g -> (ulp_exp x <= g)%Z ->
  rnd_pos x <= inject_Z n * pow2 g.
Proof.
  intros Hx Hg. unfold rnd_pos.
  rewrite <- (grid_unscale n g (ulp_exp x) Hg).
  apply Qmult_le_compat_r; [|apply Qlt_le_weak, pow2_pos].
  rewrite <- Zle_Qle.
  rewrite <- (rhe_Z (n * 2 ^ (g - ulp_exp x))).
  apply rhe_mono. rewrite <- (grid_scale n g (ulp_exp x) Hg).
  apply scale_le, Hx.
Qed.

Lemma rnd_pos_ge_grid (x : Q) (n g : Z) :
  inject_Z n * pow2 g <= x -> (ulp_exp x <= g)%Z ->
  inject_Z n * pow2 g <= rnd_pos x.
Proof.
  intros Hx Hg. unfold rnd_pos.
  rewrite <- (grid_unscale n g (ulp_exp x) Hg).
  apply Qmult_le_compat_r; [|apply Qlt_le_weak, pow2_pos].
  rewrite <- Zle_Qle.
  rewrite <- (rhe_Z (n * 2 ^ (g - ulp_exp x))) at 1.
  apply rhe_mono. rewrite <- (grid_scale n g (ulp_exp x) Hg).
  apply scale_le, Hx.
Qed.

Lemma one_pow2 (g : Z) : inject_Z 1 * pow2 g == pow2 g.
Proof. change (inject_Z 1) with 1. ring. Qed.

Lemma rnd_pos_mono (x y : Q) : 0 < x -> x <= y -> rnd_pos x <= rnd_pos y.
Proof.
  intros Hx Hxy. assert (Hy : 0 < y) by lra.
  pose proof (ilog2_mono x y Hx Hxy) as Hk.
  destruct (ilog2_spec x Hx) as [X1 X2].
  destruct (ilog2_spec y Hy) as [Y1 Y2].
  destruct (Z.eq_dec (ulp_exp x) (ulp_exp y)) as [E|NE].
  - unfold rnd_pos. rewrite E.
    apply Qmult_le_compat_r; [|apply Qlt_le_weak, pow2_pos].
    rewrite <- Zle_Qle. apply rhe_mono, scale_le, Hxy.
  - assert (Hlt : (ulp_exp x < ulp_exp y)%Z) by (unfold ulp_exp in *; lia).
    assert (Hey : ulp_exp y = (ilog2 y - prec + 1)%Z) by (unfold ulp_exp in *; lia).
    assert (Hkx : (ilog2 x + 1 <= ilog2 y)%Z) by (unfold ulp_exp in *; lia).
    apply Qle_trans with (inject_Z 1 * pow2 (ilog2 y)).
    + apply rnd_pos_le_grid; [|lia].
      rewrite one_pow2.
      apply Qle_trans with (pow2 (ilog2 x + 1)); [lra | apply pow2_le; lia].
    + apply rnd_pos_ge_grid; [|lia]. rewrite one_pow2. exact Y1.
Qed.

Lemma rnd_pos_nonneg (x : Q) : 0 < x -> 0 <= rnd_pos x.
Proof.
  intros Hx. unfold rnd_pos.
  apply Qmult_le_0_compat; [|apply Qlt_le_weak, pow2_pos].
  change 0 with (inject_Z 0). rewrite <- Zle_Qle.
  rewrite <- (rhe_Z 0). apply rhe_mono.
  change (inject_Z 0) with 0.
  apply Qle_shift_div_l; [apply pow2_pos | lra].
Qed.

(** The mantissa has at most [prec] bits, or is [2 ^ prec]. *)
Lemma mantissa_bound (q : Q) :
  0 < q -> (rhe (q / pow2 (ulp_exp q)) <= 2 ^ prec)%Z.
Proof.
  intros Hq. destruct (ilog2_spec q Hq) as [S1 S2].
  rewrite <- (rhe_Z (2 ^ prec)). apply rhe_mono.
  rewrite <- pow2_Z by lia.
  apply Qle_shift_div_r; [apply pow2_pos|].
  rewrite <- pow2_add.
  apply Qle_trans with (pow2 (ilog2 q + 1)); [lra|].
  apply pow2_le. unfold ulp_exp. lia.
Qed.

Lemma rnd_pos_idem (q : Q) :
  0 < q -> 0 < rnd_pos q -> rnd_pos (rnd_pos q) == rnd_pos q.
Proof.
  intros Hq Hr.
  pose proof (mantissa_bound q Hq) as Hm.
  set (e := ulp_exp q) in *. set (m := rhe (q / pow2 e)) in *.
  assert (Er : rnd_pos q == inject_Z m * pow2 e) by reflexivity.
  assert (He : (emin <= e)%Z) by (unfold e, ulp_exp; lia).
  destruct (Z.eq_dec m (2 ^ prec)) as [Emax | Nmax].
  - (* the mantissa overflowed to the next power of two *)
    assert (Ep : rnd_pos q == inject_Z 1 * pow2 (prec + e)).
    { rewrite Er, Emax, one_pow2, pow2_add, (pow2_Z prec) by lia. reflexivity. }
    assert (Hlog : ilog2 (rnd_pos q) = (prec + e)%Z).
    { apply ilog2_unique.
      - rewrite Ep, one_pow2. apply Qle_refl.
      - rewrite Ep, one_pow2. apply pow2_lt. lia. }
    assert (Hu : (ulp_exp (rnd_pos q) <= prec + e)%Z) by (unfold ulp_exp; lia).
    apply Qle_antisym.
    + rewrite Ep at 2. apply rnd_pos_le_grid; [rewrite Ep; apply Qle_refl | exact Hu].
    + rewrite Ep at 1. apply rnd_pos_ge_grid; [rewrite Ep; apply Qle_refl | exact Hu].
  - assert (Hlt : rnd_pos q < pow2 (prec + e)).
    { rewrite Er, pow2_add. apply Qmult_lt_compat_r; [apply pow2_pos|].
      rewrite (pow2_Z prec) by lia. rewrite <- Zlt_Qlt. lia. }
    assert (Hlog : (ilog2 (rnd_pos q) < prec + e)%Z).
    { destruct (ilog2_spec _ Hr) as [R1 R2].
      destruct (Z.lt_ge_cases (ilog2 (rnd_pos q)) (prec + e)) as [L|G]; [exact L|].
      exfalso. assert (pow2 (prec + e) <= pow2 (ilog2 (rnd_pos q))) by (apply pow2_le; lia).
      lra. }
    assert (Hu : (ulp_exp (rnd_pos q) <= e)%Z) by (unfold ulp_exp; lia).
    apply Qle_antisym.
    + rewrite Er at 2. apply rnd_pos_le_grid; [rewrite Er; apply Qle_refl | exact Hu].
    + rewrite Er at 1. apply rnd_pos_ge_grid; [rewrite Er; apply Qle_refl | exact Hu].
Qed.


Lemma rnd_cases (q : Q) :
  (0 < q /\ rnd q = rnd_pos q) \/
  (q < 0 /\ rnd q = - rnd_pos (- q)) \/
  (q == 0 /\ rnd q = 0).
Proof.
  unfold rnd. destruct (Qcompare q 0) eqn:E.
  - apply Qeq_alt in E. auto.
  - apply Qlt_alt in E. auto.
  - apply Qgt_alt in E. auto.
Qed.

Lemma rnd_mono (x y : Q) : x <= y -> rnd x <= rnd y.
Proof.
  intros H.
  destruct (rnd_cases x) as [[Hx ->] | [[Hx ->] | [Hx ->]]];
  destruct (rnd_cases y) as [[Hy ->] | [[Hy ->] | [Hy ->]]];
    try (exfalso; lra).
  - apply rnd_pos_mono; assumption.
  - pose proof (rnd_pos_nonneg (- x) ltac:(lra)).
    pose proof (rnd_pos_nonneg y Hy). lra.
  - assert (rnd_pos (- y) <= rnd_pos (- x)) by (apply rnd_pos_mono; lra). lra.
  - pose proof (rnd_pos_nonneg (- x) ltac:(lra)). lra.
  - apply rnd_pos_nonneg, Hy.
  - apply Qle_refl.
Qed.

#[global] Instance rnd_comp : Proper (Qeq ==> Qeq) rnd.
Proof.
  intros x y E. apply Qle_antisym; apply rnd_mono; rewrite E; apply Qle_refl.
Qed.

Lemma rnd_opp (q : Q) : rnd (- q) == - rnd q.
Proof.
  destruct (rnd_cases q) as [[Hq Eq] | [[Hq Eq] | [Hq Eq]]];
  destruct (rnd_cases (- q)) as [[Hn En] | [[Hn En] | [Hn En]]];
    try (exfalso; lra); rewrite Eq, En.
  - assert (E : - - q == q) by ring.
    assert (rnd_pos (- - q) <= rnd_pos q) by (apply rnd_pos_mono; lra).
    assert (rnd_pos q <= rnd_pos (- - q)) by (apply rnd_pos_mono; lra).
    lra.
  - lra.
  - lra.
Qed.

Lemma rnd_idem (q : Q) : rnd (rnd q) == rnd q.
Proof.
  assert (Hpos : forall x, 0 < x -> rnd (rnd_pos x) == rnd_pos x).
  { intros x Hx. pose proof (rnd_pos_nonneg x Hx) as H0.
    destruct (rnd_cases (rnd_pos x)) as [[Hr ->] | [[Hr ->] | [Hr ->]]].
    - apply rnd_pos_idem; assumption.
    - exfalso. lra.
    - lra. }
  destruct (rnd_cases q) as [[Hq ->] | [[Hq ->] | [Hq ->]]].
  - apply Hpos, Hq.
  - rewrite rnd_opp. rewrite Hpos by lra. reflexivity.
  - reflexivity.
Qed.

End Format.
(** ** Binary64 and float32 values *)

Section FloatFacts.

Local Open Scope Q_scope.

Lemma Qabs_lt_iff (x y : Q) : Qabs x < y <-> - y < x /\ x < y.
Proof.
  split.
  - intros H. pose proof (Qle_Qabs x) as H1. pose proof (Qle_Qabs (- x)) as H2.
    rewrite Qabs_opp in H2. split; lra.
  - intros [H1 H2]. apply Qabs_case; intros; lra.
Qed.

(** What [round] returns: the rounded rational when it is below the
    overflow threshold, an infinity of its sign otherwise. *)
Lemma round_cases (prec emin emax : Z) (q : Q) :
  (round prec emin emax q = XFin (Qred (rnd prec emin q)) /\
   Qabs (rnd prec emin q) < pow2 emax) \/
  (round prec emin emax q = XInf false /\ pow2 emax <= rnd prec emin q) \/
  (round prec emin emax q = XInf true /\ rnd prec emin q <= - pow2 emax).
Proof.
  unfold round. cbv zeta.
  pose proof (pow2_pos emax) as Hp.
  destruct (Qle_bool (pow2 emax) (Qabs (rnd prec emin q))) eqn:E.
  - apply Qle_bool_iff in E.
    destruct (Qlt_bool (rnd prec emin q) 0) eqn:S.
    + right. right. split; [reflexivity|].
      apply Qlt_bool_iff in S. rewrite Qabs_neg in E by lra. lra.
    + right. left. split; [reflexivity|].
      apply Qlt_bool_false in S. rewrite Qabs_pos in E by exact S. exact E.
  - left. split; [reflexivity|].
    apply Qnot_le_lt. intros H. apply Qle_bool_iff in H. congruence.
Qed.

Lemma round_fin (prec emin emax : Z) (q r : Q) :
  round prec emin emax q = XFin r ->
  r == rnd prec emin q /\ Qabs (rnd prec emin q) < pow2 emax.
Proof.
  intros H.
  destruct (round_cases prec emin emax q) as [[E Hb] | [[E _] | [E _]]];
    rewrite E in H; try discriminate.
  injection H as <-. split; [apply Qred_correct | exact Hb].
Qed.

Lemma round_not_nan (prec emin emax : Z) (q : Q) :
  round prec emin emax q <> XNaN.
Proof.
  destruct (round_cases prec emin emax q) as [[E _] | [[E _] | [E _]]];
    rewrite E; discriminate.
Qed.

(** Rounding a rational of magnitude at most 1 stays within [-1, 1]. *)
Lemma rnd_unit (prec emin : Z) (q : Q) :
  (1 <= prec)%Z -> rnd prec emin 1 == 1 ->
  - (1) <= q -> q <= 1 ->
  - (1) <= rnd prec emin q /\ rnd prec emin q <= 1.
Proof.
  intros Hp H1 Hlo Hhi.
  pose proof (rnd_mono prec emin Hp q 1 Hhi) as Hu.
  pose proof (rnd_mono prec emin Hp (- (1)) q Hlo) as Hd.
  rewrite (rnd_opp prec emin Hp 1) in Hd. rewrite H1 in Hu, Hd.
  split; assumption.
Qed.

(** Rounding keeps a bound that is itself a value of the format. *)
Lemma rnd_within (prec emin : Z) (q b : Q) :
  (1 <= prec)%Z -> rnd prec emin b == b ->
  - b <= q -> q <= b ->
  - b <= rnd prec emin q /\ rnd prec emin q <= b.
Proof.
  intros Hp Hb Hlo Hhi.
  pose proof (rnd_mono prec emin Hp q b Hhi) as Hu.
  pose proof (rnd_mono prec emin Hp (- b) q Hlo) as Hd.
  rewrite (rnd_opp prec emin Hp b) in Hd. rewrite Hb in Hu, Hd.
  split; assumption.
Qed.

Lemma rnd64_one : rnd 53 (-1074) 1 == 1.
Proof. vm_compute. reflexivity. Qed.

Lemma rnd32_one : rnd 24 (-149) 1 == 1.
Proof. vm_compute. reflexivity. Qed.

Lemma rnd_zero (prec emin : Z) : rnd prec emin 0 = 0.
Proof. reflexivity. Qed.

(** [x64] and [x32] depend on the value of the rational only. *)
Lemma round_comp (prec emin emax : Z) (a b : Q) :
  (1 <= prec)%Z -> a == b -> round prec emin emax a = round prec emin emax b.
Proof.
  intros Hp E. unfold round. cbv zeta.
  pose proof (rnd_comp prec emin Hp a b E) as Er.
  assert (E1 : Qle_bool (pow2 emax) (Qabs (rnd prec emin a))
               = Qle_bool (pow2 emax) (Qabs (rnd prec emin b))).
  { destruct (Qle_bool (pow2 emax) (Qabs (rnd prec emin a))) eqn:Ea;
    destruct (Qle_bool (pow2 emax) (Qabs (rnd prec emin b))) eqn:Eb;
      try reflexivity.
    - apply Qle_bool_iff in Ea. rewrite Er in Ea.
      apply Qle_bool_iff in Ea. congruence.
    - apply Qle_bool_iff in Eb. rewrite <- Er in Eb.
      apply Qle_bool_iff in Eb. congruence. }
  assert (E2 : Qlt_bool (rnd prec emin a) 0 = Qlt_bool (rnd prec emin b) 0).
  { destruct (Qlt_bool (rnd prec emin a) 0) eqn:Ea;
    destruct (Qlt_bool (rnd prec emin b) 0) eqn:Eb; try reflexivity.
    - apply Qlt_bool_iff in Ea. apply Qlt_bool_false in Eb. lra.
    - apply Qlt_bool_iff in Eb. apply Qlt_bool_false in Ea. lra. }
  rewrite E1, E2.
  destruct (Qle_bool (pow2 emax) (Qabs (rnd prec emin b))); [reflexivity|].
  f_equal. apply Qred_complete, Er.
Qed.

(** A double that is not negative, from a rational that is not negative. *)
Lemma round_nonneg (prec emin emax : Z) (q r : Q) :
  (1 <= prec)%Z -> 0 <= q -> round prec emin emax q = XFin r -> 0 <= r.
Proof.
  intros Hp Hq H. destruct (round_fin _ _ _ _ _ H) as [E _].
  rewrite E. change 0 with (rnd prec emin 0). apply rnd_mono; assumption.
Qed.

(** Finite results are ordered as their arguments. *)
Lemma round_mono (prec emin emax : Z) (a b ra rb : Q) :
  (1 <= prec)%Z -> a <= b ->
  round prec emin emax a = XFin ra -> round prec emin emax b = XFin rb ->
  ra <= rb.
Proof.
  intros Hp Hab Ha Hb.
  destruct (round_fin _ _ _ _ _ Ha) as [Ea _].
  destruct (round_fin _ _ _ _ _ Hb) as [Eb _].
  rewrite Ea, Eb. apply rnd_mono; assumption.
Qed.

(** A finite result is a fixed point of the rounding. *)
Lemma round_idem (prec emin emax : Z) (q r : Q) :
  (1 <= prec)%Z -> round prec emin emax q = XFin r -> rnd prec emin r == r.
Proof.
  intros Hp H. destruct (round_fin _ _ _ _ _ H) as [E _].
  pose proof (rnd_comp prec emin Hp _ _ E) as E2.
  rewrite E2, E. apply rnd_idem, Hp.
Qed.

(** Rounding commutes with Python's [max]: comparing the rationals that
    carry two floats picks the float that comparing the floats picks. *)
Lemma round_py_max (prec emin emax : Z) (a b : Q) :
  (1 <= prec)%Z ->
  round prec emin emax (py_max a b)
  = xmax (round prec emin emax a) (round prec emin emax b).
Proof.
  intros Hp. pose proof (pow2_pos emax) as Hpow.
  unfold py_max, xmax.
  destruct (Qlt_bool a b) eqn:Hab.
  - apply Qlt_bool_iff in Hab.
    pose proof (rnd_mono prec emin Hp a b (Qlt_le_weak _ _ Hab)) as Hm.
    destruct (round_cases prec emin emax a) as [[Ea Ba] | [[Ea Ba] | [Ea Ba]]];
    destruct (round_cases prec emin emax b) as [[Eb Bb] | [[Eb Bb] | [Eb Bb]]];
      rewrite Ea, Eb; cbn [xlt_bool negb andb];
      try reflexivity;
      try (apply Qabs_lt_iff in Ba); try (apply Qabs_lt_iff in Bb);
      try (exfalso; lra).
    destruct (Qlt_bool (Qred (rnd prec emin a)) (Qred (rnd prec emin b))) eqn:C;
      [reflexivity|].
    apply Qlt_bool_false in C. rewrite !Qred_correct in C.
    f_equal. apply Qred_complete. lra.
  - apply Qlt_bool_false in Hab.
    pose proof (rnd_mono prec emin Hp b a Hab) as Hm.
    destruct (round_cases prec emin emax a) as [[Ea Ba] | [[Ea Ba] | [Ea Ba]]];
    destruct (round_cases prec emin emax b) as [[Eb Bb] | [[Eb Bb] | [Eb Bb]]];
      rewrite Ea, Eb; cbn [xlt_bool negb andb];
      try reflexivity;
      try (apply Qabs_lt_iff in Ba); try (apply Qabs_lt_iff in Bb);
      try (exfalso; lra).
    destruct (Qlt_bool (Qred (rnd prec emin a)) (Qred (rnd prec emin b))) eqn:C;
      [|reflexivity].
    apply Qlt_bool_iff in C. rewrite !Qred_correct in C. exfalso. lra.
Qed.

Lemma x64_py_max (a b : Q) : x64 (py_max a b) = xmax (x64 a) (x64 b).
Proof. apply round_py_max. lia. Qed.

(** And with Python's [min]. *)
Lemma round_py_min (prec emin emax : Z) (a b : Q) :
  (1 <= prec)%Z ->
  round prec emin emax (py_min a b)
  = xmin (round prec emin emax a) (round prec emin emax b).
Proof.
  intros Hp. pose proof (pow2_pos emax) as Hpow.
  unfold py_min, xmin.
  destruct (Qlt_bool b a) eqn:Hab.
  - apply Qlt_bool_iff in Hab.
    pose proof (rnd_mono prec emin Hp b a (Qlt_le_weak _ _ Hab)) as Hm.
    destruct (round_cases prec emin emax a) as [[Ea Ba] | [[Ea Ba] | [Ea Ba]]];
    destruct (round_cases prec emin emax b) as [[Eb Bb] | [[Eb Bb] | [Eb Bb]]];
      rewrite Ea, Eb; cbn [xlt_bool negb andb];
      try reflexivity;
      try (apply Qabs_lt_iff in Ba); try (apply Qabs_lt_iff in Bb);
      try (exfalso; lra).
    destruct (Qlt_bool (Qred (rnd prec emin b)) (Qred (rnd prec emin a))) eqn:C;
      [reflexivity|].
    apply Qlt_bool_false in C. rewrite !Qred_correct in C.
    f_equal. apply Qred_complete. lra.
  - apply Qlt_bool_false in Hab.
    pose proof (rnd_mono prec emin Hp a b Hab) as Hm.
    destruct (round_cases prec emin emax a) as [[Ea Ba] | [[Ea Ba] | [Ea Ba]]];
    destruct (round_cases prec emin emax b) as [[Eb Bb] | [[Eb Bb] | [Eb Bb]]];
      rewrite Ea, Eb; cbn [xlt_bool negb andb];
      try reflexivity;
      try (apply Qabs_lt_iff in Ba); try (apply Qabs_lt_iff in Bb);
      try (exfalso; lra).
    destruct (Qlt_bool (Qred (rnd prec emin b)) (Qred (rnd prec emin a))) eqn:C;
      [|reflexivity].
    apply Qlt_bool_iff in C. rewrite !Qred_correct in C. exfalso. lra.
Qed.

Lemma x64_py_min (a b : Q) : x64 (py_min a b) = xmin (x64 a) (x64 b).
Proof. apply round_py_min. lia. Qed.

(** The clamps of [apply_params], taken on the carriers, are the clamps of
    the doubles. *)
Lemma x64_clamps (v t : Q) :
  x64 (py_max 0 (py_min 1 v)) = xmax (x64 0) (xmin (x64 1) (x64 v)) /\
  x64 (py_max (1 # 10) t) = xmax (x64 (1 # 10)) (x64 t).
Proof. rewrite !x64_py_max, x64_py_min. split; reflexivity. Qed.

(** Rounding keeps a magnitude bound, up to the rounding of the bound. *)
Lemma rnd_abs_mono (prec emin : Z) (a b : Q) :
  (1 <= prec)%Z -> - b <= a -> a <= b ->
  - rnd prec emin b <= rnd prec emin a /\ rnd prec emin a <= rnd prec emin b.
Proof.
  intros Hp Hlo Hhi.
  pose proof (rnd_mono prec emin Hp a b Hhi) as Hu.
  pose proof (rnd_mono prec emin Hp (- b) a Hlo) as Hd.
  rewrite (rnd_opp prec emin Hp b) in Hd. split; assumption.
Qed.

Lemma round_fin_intro (prec emin emax : Z) (q : Q) :
  - pow2 emax < rnd prec emin q -> rnd prec emin q < pow2 emax ->
  round prec emin emax q = XFin (Qred (rnd prec emin q)).
Proof.
  intros Hlo Hhi.
  destruct (round_cases prec emin emax q) as [[E _] | [[_ B] | [_ B]]];
    [exact E | exfalso; lra | exfalso; lra].
Qed.

Lemma pow2_above_one (k : Z) : (0 < k)%Z -> 1 < pow2 k.
Proof. intros H. change 1 with (pow2 0). apply pow2_lt, H. Qed.

(** A rational in [0, 1] rounds to a finite value in [0, 1]. *)
Lemma round_unit (prec emin emax : Z) (q : Q) :
  (1 <= prec)%Z -> (0 < emax)%Z -> rnd prec emin 1 == 1 ->
  0 <= q -> q <= 1 ->
  exists r, round prec emin emax q = XFin r /\ 0 <= r /\ r <= 1.
Proof.
  intros Hp He H1 Hq0 Hq1.
  pose proof (pow2_above_one emax He) as Hpow.
  pose proof (rnd_mono prec emin Hp 0 q Hq0) as Hlo. rewrite rnd_zero in Hlo.
  pose proof (rnd_mono prec emin Hp q 1 Hq1) as Hhi. rewrite H1 in Hhi.
  exists (Qred (rnd prec emin q)).
  split; [apply round_fin_intro; lra|].
  rewrite Qred_correct. split; assumption.
Qed.

(** The sine of the examples returns NaN or a value in [-1, 1]. *)
Lemma sin64_range (x : xfloat) :
  match sin64 x with
  | XFin s => - (1) <= s /\ s <= 1
  | XInf _ => False
  | XNaN => True
  end.
Proof.
  destruct x as [q | neg | ]; cbn [sin64]; [|exact I|exact I].
  assert (Hlo : - (1) <= sin_q q) by apply py_max_lower.
  assert (Hhi : sin_q q <= 1).
  { apply py_max_upper; [discriminate | apply py_min_upper]. }
  destruct (rnd_unit 53 (-1074) (sin_q q) ltac:(lia) rnd64_one Hlo Hhi)
    as [H0 H1].
  pose proof (pow2_above_one 1024 ltac:(lia)) as Hp.
  unfold x64. rewrite round_fin_intro by lra.
  rewrite Qred_correct. split; assumption.
Qed.

(** The model computes what the processor computes, on the listed pairs
    and values. *)
#[warnings="-inexact-float"]
Lemma float_ops_agree :
  forallb (fun ab => ops_agree (fst ab) (snd ab)) float_pairs = true /\
  forallb (fun fq => x64_agree (fst fq) (snd fq)) float_values = true /\
  of_prim 3.141592653589793%float = np_pi.
Proof. vm_compute. repeat split; reflexivity. Qed.

End FloatFacts.

(** ** A margin of one sample under rounding *)

Section Margin.

Local Open Scope Q_scope.

Lemma Qfloor_unique (q : Q) (m : Z) :
  inject_Z m <= q -> q < inject_Z m + 1 -> Qfloor q = m.
Proof.
  intros H1 H2.
  pose proof (Qfloor_le q) as G1. pose proof (Qlt_floor q) as G2.
  rewrite inject_Z_plus in G2. change (inject_Z 1) with 1 in G2.
  assert (A : inject_Z m < inject_Z (Qfloor q) + 1) by lra.
  assert (B : inject_Z (Qfloor q) < inject_Z m + 1) by lra.
  change 1 with (inject_Z 1) in A, B. rewrite <- inject_Z_plus in A, B.
  rewrite <- Zlt_Qlt in A, B. lia.
Qed.

(** Shifting by an even integer shifts the nearest integer. *)
Lemma rhe_add_even (t : Q) (n : Z) :
  Z.even n = true -> rhe (t + inject_Z n) = (rhe t + n)%Z.
Proof.
  intros He. unfold rhe. cbv zeta.
  pose proof (Qfloor_le t) as G1. pose proof (Qlt_floor t) as G2.
  rewrite inject_Z_plus in G2. change (inject_Z 1) with 1 in G2.
  assert (Ef : Qfloor (t + inject_Z n) = (Qfloor t + n)%Z).
  { apply Qfloor_unique; rewrite inject_Z_plus; lra. }
  rewrite Ef.
  assert (Ec : t + inject_Z n - inject_Z (Qfloor t + n)
               == t - inject_Z (Qfloor t)).
  { rewrite inject_Z_plus. ring. }
  rewrite (Qcompare_comp _ _ Ec (1 # 2) (1 # 2) (Qeq_refl _)).
  rewrite Z.even_add, He.
  destruct (Qcompare (t - inject_Z (Qfloor t)) (1 # 2)); try lia.
  destruct (Z.even (Qfloor t)); cbn; lia.
Qed.

(** A rational within a quarter below an integer rounds to it or above. *)
Lemma rhe_below_int (K : Z) (t : Q) :
  inject_Z K - (1 # 4) <= t -> (K <= rhe t)%Z.
Proof.
  intros H.
  assert (E : rhe (inject_Z K - (1 # 4)) = K).
  { unfold rhe. cbv zeta.
    assert (Ef : Qfloor (inject_Z K - (1 # 4)) = (K - 1)%Z).
    { replace (K - 1)%Z with (K + -1)%Z by lia.
      apply Qfloor_unique; rewrite inject_Z_plus;
        change (inject_Z (-1)) with (- (1)); lra. }
    rewrite Ef.
    assert (Ec : Qcompare (inject_Z K - (1 # 4) - inject_Z (K - 1)) (1 # 2) = Gt).
    { apply Qgt_alt. replace (K - 1)%Z with (K + -1)%Z by lia.
      rewrite inject_Z_plus. change (inject_Z (-1)) with (- (1)). lra. }
    rewrite Ec. lia. }
  rewrite <- E. apply rhe_mono, H.
Qed.


Lemma ulp_exp_mono (prec emin : Z) (x y : Q) :
  0 < x -> x <= y -> (ulp_exp prec emin x <= ulp_exp prec emin y)%Z.
Proof.
  intros H0 H1. unfold ulp_exp. pose proof (ilog2_mono x y H0 H1). lia.
Qed.

Lemma ulp_exp_small (y : Q) :
  0 < y -> y < pow2 52 -> (ulp_exp 53 (-1074) y <= -1)%Z.
Proof.
  intros Hy Hb. unfold ulp_exp. destruct (ilog2_spec y Hy) as [H1 _].
  assert (ilog2 y < 52)%Z.
  { destruct (Z.lt_ge_cases (ilog2 y) 52) as [|H]; [assumption|].
    pose proof (pow2_le 52 (ilog2 y) H). lra. }
  lia.
Qed.

Lemma pow2_inv_int (e : Z) (q : Q) :
  (e <= 0)%Z -> q / pow2 e == q * inject_Z (2 ^ (- e)).
Proof.
  intros He. rewrite <- (pow2_Z (- e)) by lia.
  pose proof (pow2_div 0 e) as A. change (pow2 0) with 1 in A.
  replace (0 - e)%Z with (- e)%Z in A by lia.
  rewrite <- A. unfold Qdiv. ring.
Qed.

(** Below 2^52 a margin of one survives the rounding to binary64: the
    integer parts of the rounded values still differ. *)
Lemma margin_kept (x y : Q) :
  0 <= x -> x + 1 <= y -> y < pow2 52 ->
  (Qfloor (rnd 53 (-1074) x) < Qfloor (rnd 53 (-1074) y))%Z.
Proof.
  intros Hx Hxy Hy.
  assert (Hy0 : 0 < y) by lra.
  destruct (rnd_cases 53 (-1074) y) as [[_ Ey] | [[F _] | [F _]]];
    try (exfalso; lra).
  set (ey := ulp_exp 53 (-1074) y) in *.
  assert (Hey : (ey <= -1)%Z) by (apply ulp_exp_small; assumption).
  set (N := (2 ^ (- ey))%Z).
  assert (HN : Z.even N = true).
  { unfold N. replace (- ey)%Z with (Z.succ (- ey - 1)) by lia.
    rewrite Z.pow_succ_r by lia. rewrite Z.even_mul. reflexivity. }
  assert (HNpos : 0 < inject_Z N).
  { change 0 with (inject_Z 0). rewrite <- Zlt_Qlt. unfold N.
    apply Z.pow_pos_nonneg; lia. }
  assert (Hscale : forall q, q / pow2 ey == q * inject_Z N)
    by (intros q; apply pow2_inv_int; lia).
  pose proof (pow2_pos ey) as Hpey.
  assert (Hone : pow2 ey * inject_Z N == 1).
  { rewrite <- Hscale. field. lra. }
  assert (Hkey : forall k : Z,
             inject_Z k <= rnd 53 (-1074) x ->
             (k * N <= rhe (x / pow2 ey))%Z).
  { intros k Hk.
    destruct (rnd_cases 53 (-1074) x)
      as [[Hpos Ex] | [[F _] | [Hz Ex]]]; try (exfalso; lra).
    - rewrite Ex in Hk. unfold rnd_pos in Hk.
      set (ex := ulp_exp 53 (-1074) x) in *.
      assert (Hex : (ex <= ey)%Z) by (apply ulp_exp_mono; [assumption | lra]).
      pose proof (pow2_pos ex) as Hpex.
      destruct (Z.eq_dec ex ey) as [E | NE].
      + rewrite E in Hk. rewrite Zle_Qle, inject_Z_mult.
        set (r := inject_Z (rhe (x / pow2 ey))) in *.
        assert (E1 : r == r * pow2 ey * inject_Z N).
        { rewrite <- Qmult_assoc, Hone. ring. }
        rewrite E1. apply Qmult_le_compat_r; [exact Hk | lra].
      + apply rhe_below_int. rewrite inject_Z_mult, Hscale.
        destruct (rhe_near (x / pow2 ex)) as [Hn _].
        set (r := inject_Z (rhe (x / pow2 ex))) in *.
        assert (Ex' : x == x / pow2 ex * pow2 ex) by (field; lra).
        assert (Hx1 : (r - (1 # 2)) * pow2 ex <= x).
        { apply Qle_trans with (x / pow2 ex * pow2 ex);
            [apply Qmult_le_compat_r; lra | rewrite <- Ex'; apply Qle_refl]. }
        assert (Hq : pow2 ex * inject_Z N <= 1 # 2).
        { rewrite <- Hscale, pow2_div.
          change (1 # 2) with (pow2 (-1)). apply pow2_le. lia. }
        assert (Hx2 : inject_Z k - (1 # 2) * pow2 ex <= x) by lra.
        assert (Hx3 : (inject_Z k - (1 # 2) * pow2 ex) * inject_Z N
                      <= x * inject_Z N)
          by (apply Qmult_le_compat_r; lra).
        lra.
    - rewrite Ex in Hk.
      assert (E0 : x / pow2 ey == inject_Z 0).
      { rewrite Hz. unfold Qdiv. ring. }
      rewrite (rhe_comp _ _ E0), rhe_Z.
      change 0 with (inject_Z 0) in Hk. rewrite <- Zle_Qle in Hk.
      assert (0 < N)%Z by (unfold N; apply Z.pow_pos_nonneg; lia).
      nia. }
  set (k := Qfloor (rnd 53 (-1074) x)).
  pose proof (Hkey k (Qfloor_le _)) as H1.
  assert (H2 : x / pow2 ey + inject_Z N <= y / pow2 ey).
  { rewrite !Hscale.
    assert ((x + 1) * inject_Z N <= y * inject_Z N)
      by (apply Qmult_le_compat_r; lra).
    lra. }
  pose proof (rhe_mono _ _ H2) as H3. rewrite (rhe_add_even _ _ HN) in H3.
  assert (H4 : inject_Z (k + 1) <= rnd 53 (-1074) y).
  { rewrite Ey. unfold rnd_pos. fold ey.
    assert (Hz : ((k + 1) * N <= rhe (y / pow2 ey))%Z) by lia.
    rewrite Zle_Qle, inject_Z_mult in Hz.
    set (r := inject_Z (rhe (y / pow2 ey))) in *.
    assert (E1 : inject_Z (k + 1)
                 == inject_Z (k + 1) * inject_Z N * pow2 ey).
    { rewrite <- Qmult_assoc, (Qmult_comm (inject_Z N)), Hone. ring. }
    rewrite E1. apply Qmult_le_compat_r; lra. }
  pose proof (Qfloor_resp_le _ _ H4) as H5. rewrite Qfloor_Z in H5.
  fold k. lia.
Qed.

End Margin.

(** ** [apply_params] *)

Section ApplyParams.

Variable str_float : string -> option Q.

Ltac run_apply :=
  unfold apply_params, apply_accepted, apply_params_m, apply_params_body,
    try_except_ValueError, bind, entry_float, modify, ret, raise.

(** All four entries read: every field is written, then the file. *)
Lemma apply_params_all_numeric (e : Entries) (w : World) (f v p c : Q) :
  str_float (freq_ent e) = Some f ->
  str_float (vol_ent e) = Some v ->
  str_float (play_ent e) = Some p ->
  str_float (cycle_ent e) = Some c ->
  apply_accepted str_float e w = true /\
  apply_params str_float e w =
    save_params
      (with_params
         (mkParams f (py_max 0 (py_min 1 v)) (py_max (1 # 10) p)
                   (py_max (1 # 10) c)) w).
Proof.
  intros Hf Hv Hp Hc. run_apply.
  rewrite Hf; cbn. rewrite Hv; cbn. rewrite Hp; cbn. rewrite Hc; cbn.
  split; reflexivity.
Qed.

(** The update is accepted exactly when the four entries are numeric. *)
Lemma apply_accepted_iff (e : Entries) (w : World) :
  apply_accepted str_float e w = true <->
  exists f v p c,
    str_float (freq_ent e) = Some f /\ str_float (vol_ent e) = Some v /\
    str_float (play_ent e) = Some p /\ str_float (cycle_ent e) = Some c.
Proof.
  split.
  - run_apply.
    destruct (str_float (freq_ent e)) as [f|] eqn:Hf; cbn; [|discriminate].
    destruct (str_float (vol_ent e)) as [v|] eqn:Hv; cbn; [|discriminate].
    destruct (str_float (play_ent e)) as [p|] eqn:Hp; cbn; [|discriminate].
    destruct (str_float (cycle_ent e)) as [c|] eqn:Hc; cbn; [|discriminate].
    intros _. exists f, v, p, c. auto.
  - intros (f & v & p & c & Hf & Hv & Hp & Hc).
    exact (proj1 (apply_params_all_numeric e w f v p c Hf Hv Hp Hc)).
Qed.

(** A rejected update never reaches [save_params]. *)
Lemma apply_rejected_not_saved (e : Entries) (w : World) :
  apply_accepted str_float e w = false ->
  param_file (apply_params str_float e w) = param_file w.
Proof.
  run_apply.
  destruct (str_float (freq_ent e)); cbn; [|reflexivity].
  destruct (str_float (vol_ent e)); cbn; [|reflexivity].
  destruct (str_float (play_ent e)); cbn; [|reflexivity].
  destruct (str_float (cycle_ent e)); cbn; [|reflexivity].
  discriminate.
Qed.

(** [apply_params] writes [params] and the file, nothing else. *)
Lemma apply_params_frame (e : Entries) (w : World) :
  let w' := apply_params str_float e w in
  samplerate w' = samplerate w /\ stop_evt w' = stop_evt w /\
  thread w' = thread w /\ device w' = device w /\ root w' = root w /\
  tray_icon w' = tray_icon w /\ log w' = log w.
Proof.
  run_apply.
  destruct (str_float (freq_ent e)); cbn; [|repeat split].
  destruct (str_float (vol_ent e)); cbn; [|repeat split].
  destruct (str_float (play_ent e)); cbn; [|repeat split].
  destruct (str_float (cycle_ent e)); cbn; repeat split.
Qed.

Lemma apply_params_max_rows (e : Entries) (w : World) :
  max_rows (apply_params str_float e w) = max_rows w.
Proof.
  run_apply.
  destruct (str_float (freq_ent e)); cbn; [|reflexivity].
  destruct (str_float (vol_ent e)); cbn; [|reflexivity].
  destruct (str_float (play_ent e)); cbn; [|reflexivity].
  destruct (str_float (cycle_ent e)); cbn; reflexivity.
Qed.

(** After an accepted update the three clamped fields are in range. *)
Lemma apply_accepted_ranges (e : Entries) (w : World) :
  apply_accepted str_float e w = true ->
  let p := params (apply_params str_float e w) in
  (0 <= volume p)%Q /\ (volume p <= 1)%Q /\
  (1 # 10 <= play_sec p)%Q /\ (1 # 10 <= cycle_sec p)%Q.
Proof.
  intros H. apply apply_accepted_iff in H.
  destruct H as (f & v & p & c & Hf & Hv & Hp & Hc).
  destruct (apply_params_all_numeric e w f v p c Hf Hv Hp Hc) as [_ ->].
  cbn. pose proof (volume_clamp_range v) as [? ?].
  repeat split; auto using py_max_lower.
Qed.

End ApplyParams.

(** ** Claims on parameter updates *)

(** C3, as amended.  After every accepted [apply_params] both durations are
    at least 0.1, each clamped on its own: the write compares neither with
    the other. *)
Theorem apply_params_clamps_each_duration
  (str_float : string -> option Q) (e : Entries) (w : World) :
  apply_accepted str_float e w = true ->
  (1 # 10 <= play_sec (params (apply_params str_float e w)))%Q /\
  (1 # 10 <= cycle_sec (params (apply_params str_float e w)))%Q.
Proof.
  intros H.
  destruct (apply_accepted_ranges str_float e w H) as (_ & _ & Hp & Hc).
  split; assumption.
Qed.

Lemma apply_params_clamps_each_duration_witness :
  (1 # 10 <= play_sec (params (apply_params decimal_float
                                 (mkEntries "440" "0.5" "0.05" "60") world0)))%Q /\
  (1 # 10 <= cycle_sec (params (apply_params decimal_float
                                  (mkEntries "440" "0.5" "0.05" "60") world0)))%Q.
Proof.
  apply (apply_params_clamps_each_duration decimal_float
           (mkEntries "440" "0.5" "0.05" "60") world0).
  vm_compute. reflexivity.
Defined.

(** C3, counterexample.  A play time of 10 s with a cycle of 1 s is accepted
    and stored as typed, so [cycle_sec < play_sec] afterwards; [load_params]
    returns such a file unchanged; and the thread started on it sees the
    pair and ends in [np.zeros] with a negative dimension. *)
Lemma cycle_shorter_than_play_is_accepted :
  apply_accepted decimal_float (mkEntries "440" "0.5" "10" "1") world0 = true /\
  play_sec (params (apply_params decimal_float
                      (mkEntries "440" "0.5" "10" "1") world0)) = 10%Q /\
  cycle_sec (params (apply_params decimal_float
                       (mkEntries "440" "0.5" "10" "1") world0)) = 1%Q /\
  load_params decimal_float
    (FileJSON (JObject [("play_sec"%string, JNumber 10);
                        ("cycle_sec"%string, JNumber 1)]))
    = inr (mkParams 440 (1 # 1000) 10 1) /\
  thread (thread_step (start (apply_params decimal_float
                                (mkEntries "440" "0.5" "10" "1") world0)))
    = Some (PcCrashed ValueError).
Proof. vm_compute. repeat split; reflexivity. Qed.

(** C6, as amended.  An update is rejected exactly when an entry is not
    numeric, and a rejected update is never saved.  An update with four
    numeric entries is accepted whatever their size: the volume is clamped
    into [0, 1] (a volume already there is kept), both durations are raised
    to at least 0.1, the frequency is stored as entered, and the result is
    what the file holds afterwards. *)
Theorem apply_params_validation
  (str_float : string -> option Q) (e : Entries) (w : World) :
  let w' := apply_params str_float e w in
  (apply_accepted str_float e w = true <->
   exists f v p c,
     str_float (freq_ent e) = Some f /\ str_float (vol_ent e) = Some v /\
     str_float (play_ent e) = Some p /\ str_float (cycle_ent e) = Some c) /\
  (apply_accepted str_float e w = false -> param_file w' = param_file w) /\
  (forall f v p c,
     str_float (freq_ent e) = Some f -> str_float (vol_ent e) = Some v ->
     str_float (play_ent e) = Some p -> str_float (cycle_ent e) = Some c ->
     frequency (params w') = f /\
     (0 <= volume (params w') <= 1)%Q /\
     ((0 <= v <= 1)%Q -> (volume (params w') == v)%Q) /\
     (1 # 10 <= play_sec (params w'))%Q /\
     ((1 # 10 <= p)%Q -> (play_sec (params w') == p)%Q) /\
     (1 # 10 <= cycle_sec (params w'))%Q /\
     ((1 # 10 <= c)%Q -> (cycle_sec (params w') == c)%Q) /\
     param_file w' = FileJSON (dump_params (params w'))).
Proof.
  cbv zeta. split; [apply apply_accepted_iff|].
  split; [apply apply_rejected_not_saved|].
  intros f v p c Hf Hv Hp Hc.
  destruct (apply_params_all_numeric str_float e w f v p c Hf Hv Hp Hc)
    as [_ ->].
  cbn. pose proof (volume_clamp_range v) as [Hlo Hhi].
  split; [reflexivity|].
  split; [split; assumption|].
  split; [intros [? ?]; apply volume_clamp_keeps; assumption|].
  split; [apply py_max_lower|].
  split; [apply py_max_keeps|].
  split; [apply py_max_lower|].
  split; [apply py_max_keeps|reflexivity].
Qed.

Lemma apply_params_validation_witness :
  apply_accepted decimal_float (mkEntries "440" "0.001" "1" "60") world0 = true /\
  params (apply_params decimal_float (mkEntries "440" "0.001" "1" "60") world0)
    = mkParams 440 (1 # 1000) 1 60 /\
  param_file (apply_params decimal_float (mkEntries "440" "volume" "1" "60") world0)
    = FileAbsent.
Proof.
  pose proof (apply_params_validation decimal_float
                (mkEntries "440" "0.001" "1" "60") world0) as Hok.
  pose proof (apply_params_validation decimal_float
                (mkEntries "440" "volume" "1" "60") world0) as Hbad.
  cbv zeta in Hok, Hbad.
  destruct Hok as (Hiff & _ & _). destruct Hbad as (_ & Hkeep & _).
  split.
  - apply Hiff. exists 440%Q, (1 # 1000)%Q, 1%Q, 60%Q.
    repeat split; reflexivity.
  - split; [reflexivity|].
    rewrite Hkeep; reflexivity.
Defined.

(** C6, counterexample.  The amplitude 1.5 is not rejected: the update is
    accepted and the volume becomes 1, replacing the prior 0.001.  And an
    update rejected at its second entry has already replaced the frequency. *)
Lemma amplitude_above_one_is_clamped_not_rejected :
  apply_accepted decimal_float (mkEntries "440" "1.5" "1" "60") world0 = true /\
  volume (params world0) = (1 # 1000)%Q /\
  volume (params (apply_params decimal_float
                    (mkEntries "440" "1.5" "1" "60") world0)) = 1%Q /\
  apply_accepted decimal_float (mkEntries "500" "abc" "2" "10") world0 = false /\
  params (apply_params decimal_float (mkEntries "500" "abc" "2" "10") world0)
    = mkParams 500 (1 # 1000) 1 60.
Proof. vm_compute. repeat split; reflexivity. Qed.

(** ** The thread after [stop] *)

Ltac step_cases w :=
  unfold thread_step, update_status, update_tray_tooltip;
  destruct (thread w) as [[ | L | L | L sig | L | L | L | L | L [|k] | | | e]|]
    eqn:Hthread;
  cbn; rewrite ?Hthread; cbn;
  try (destruct (run_setup w); cbn);
  try (destruct (run_gen _ w); cbn);
  try (destruct (idle_count (params w)); cbn);
  try (destruct (root w); cbn);
  try (destruct (tray_icon w); cbn).

Lemma is_alive_rank (w : World) : is_alive w = false <-> rank w = 0%nat.
Proof.
  unfold is_alive, rank.
  destruct (thread w) as [[]|]; cbn; split; intros; congruence.
Qed.

(** One statement of the thread under a set stop event: the rank drops, the
    event stays, no tick is waited, and a tone or a silence is played only
    if it was due. *)
Lemma thread_step_stopping (w : World) :
  stop_evt w = true ->
  let w' := thread_step w in
  stop_evt w' = true /\
  (rank w' <= rank w - 1)%nat /\
  (plays w' + plays_due w' <= plays w + plays_due w)%nat /\
  (silences w' + silences_due w' <= silences w + silences_due w)%nat /\
  ticks w' = ticks w.
Proof.
  intros Hs. unfold rank, plays, silences, ticks, plays_due, silences_due.
  step_cases w; rewrite ?Hs; cbn; repeat split; (assumption || lia).
Qed.

Section AfterStop.

Variable str_float : string -> option Q.

(** Any action other than a start, under a set stop event. *)
Lemma act_stopping (a : Action) (w : World) :
  may_start a = false ->
  stop_evt w = true ->
  let w' := act str_float a w in
  stop_evt w' = true /\
  (rank w' <= rank w - (if is_thread_action a then 1 else 0))%nat /\
  (plays w' + plays_due w' <= plays w + plays_due w)%nat /\
  (silences w' + silences_due w' <= silences w + silences_due w)%nat /\
  ticks w' = ticks w.
Proof.
  intros Ha Hs. destruct a as [ | | | e | ]; try discriminate; cbn.
  - (* stop *)
    unfold rank, plays, silences, ticks, plays_due, silences_due; cbn.
    repeat split; lia.
  - (* apply_params *)
    destruct (apply_params_frame str_float e w)
      as (_ & Hst & Hth & _ & _ & _ & Hlog).
    unfold rank, plays, silences, ticks, plays_due, silences_due.
    rewrite Hst, Hth, Hlog. repeat split; (assumption || lia).
  - (* one statement of the thread *)
    apply thread_step_stopping, Hs.
Qed.

(** A run with no start, from a state whose stop event is set. *)
Lemma exec_stopping (l : list Action) (w : World) :
  no_start l = true ->
  stop_evt w = true ->
  let w' := exec str_float l w in
  stop_evt w' = true /\
  (rank w' <= rank w - thread_turns l)%nat /\
  (plays w' + plays_due w' <= plays w + plays_due w)%nat /\
  (silences w' + silences_due w' <= silences w + silences_due w)%nat /\
  ticks w' = ticks w.
Proof.
  revert w. induction l as [|a l IH]; intros w Hl Hs; cbn.
  - repeat split; (assumption || lia).
  - cbn in Hl. apply andb_true_iff in Hl. destruct Hl as [Ha Hl].
    apply negb_true_iff in Ha.
    destruct (act_stopping a w Ha Hs) as (Hs1 & Hr1 & Hp1 & Hq1 & Ht1).
    destruct (IH (act str_float a w) Hl Hs1) as (Hs2 & Hr2 & Hp2 & Hq2 & Ht2).
    unfold thread_turns in *. cbn.
    destruct (is_thread_action a); cbn;
      repeat split; (assumption || lia).
Qed.

End AfterStop.

Lemma rank_le_9 (w : World) : (rank w <= 9)%nat.
Proof. unfold rank. destruct (thread w) as [[]|]; cbn; lia. Qed.

Lemma plays_due_le_1 (w : World) : (plays_due w <= 1)%nat.
Proof. unfold plays_due. destruct (thread w) as [[]|]; cbn; lia. Qed.

Lemma silences_due_le_1 (w : World) : (silences_due w <= 1)%nat.
Proof. unfold silences_due. destruct (thread w) as [[]|]; cbn; lia. Qed.

Lemma stop_frame (w : World) :
  stop_evt (stop w) = true /\ thread (stop w) = thread w /\
  log (stop w) = log w /\ params (stop w) = params w /\
  root (stop w) = root w /\ device (stop w) = DevIdle.
Proof. repeat split. Qed.

(** Thread statements alone are a run of [AThread] actions. *)
Lemma thread_steps_exec (sf : string -> option Q) (n : nat) (w : World) :
  thread_steps n w = exec sf (repeat AThread n) w.
Proof. revert w. induction n as [|n IH]; intros w; cbn; auto. Qed.

Lemma repeat_thread_no_start (n : nat) : no_start (repeat AThread n) = true.
Proof. induction n; cbn; auto. Qed.

Lemma repeat_thread_turns (n : nat) : thread_turns (repeat AThread n) = n.
Proof. unfold thread_turns. induction n; cbn; auto. Qed.

(** Nine statements after [stop] the thread has ended. *)
Lemma stopped_after_nine (w : World) :
  is_alive (thread_steps 9 (stop w)) = false.
Proof.
  rewrite (thread_steps_exec (fun _ => None)).
  apply is_alive_rank.
  destruct (exec_stopping (fun _ => None) (repeat AThread 9) (stop w)
              (repeat_thread_no_start 9) eq_refl) as (_ & Hr & _).
  rewrite repeat_thread_turns in Hr.
  pose proof (rank_le_9 (stop w)). lia.
Qed.

(** ** Claims on [start] and [stop] *)

(** C1, as amended.  [stop()] sets the stop event, stops the device and
    returns without waiting for the loop: the thread stands where it stood
    and nothing has been played by the call.  In any run that follows
    without a new start, the event stays set, at most one more tone and at
    most one more silence are handed to the device, no further one-second
    tick is waited, and the thread has ended once it has run nine
    statements. *)
Theorem stop_lets_loop_wind_down
  (str_float : string -> option Q) (w : World) (l : list Action) :
  no_start l = true ->
  let w' := exec str_float l (stop w) in
  stop_evt (stop w) = true /\
  device (stop w) = DevIdle /\
  thread (stop w) = thread w /\
  log (stop w) = log w /\
  stop_evt w' = true /\
  (plays w' <= plays w + 1)%nat /\
  (silences w' <= silences w + 1)%nat /\
  ticks w' = ticks w /\
  ((9 <= thread_turns l)%nat -> is_alive w' = false).
Proof.
  intros Hl.
  destruct (exec_stopping str_float l (stop w) Hl eq_refl)
    as (Hs & Hr & Hp & Hq & Ht).
  pose proof (plays_due_le_1 (stop w)) as Hp1.
  pose proof (silences_due_le_1 (stop w)) as Hq1.
  pose proof (rank_le_9 (stop w)) as Hr9.
  cbv zeta.
  split; [reflexivity|]. split; [reflexivity|].
  split; [reflexivity|]. split; [reflexivity|].
  repeat split.
  - exact Hs.
  - change (plays (stop w)) with (plays w) in Hp. lia.
  - change (silences (stop w)) with (silences w) in Hq. lia.
  - exact Ht.
  - intros H9. apply is_alive_rank. lia.
Qed.

Lemma stop_lets_loop_wind_down_witness :
  stop_evt (stop world_gen) = true /\
  device (stop world_gen) = DevIdle /\
  thread (stop world_gen) = thread world_gen /\
  log (stop world_gen) = log world_gen /\
  stop_evt (exec decimal_float
              [AThread; AApply (mkEntries "880" "0.5" "2" "10"); AThread;
               AThread; AStop; AThread; AThread; AThread; AThread; AThread;
               AThread; AThread]
              (stop world_gen)) = true /\
  (plays (exec decimal_float
            [AThread; AApply (mkEntries "880" "0.5" "2" "10"); AThread;
             AThread; AStop; AThread; AThread; AThread; AThread; AThread;
             AThread; AThread]
            (stop world_gen)) <= plays world_gen + 1)%nat /\
  (silences (exec decimal_float
               [AThread; AApply (mkEntries "880" "0.5" "2" "10"); AThread;
                AThread; AStop; AThread; AThread; AThread; AThread; AThread;
                AThread; AThread]
               (stop world_gen)) <= silences world_gen + 1)%nat /\
  ticks (exec decimal_float
           [AThread; AApply (mkEntries "880" "0.5" "2" "10"); AThread;
            AThread; AStop; AThread; AThread; AThread; AThread; AThread;
            AThread; AThread]
           (stop world_gen)) = ticks world_gen /\
  ((9 <= thread_turns
           [AThread; AApply (mkEntries "880" "0.5" "2" "10"); AThread;
            AThread; AStop; AThread; AThread; AThread; AThread; AThread;
            AThread; AThread])%nat ->
   is_alive (exec decimal_float
               [AThread; AApply (mkEntries "880" "0.5" "2" "10"); AThread;
                AThread; AStop; AThread; AThread; AThread; AThread; AThread;
                AThread; AThread]
               (stop world_gen)) = false).
Proof.
  exact (stop_lets_loop_wind_down decimal_float world_gen
           [AThread; AApply (mkEntries "880" "0.5" "2" "10"); AThread;
            AThread; AStop; AThread; AThread; AThread; AThread; AThread;
            AThread; AThread] eq_refl).
Defined.

(** C1, counterexample.  The loop is running and has passed its test when
    [stop()] is called: when [stop()] returns the thread is still alive, and
    its next five statements hand one tone and one silence to the device,
    which [stop()] had left idle. *)
Lemma stop_returns_before_loop_ends :
  is_alive world_gen = true /\
  is_alive (stop world_gen) = true /\
  device (stop world_gen) = DevIdle /\
  plays (thread_steps 5 (stop world_gen)) = S (plays (stop world_gen)) /\
  silences (thread_steps 5 (stop world_gen)) = S (silences (stop world_gen)) /\
  device (thread_steps 5 (stop world_gen)) = DevSilence (2646000 - 44100).
Proof. vm_compute. repeat split; reflexivity. Qed.

(** C7, as amended.  [start()] on a running player changes nothing, so two
    calls in a row leave the one thread the first call created, and it is
    alive.  [stop()] twice is [stop()] once, with no error; a player that is
    not running is stopped after each call, and a running loop has ended,
    after one call or two, once its thread has run nine statements. *)
Theorem start_and_stop_idempotent (w : World) :
  (is_alive w = true -> start w = w) /\
  start (start w) = start w /\
  is_alive (start (start w)) = true /\
  stop (stop w) = stop w /\
  is_alive (thread_steps 9 (stop w)) = false /\
  is_alive (thread_steps 9 (stop (stop w))) = false /\
  (is_alive w = false ->
   is_alive (stop w) = false /\ is_alive (stop (stop w)) = false).
Proof.
  assert (Hrun : is_alive w = true -> start w = w).
  { intros H. unfold start. rewrite H. reflexivity. }
  assert (Hlive : is_alive (start w) = true).
  { unfold start. destruct (is_alive w) eqn:E; [exact E | reflexivity]. }
  split; [exact Hrun|].
  split.
  { unfold start at 1. rewrite Hlive. reflexivity. }
  split.
  { unfold start at 1. rewrite Hlive. exact Hlive. }
  split; [reflexivity|].
  split; [apply stopped_after_nine|].
  split; [apply stopped_after_nine|].
  intros H. split; exact H.
Qed.

Lemma start_and_stop_idempotent_witness :
  start world_gen = world_gen /\
  start (start world0) = start world0 /\
  is_alive (stop world0) = false.
Proof.
  destruct (start_and_stop_idempotent world_gen) as (Hrun & _).
  destruct (start_and_stop_idempotent world0) as (_ & Htwice & _ & _ & _ & _ & Hoff).
  split; [apply Hrun; reflexivity|].
  split; [exact Htwice|].
  apply Hoff. reflexivity.
Defined.

(** C7, counterexample.  On a running loop that has passed its test, the
    thread is still alive when the first [stop()] returns and when the
    second returns: neither call yields a stopped loop by itself. *)
Lemma second_stop_finds_loop_alive :
  is_alive world_gen = true /\
  is_alive (stop world_gen) = true /\
  is_alive (stop (stop world_gen)) = true /\
  plays (thread_steps 2 (stop (stop world_gen)))
    = S (plays (stop (stop world_gen))).
Proof. vm_compute. repeat split; reflexivity. Qed.

(** ** The idle wait *)

Section IdleWait.

Variable str_float : string -> option Q.

(** While the thread counts its ticks and the stop event is clear, a run
    made of thread statements and parameter updates waits one tick per
    thread statement; the updates do not touch the count. *)
Lemma ticks_count_down (l : list Action) (w : World) (L : Locals) (k : nat) :
  thread w = Some (PcTicks L k) ->
  stop_evt w = false ->
  only_updates l = true ->
  (thread_turns l <= k)%nat ->
  let w' := exec str_float l w in
  thread w' = Some (PcTicks L (k - thread_turns l)) /\
  stop_evt w' = false /\
  ticks w' = (ticks w + thread_turns l)%nat /\
  plays w' = plays w /\ silences w' = silences w.
Proof.
  revert w k. induction l as [|a l IH]; intros w k Hth Hs Hl Hk; cbn.
  - unfold thread_turns; cbn. rewrite Nat.sub_0_r, Nat.add_0_r. auto.
  - cbn in Hl. apply andb_true_iff in Hl. destruct Hl as [Ha Hl].
    unfold thread_turns in *.
    destruct a as [ | | | e | ]; try discriminate; cbn in *.
    + (* a parameter update *)
      destruct (apply_params_frame str_float e w)
        as (_ & Hst & Hthr & _ & _ & _ & Hlog).
      destruct (IH (apply_params str_float e w) k) as (H1 & H2 & H3 & H4 & H5);
        try congruence; try assumption.
      unfold ticks, plays, silences in *. rewrite Hlog in *. auto.
    + (* one tick *)
      destruct k as [|k]; [lia|].
      assert (Hstep : thread_step w = goto (PcTicks L k) (emit EvTick w)).
      { unfold thread_step. rewrite Hth, Hs. reflexivity. }
      rewrite Hstep.
      destruct (IH (goto (PcTicks L k) (emit EvTick w)) k)
        as (H1 & H2 & H3 & H4 & H5); try reflexivity; try assumption; try lia.
      repeat split; try assumption.
      rewrite H3. unfold ticks; cbn. lia.
Qed.

End IdleWait.

(** [int] of a non-negative float is its integer part. *)
Lemma py_int_bounds (d : Q) :
  (0 <= d)%Q ->
  (inject_Z (py_int d) <= d)%Q /\ (d < inject_Z (py_int d) + 1)%Q /\
  0 <= py_int d.
Proof.
  intros H. rewrite (py_int_floor d H).
  split; [apply Qfloor_le|].
  split.
  - pose proof (Qlt_floor d) as Hlt.
    rewrite inject_Z_plus in Hlt. exact Hlt.
  - change 0 with (Qfloor 0). apply Qfloor_resp_le, H.
Qed.

(** [int] of a float below 1 is not positive: the [range] is empty. *)
Lemma py_int_small (d : Q) : (d < 1)%Q -> py_int d <= 0.
Proof.
  destruct d as [n p]. unfold py_int, Qlt. cbn. intros H.
  destruct (Z.le_gt_cases 0 n) as [Hn|Hn].
  - rewrite Z.quot_small; lia.
  - pose proof (Z.quot_opp_l (- n) (Zpos p) ltac:(lia)) as Hq.
    rewrite Z.opp_involutive in Hq. rewrite Hq.
    pose proof (Z.quot_pos (- n) (Zpos p) ltac:(lia) ltac:(lia)). lia.
Qed.

(** [int] of a finite difference that is not negative is its integer
    part. *)
Lemma idle_count_bounds (p : Params) (n : Z) (D : Q) :
  idle_count p = inr n ->
  xsub (x64 (cycle_sec p)) (x64 (play_sec p)) = XFin D ->
  (0 <= D)%Q ->
  (inject_Z n <= D)%Q /\ (D < inject_Z n + 1)%Q /\ 0 <= n.
Proof.
  unfold idle_count. intros Hn HD Hpos. rewrite HD in Hn. cbn in Hn.
  injection Hn as <-. apply py_int_bounds, Hpos.
Qed.

(** When [int] raises on the difference, the thread ends there. *)
Lemma idle_count_raises (w : World) (L : Locals) (e : exn) :
  thread w = Some (PcRange L) ->
  idle_count (params w) = inl e ->
  thread (thread_step w) = Some (PcCrashed e) /\
  log (thread_step w) = log w /\ stop_evt (thread_step w) = stop_evt w.
Proof.
  intros Hth He. unfold thread_step. rewrite Hth, He. repeat split.
Qed.

(** The idle wait is [int(cycle_sec - play_sec)] waits of one second on the
    stop event, the binary64 difference read once when the wait begins and
    truncated toward zero: parameter updates made during the wait do not
    change the count, and a difference that is not negative is missed by
    less than a second.  Every one of these waits looks at the stop event:
    once it is set the loop leaves the wait with no further tick. *)
Lemma idle_wait_counts_whole_seconds
  (str_float : string -> option Q) (w : World) (L : Locals) (l : list Action)
  (n : Z) :
  thread w = Some (PcRange L) ->
  stop_evt w = false ->
  only_updates l = true ->
  idle_count (params w) = inr n ->
  thread_turns l = Z.to_nat n ->
  let w' := exec str_float (AThread :: l) w in
  thread w' = Some (PcTicks L 0) /\
  thread (thread_step w') = Some (PcLoopHead L) /\
  ticks (thread_step w') = (ticks w + Z.to_nat n)%nat /\
  plays (thread_step w') = plays w /\
  silences (thread_step w') = silences w /\
  (forall D : Q,
     xsub (x64 (cycle_sec (params w))) (x64 (play_sec (params w))) = XFin D ->
     (0 <= D)%Q ->
     (inject_Z (Z.of_nat (Z.to_nat n)) <= D)%Q /\
     (D < inject_Z (Z.of_nat (Z.to_nat n)) + 1)%Q) /\
  (forall (w2 : World) (j : nat),
     thread w2 = Some (PcTicks L j) ->
     stop_evt w2 = true ->
     thread (thread_step w2) = Some (PcLoopHead L) /\
     ticks (thread_step w2) = ticks w2).
Proof.
  intros Hth Hs Hl Hn Hk. cbv zeta.
  set (k := Z.to_nat n) in *.
  assert (Hstep : thread_step w = goto (PcTicks L k) w).
  { unfold thread_step. rewrite Hth, Hn. reflexivity. }
  cbn [exec act]. rewrite Hstep.
  destruct (ticks_count_down str_float l (goto (PcTicks L k) w) L k)
    as (H1 & H2 & H3 & H4 & H5); try reflexivity; try assumption; try lia.
  rewrite Hk, Nat.sub_diag in H1.
  split; [exact H1|].
  assert (Hout : thread_step (exec str_float l (goto (PcTicks L k) w))
                 = goto (PcLoopHead L) (exec str_float l (goto (PcTicks L k) w))).
  { unfold thread_step. rewrite H1. reflexivity. }
  rewrite Hout.
  split; [reflexivity|].
  split; [change (ticks (goto ?p ?x)) with (ticks x); rewrite H3, Hk; reflexivity|].
  split; [change (plays (goto ?p ?x)) with (plays x); rewrite H4; reflexivity|].
  split; [change (silences (goto ?p ?x)) with (silences x); rewrite H5; reflexivity|].
  split.
  { intros D HD Hd. destruct (idle_count_bounds _ _ _ Hn HD Hd) as (Hlo & Hhi & Hnn).
    unfold k. rewrite Z2Nat.id by exact Hnn. split; assumption. }
  intros w2 j Hth2 Hs2. unfold thread_step. rewrite Hth2.
  destruct j; rewrite ?Hs2; split; reflexivity.
Qed.

(** C5.  With a cycle of 5.5 s and a play time of 1 s (both exact in
    binary64, as is their difference 4.5) the silence handed to the device
    is 4.5 s long, but the idle wait is [int(4.5) = 4] waits of one second:
    after the fourth the loop goes round, and three statements later the
    next tone is handed to the device, 4 s after the wait began and 5 s
    after the tone before it. *)
Theorem idle_wait_drops_the_fraction :
  thread world_idle = Some (PcRange (mkLocals 44100 44100 242550)) /\
  device world_idle = DevSilence 198450 /\
  (inject_Z 198450 / inject_Z 44100 == 9 # 2)%Q /\
  xsub (x64 (cycle_sec (params world_idle))) (x64 (play_sec (params world_idle)))
    = XFin (9 # 2) /\
  idle_count (params world_idle) = inr 4 /\
  thread (thread_steps 5 world_idle)
    = Some (PcTicks (mkLocals 44100 44100 242550) 0) /\
  thread (thread_steps 6 world_idle)
    = Some (PcLoopHead (mkLocals 44100 44100 242550)) /\
  ticks (thread_steps 6 world_idle) = (ticks world_idle + 4)%nat /\
  device (thread_steps 9 world_idle) = DevTone (mkTone 44100 (1 # 2) 440 44100) /\
  ticks (thread_steps 9 world_idle) = (ticks world_idle + 4)%nat /\
  plays (thread_steps 9 world_idle) = S (plays world_idle).
Proof. vm_compute. repeat split; reflexivity. Qed.

(** ** The waveform *)

Lemma py_range_length (n : Z) : List.length (py_range n) = Z.to_nat n.
Proof. unfold py_range. rewrite length_map, length_seq. reflexivity. Qed.

Lemma py_range_nth (n : Z) (i : nat) :
  (i < Z.to_nat n)%nat -> nth_error (py_range n) i = Some (Z.of_nat i).
Proof.
  intros H. unfold py_range.
  rewrite nth_error_map, nth_error_seq.
  destruct (Nat.ltb_spec i (Z.to_nat n)); [reflexivity | lia].
Qed.

Lemma waveform_length (t : Tone) :
  List.length (waveform t) = Z.to_nat (tone_len t).
Proof.
  unfold waveform, mono, time_axis.
  rewrite !length_map. apply py_range_length.
Qed.

(** Row [i] of the buffer, as the three vector statements compute it. *)
Lemma waveform_nth (t : Tone) (i : nat) :
  (i < Z.to_nat (tone_len t))%nat ->
  nth_error (waveform t) i =
    Some ((Q2R (tone_vol t)
           * sin (2 * PI * Q2R (tone_freq t)
                  * (IZR (Z.of_nat i) / IZR (tone_fs t))))%R,
          (Q2R (tone_vol t)
           * sin (2 * PI * Q2R (tone_freq t)
                  * (IZR (Z.of_nat i) / IZR (tone_fs t))))%R).
Proof.
  intros H. unfold waveform, mono, time_axis.
  rewrite !nth_error_map, (py_range_nth _ _ H). reflexivity.
Qed.

(** Every row of the ideal waveform holds the same value twice, of size at
    most the volume. *)
Lemma waveform_bounded (t : Tone) :
  (0 <= Q2R (tone_vol t))%R ->
  Forall (fun s : R * R =>
            fst s = snd s /\ (Rabs (fst s) <= Q2R (tone_vol t))%R)
         (waveform t).
Proof.
  intros Hv. unfold waveform, mono.
  rewrite Forall_map, Forall_map. apply Forall_forall. intros x _. cbn.
  split; [reflexivity|].
  rewrite Rabs_mult, (Rabs_right (Q2R (tone_vol t))) by lra.
  pose proof (SIN_bound (2 * PI * Q2R (tone_freq t) * x)) as [Hlo Hhi].
  assert (Hs : (Rabs (sin (2 * PI * Q2R (tone_freq t) * x)) <= 1)%R)
    by (apply Rabs_le; lra).
  nra.
Qed.

Lemma Q2R_unit_range (q : Q) :
  (0 <= q)%Q -> (q <= 1)%Q -> (0 <= Q2R q <= 1)%R.
Proof.
  intros H0 H1. apply Qle_Rle in H0, H1.
  replace (Q2R 0) with 0%R in H0 by (unfold Q2R; cbn; lra).
  replace (Q2R 1) with 1%R in H1 by (unfold Q2R; cbn; lra).
  lra.
Qed.

(** The computed buffer: its length and its rows. *)
Lemma samples32_length (np_sin : xfloat -> xfloat) (t : Tone) :
  List.length (samples32 np_sin t) = Z.to_nat (tone_len t).
Proof. unfold samples32. rewrite length_map. apply py_range_length. Qed.

Lemma samples32_nth (np_sin : xfloat -> xfloat) (t : Tone) (i : nat) :
  (i < Z.to_nat (tone_len t))%nat ->
  nth_error (samples32 np_sin t) i =
    Some (sample32 np_sin t (Z.of_nat i), sample32 np_sin t (Z.of_nat i)).
Proof.
  intros H. unfold samples32.
  rewrite nth_error_map, (py_range_nth _ _ H). reflexivity.
Qed.

Lemma samples32_row (np_sin : xfloat -> xfloat) (t : Tone) (i : Z) :
  0 <= i < tone_len t ->
  nth_error (samples32 np_sin t) (Z.to_nat i) =
    Some (sample32 np_sin t i, sample32 np_sin t i).
Proof.
  intros H. rewrite samples32_nth by (apply Z2Nat.inj_lt; lia).
  rewrite Z2Nat.id by lia. reflexivity.
Qed.

(** When [np.sin] returns NaN or a value in [-1, 1] and the volume is in
    [0, 1], a sample is NaN or at most the volume cast to float32, which is
    itself at most 1. *)
Lemma sample32_bounded (np_sin : xfloat -> xfloat) (t : Tone) (i : Z) :
  (forall x, match np_sin x with
             | XFin s => (- (1) <= s)%Q /\ (s <= 1)%Q
             | XInf _ => False
             | XNaN => True
             end) ->
  (0 <= tone_vol t)%Q -> (tone_vol t <= 1)%Q ->
  exists v32 : Q,
    to32 (x64 (tone_vol t)) = XFin v32 /\ (0 <= v32)%Q /\ (v32 <= 1)%Q /\
    (sample32 np_sin t i = XNaN \/
     exists x : Q, sample32 np_sin t i = XFin x /\ (Qabs x <= v32)%Q).
Proof.
  intros Hsin H0 H1.
  destruct (round_unit 53 (-1074) 1024 (tone_vol t) ltac:(lia) ltac:(lia)
              rnd64_one H0 H1) as (v & Ev & Hv0 & Hv1).
  destruct (round_unit 24 (-149) 128 v ltac:(lia) ltac:(lia)
              rnd32_one Hv0 Hv1) as (v32 & Ev32 & Hw0 & Hw1).
  change (round 53 (-1074) 1024 (tone_vol t)) with (x64 (tone_vol t)) in Ev.
  exists v32. unfold sample32. cbv zeta. rewrite Ev. cbn [to32].
  split; [exact Ev32|]. split; [exact Hw0|]. split; [exact Hw1|].
  set (phase := xmul _ (xdiv _ _)).
  specialize (Hsin phase). destruct (np_sin phase) as [s | neg | ].
  - right. destruct Hsin as [Hs0 Hs1]. cbn [xmul].
    pose proof (round_idem 53 (-1074) 1024 _ _ ltac:(lia) Ev) as Hid.
    assert (Hlo : (- v <= v * s)%Q) by nra.
    assert (Hhi : (v * s <= v)%Q) by nra.
    destruct (rnd_within 53 (-1074) (v * s) v ltac:(lia) Hid Hlo Hhi)
      as [Hm0 Hm1].
    pose proof (pow2_above_one 1024 ltac:(lia)) as Hp64.
    pose proof (pow2_above_one 128 ltac:(lia)) as Hp32.
    unfold x64. rewrite round_fin_intro by lra. cbn [to32].
    set (m := Qred (rnd 53 (-1074) (v * s))).
    assert (Em : (m == rnd 53 (-1074) (v * s))%Q) by apply Qred_correct.
    destruct (round_fin _ _ _ _ _ Ev32) as [E32 _].
    destruct (rnd_abs_mono 24 (-149) m v ltac:(lia)
                ltac:(rewrite Em; exact Hm0) ltac:(rewrite Em; exact Hm1))
      as [Hx0 Hx1].
    rewrite <- E32 in Hx0, Hx1.
    unfold x32. rewrite round_fin_intro by lra.
    eexists. split; [reflexivity|].
    rewrite Qred_correct. apply Qabs_Qle_condition. split; assumption.
  - contradiction.
  - left. reflexivity.
Qed.

(** [thread_step], [start], [stop] and [toggle_play] leave [params], the
    sample rate and the memory limit alone. *)
Lemma thread_step_params (w : World) : params (thread_step w) = params w.
Proof.
  step_cases w; try reflexivity.
  all: try (destruct (stop_evt w); reflexivity).
Qed.

Lemma thread_step_machine (w : World) :
  samplerate (thread_step w) = samplerate w /\
  max_rows (thread_step w) = max_rows w.
Proof.
  step_cases w; try (split; reflexivity).
  all: try (destruct (stop_evt w); split; reflexivity).
Qed.

Lemma control_params (w : World) :
  params (start w) = params w /\ params (stop w) = params w /\
  params (toggle_play w) = params w.
Proof.
  unfold toggle_play, start, stop. destruct (is_alive w); repeat split.
Qed.

Lemma control_machine (w : World) :
  max_rows (start w) = max_rows w /\ max_rows (stop w) = max_rows w /\
  max_rows (toggle_play w) = max_rows w.
Proof.
  unfold toggle_play, start, stop. destruct (is_alive w); repeat split.
Qed.

(** [int(sec * fs)] returns only when the binary64 product is finite, and
    is then its integer part when neither factor is negative. *)
Lemma count_samples_truncates (sec : Q) (rate n : Z) :
  count_samples sec rate = inr n ->
  exists P : Q,
    mul_float_int sec rate = inr (XFin P) /\ n = py_int P /\
    ((0 <= sec)%Q -> 0 <= rate ->
     (inject_Z n <= P)%Q /\ (P < inject_Z n + 1)%Q /\ 0 <= n).
Proof.
  unfold count_samples, mul_float_int, float_of_int. intros H.
  destruct (x64 (inject_Z rate)) as [b | sb | ] eqn:Eb; try discriminate;
    [|exfalso; exact (round_not_nan _ _ _ _ Eb)].
  destruct (x64 sec) as [a | sa | ] eqn:Ea.
  - cbn [xmul] in *.
    destruct (x64 (a * b)) as [P | sp | ] eqn:EP; try discriminate.
    cbn in H. injection H as <-.
    exists P. split; [reflexivity|]. split; [reflexivity|].
    intros Hsec Hrate.
    assert (Ha : (0 <= a)%Q)
      by (eapply (round_nonneg 53 (-1074) 1024); [lia | exact Hsec | exact Ea]).
    assert (Hb : (0 <= b)%Q).
    { eapply (round_nonneg 53 (-1074) 1024); [lia | | exact Eb].
      change 0%Q with (inject_Z 0). rewrite <- Zle_Qle. exact Hrate. }
    assert (HP : (0 <= P)%Q).
    { eapply (round_nonneg 53 (-1074) 1024); [lia | | exact EP].
      apply Qmult_le_0_compat; assumption. }
    apply py_int_bounds, HP.
  - cbn [xmul] in H. destruct (Qeq_bool b 0); cbn in H; discriminate.
  - exfalso. exact (round_not_nan _ _ _ _ Ea).
Qed.

(** When both counts are computed, the silence is not negative and the
    arrays fit, [_run] reaches its loop and builds its tone. *)
Lemma run_setup_ok (w : World) (n c : Z) :
  count_samples (play_sec (params w)) (samplerate w) = inr n ->
  count_samples (cycle_sec (params w)) (samplerate w) = inr c ->
  n <= c -> c - n <= max_rows w -> c - n < 2 ^ 60 ->
  run_setup w = inr (mkLocals (samplerate w) n c).
Proof.
  intros Hn Hc Hle Hrows Hdim. unfold run_setup. cbv zeta.
  rewrite Hn, Hc. unfold np_zeros.
  destruct (Z.ltb_spec (c - n) 0); [lia|].
  destruct (Z.leb_spec (2 ^ 60) (c - n)); [lia|].
  destruct (Z.ltb_spec (max_rows w) (c - n)); [lia|].
  reflexivity.
Qed.

Lemma run_gen_ok (L : Locals) (w : World) :
  play_samples L <= max_rows w -> play_samples L < 2 ^ 60 ->
  run_gen L w = inr (mkTone (play_samples L) (volume (params w))
                            (frequency (params w)) (fs L)).
Proof.
  intros Hrows Hdim. unfold run_gen, np_arange, np_zeros.
  destruct (Z.ltb_spec (play_samples L) 0); [reflexivity|].
  destruct (Z.leb_spec (2 ^ 60) (play_samples L)); [lia|].
  destruct (Z.ltb_spec (max_rows w) (play_samples L)); [lia|].
  reflexivity.
Qed.

(** A tone that [run_gen] returns is the one the parameters describe. *)
Lemma run_gen_tone (L : Locals) (w : World) (sig : Tone) :
  run_gen L w = inr sig ->
  sig = mkTone (play_samples L) (volume (params w))
               (frequency (params w)) (fs L).
Proof.
  unfold run_gen. destruct (np_arange _ _); [discriminate|].
  intros H. injection H as <-. reflexivity.
Qed.

Section Updates.

Variable str_float : string -> option Q.

Lemma exec_no_update_params (l : list Action) (w : World) :
  no_update l = true -> params (exec str_float l w) = params w.
Proof.
  revert w. induction l as [|a l IH]; intros w Hl; cbn; [reflexivity|].
  cbn in Hl. apply andb_true_iff in Hl. destruct Hl as [Ha Hl].
  rewrite (IH _ Hl).
  destruct (control_params w) as (H1 & H2 & H3).
  destruct a; try discriminate; cbn; auto using thread_step_params.
Qed.

Lemma exec_max_rows (l : list Action) (w : World) :
  max_rows (exec str_float l w) = max_rows w.
Proof.
  revert w. induction l as [|a l IH]; intros w; cbn; [reflexivity|].
  rewrite IH.
  destruct (control_machine w) as (H1 & H2 & H3).
  destruct a; cbn; auto using apply_params_max_rows.
  apply thread_step_machine.
Qed.

End Updates.

(** ** Claims on the generated buffer *)

(** C4, as amended.  A thread started on a config with [play_sec >= 0] and
    a positive sample rate, whose two counts are computed, with the play
    count at most the cycle count and the cycle count within what the
    machine allocates, hands to the device a buffer of exactly
    [int(play_sec * samplerate)] stereo rows: the binary64 product,
    truncated to its integer part, not rounded.  Row [i] holds on both
    channels the float32 cast of [volume * sin(2 * pi * frequency * (i / fs))],
    every product and the quotient rounded to binary64 in the order the
    code multiplies. *)
Theorem first_tone_shape
  (np_sin : xfloat -> xfloat) (w : World) (n c : Z) :
  thread w = Some PcSetup ->
  stop_evt w = false ->
  (0 <= play_sec (params w))%Q ->
  0 < samplerate w ->
  count_samples (play_sec (params w)) (samplerate w) = inr n ->
  count_samples (cycle_sec (params w)) (samplerate w) = inr c ->
  n <= c -> c <= max_rows w -> max_rows w < 2 ^ 60 ->
  exists (sig : Tone) (P : Q),
    log (thread_steps 4 w) = EvPlayTone sig :: log w /\
    device (thread_steps 4 w) = DevTone sig /\
    mul_float_int (play_sec (params w)) (samplerate w) = inr (XFin P) /\
    (inject_Z n <= P)%Q /\ (P < inject_Z n + 1)%Q /\
    List.length (samples32 np_sin sig) = Z.to_nat n /\
    forall i : nat,
      (i < List.length (samples32 np_sin sig))%nat ->
      nth_error (samples32 np_sin sig) i =
        Some (to32 (xmul (x64 (volume (params w)))
                      (np_sin
                         (xmul (xmul (xmul (XFin 2) np_pi)
                                     (x64 (frequency (params w))))
                               (xdiv (x64 (inject_Z (Z.of_nat i)))
                                     (x64 (inject_Z (samplerate w))))))),
              to32 (xmul (x64 (volume (params w)))
                      (np_sin
                         (xmul (xmul (xmul (XFin 2) np_pi)
                                     (x64 (frequency (params w))))
                               (xdiv (x64 (inject_Z (Z.of_nat i)))
                                     (x64 (inject_Z (samplerate w)))))))).
Proof.
  intros Hth Hs H0 Hr Hn Hc Hle Hrows Hdim.
  destruct (count_samples_truncates _ _ _ Hn) as (P & HP & _ & Hb).
  destruct (Hb H0 ltac:(lia)) as (Hlo & Hhi & Hnn).
  pose proof (run_setup_ok w n c Hn Hc Hle ltac:(lia) ltac:(lia)) as Hsetup.
  set (L := mkLocals (samplerate w) n c) in *.
  set (sig := mkTone n (volume (params w)) (frequency (params w)) (samplerate w)).
  exists sig, P.
  assert (H1 : thread_step w = goto (PcLoopHead L) w).
  { unfold thread_step. rewrite Hth, Hsetup. reflexivity. }
  assert (H2 : thread_step (goto (PcLoopHead L) w) = goto (PcGen L) w).
  { unfold thread_step. cbn. rewrite Hs. reflexivity. }
  assert (H3 : thread_step (goto (PcGen L) w) = goto (PcPlay L sig) w).
  { unfold thread_step. cbn [thread goto with_thread].
    rewrite (run_gen_ok L (goto (PcGen L) w)) by (cbn; lia). reflexivity. }
  assert (H4 : thread_step (goto (PcPlay L sig) w)
               = goto (PcWait L)
                   (with_device (DevTone sig) (emit (EvPlayTone sig) w))).
  { reflexivity. }
  assert (Hrun : thread_steps 4 w
                 = goto (PcWait L)
                     (with_device (DevTone sig) (emit (EvPlayTone sig) w))).
  { cbn [thread_steps]. rewrite H1, H2, H3, H4. reflexivity. }
  rewrite Hrun. cbn [log device goto with_thread with_device emit].
  split; [reflexivity|]. split; [reflexivity|].
  split; [exact HP|]. split; [exact Hlo|]. split; [exact Hhi|].
  split; [apply samples32_length|].
  intros i Hi. rewrite samples32_length in Hi.
  rewrite (samples32_nth _ _ _ Hi). reflexivity.
Qed.

Lemma first_tone_shape_witness :
  exists (sig : Tone) (P : Q),
    log (thread_steps 4 world_short) = EvPlayTone sig :: log world_short /\
    device (thread_steps 4 world_short) = DevTone sig /\
    mul_float_int (play_sec (params world_short)) (samplerate world_short)
      = inr (XFin P) /\
    (inject_Z 5925 <= P)%Q /\ (P < inject_Z 5925 + 1)%Q /\
    List.length (samples32 sin64 sig) = Z.to_nat 5925 /\
    forall i : nat,
      (i < List.length (samples32 sin64 sig))%nat ->
      nth_error (samples32 sin64 sig) i =
        Some (to32 (xmul (x64 (volume (params world_short)))
                      (sin64
                         (xmul (xmul (xmul (XFin 2) np_pi)
                                     (x64 (frequency (params world_short))))
                               (xdiv (x64 (inject_Z (Z.of_nat i)))
                                     (x64 (inject_Z (samplerate world_short))))))),
              to32 (xmul (x64 (volume (params world_short)))
                      (sin64
                         (xmul (xmul (xmul (XFin 2) np_pi)
                                     (x64 (frequency (params world_short))))
                               (xdiv (x64 (inject_Z (Z.of_nat i)))
                                     (x64 (inject_Z (samplerate world_short)))))))).
Proof.
  apply (first_tone_shape sin64 world_short 5925 2880000).
  - reflexivity.
  - reflexivity.
  - vm_compute. discriminate.
  - reflexivity.
  - vm_compute. reflexivity.
  - vm_compute. reflexivity.
  - vm_compute. discriminate.
  - vm_compute. discriminate.
  - vm_compute. reflexivity.
Defined.

(** C4, counterexample.  Frequency 440, volume 0.5, play time 0.12345 s on a
    48000 Hz device: the product is 5925.6, the buffer handed to the device
    has 5925 rows, and the nearest integer is 5926.  And the product is
    rounded to binary64 before it is truncated: 0.7 s at 44100 Hz gives
    30869 rows, where 0.7 x 44100 is 30870. *)
Lemma sample_count_is_truncated :
  params world_short = mkParams 440 (1 # 2) (2469 # 20000) 60 /\
  tones (log (thread_steps 4 world_short))
    = [mkTone 5925 (1 # 2) 440 48000] /\
  Z.of_nat (List.length (samples32 sin64 (mkTone 5925 (1 # 2) 440 48000)))
    = 5925 /\
  spec_sample_count (play_sec (params world_short)) (samplerate world_short)
    = 5926 /\
  tones (log (thread_steps 4
                (start (apply_params decimal_float
                          (mkEntries "440" "0.5" "0.7" "60") world0))))
    = [mkTone 30869 (1 # 2) 440 44100] /\
  py_int (mul_int (7 # 10) 44100) = 30870 /\
  spec_sample_count (7 # 10) 44100 = 30870.
Proof.
  split; [vm_compute; reflexivity|].
  split; [vm_compute; reflexivity|].
  split; [rewrite samples32_length; vm_compute; reflexivity|].
  split; [vm_compute; reflexivity|].
  split; [vm_compute; reflexivity|].
  split; vm_compute; reflexivity.
Qed.

(** C10, as amended.  Take an accepted parameter update and any run after
    it that makes no further update.  When the thread then builds its
    buffer (of a length the machine allocates), the buffer's volume is the
    one the update wrote and lies in [0, 1]; the volume cast to float32 is
    in [0, 1]; the two channels are equal; and every sample is NaN or at
    most the float32 volume in absolute value, hence within [-1, 1].
    [np.sin] is any function that returns NaN or a value in [-1, 1]. *)
Theorem samples_within_volume
  (np_sin : xfloat -> xfloat)
  (str_float : string -> option Q) (e : Entries) (w : World)
  (l : list Action) (L : Locals) :
  (forall x, match np_sin x with
             | XFin s => (- (1) <= s)%Q /\ (s <= 1)%Q
             | XInf _ => False
             | XNaN => True
             end) ->
  apply_accepted str_float e w = true ->
  no_update l = true ->
  thread (exec str_float l (apply_params str_float e w)) = Some (PcGen L) ->
  play_samples L <= max_rows w -> play_samples L < 2 ^ 60 ->
  let w1 := exec str_float l (apply_params str_float e w) in
  exists (sig : Tone) (v32 : Q),
    thread (thread_step w1) = Some (PcPlay L sig) /\
    tone_vol sig = volume (params (apply_params str_float e w)) /\
    (0 <= tone_vol sig)%Q /\ (tone_vol sig <= 1)%Q /\
    to32 (x64 (tone_vol sig)) = XFin v32 /\ (0 <= v32)%Q /\ (v32 <= 1)%Q /\
    Forall (fun s : xfloat * xfloat =>
              fst s = snd s /\
              (fst s = XNaN \/
               exists x : Q, fst s = XFin x /\ (Qabs x <= v32)%Q /\
                             (- (1) <= x)%Q /\ (x <= 1)%Q))
           (samples32 np_sin sig).
Proof.
  intros Hsin Hacc Hl Hth Hrows Hdim. cbv zeta.
  set (w1 := exec str_float l (apply_params str_float e w)) in *.
  assert (Hp : params w1 = params (apply_params str_float e w))
    by (apply exec_no_update_params, Hl).
  assert (Hm : max_rows w1 = max_rows w).
  { unfold w1. rewrite exec_max_rows. apply apply_params_max_rows. }
  destruct (apply_accepted_ranges str_float e w Hacc) as (Hv0 & Hv1 & _).
  set (sig := mkTone (play_samples L) (volume (params w1))
                     (frequency (params w1)) (fs L)).
  assert (Hvol : tone_vol sig = volume (params (apply_params str_float e w))).
  { unfold sig. cbn [tone_vol]. rewrite Hp. reflexivity. }
  assert (H0 : (0 <= tone_vol sig)%Q) by (rewrite Hvol; exact Hv0).
  assert (H1 : (tone_vol sig <= 1)%Q) by (rewrite Hvol; exact Hv1).
  destruct (sample32_bounded np_sin sig 0 Hsin H0 H1)
    as (v32 & E32 & Hw0 & Hw1 & _).
  exists sig, v32.
  split.
  { unfold thread_step. rewrite Hth.
    rewrite (run_gen_ok L w1) by (rewrite ?Hm; assumption). reflexivity. }
  split; [exact Hvol|]. split; [exact H0|]. split; [exact H1|].
  split; [exact E32|]. split; [exact Hw0|]. split; [exact Hw1|].
  unfold samples32. rewrite Forall_map. apply Forall_forall. intros i _.
  cbn [fst snd]. split; [reflexivity|].
  destruct (sample32_bounded np_sin sig i Hsin H0 H1)
    as (v & E & _ & _ & Hcase).
  rewrite E32 in E. injection E as <-.
  destruct Hcase as [Hnan | (x & Hx & Hb)]; [left; exact Hnan|].
  right. exists x. split; [exact Hx|]. split; [exact Hb|].
  apply Qabs_Qle_condition. eapply Qle_trans; [exact Hb | exact Hw1].
Qed.

Lemma samples_within_volume_witness :
  exists (sig : Tone) (v32 : Q),
    thread (thread_step
              (exec decimal_float [AStart; AThread; AThread]
                 (apply_params decimal_float
                    (mkEntries "440" "1.5" "1" "60") world0)))
      = Some (PcPlay (mkLocals 44100 44100 2646000) sig) /\
    tone_vol sig
      = volume (params (apply_params decimal_float
                          (mkEntries "440" "1.5" "1" "60") world0)) /\
    (0 <= tone_vol sig)%Q /\ (tone_vol sig <= 1)%Q /\
    to32 (x64 (tone_vol sig)) = XFin v32 /\ (0 <= v32)%Q /\ (v32 <= 1)%Q /\
    Forall (fun s : xfloat * xfloat =>
              fst s = snd s /\
              (fst s = XNaN \/
               exists x : Q, fst s = XFin x /\ (Qabs x <= v32)%Q /\
                             (- (1) <= x)%Q /\ (x <= 1)%Q))
           (samples32 sin64 sig).
Proof.
  apply (samples_within_volume sin64 decimal_float
           (mkEntries "440" "1.5" "1" "60") world0
           [AStart; AThread; AThread] (mkLocals 44100 44100 2646000)).
  - exact sin64_range.
  - reflexivity.
  - reflexivity.
  - reflexivity.
  - vm_compute. discriminate.
  - vm_compute. reflexivity.
Defined.

(** C10, counterexample.  Volume 0.1 and frequency 11025 Hz are accepted;
    on the 44100 Hz device the phase of row 1 is the double nearest to
    pi/2, whose sine is 1.0, the product is the double 0.1, and its cast to
    float32 is 0.100000001490116..., above the double 0.1 and above 0.1.
    And a frequency entry "inf" or "1e308" is accepted too: every product
    with it is infinite or NaN, and rows 0 and 1 hold NaN. *)
Lemma sample_exceeds_volume :
  apply_accepted decimal_float (mkEntries "11025" "0.1" "1" "60") world0
    = true /\
  device (thread_steps 4
            (start (apply_params decimal_float
                      (mkEntries "11025" "0.1" "1" "60") world0)))
    = DevTone (mkTone 44100 (1 # 10) 11025 44100) /\
  xmul (xmul (xmul (XFin 2) np_pi) (x64 11025))
       (xdiv (x64 (inject_Z 1)) (x64 (inject_Z 44100)))
    = XFin (884279719003555 # 562949953421312) /\
  sin64 (XFin (884279719003555 # 562949953421312)) = XFin 1 /\
  nth_error (samples32 sin64 (mkTone 44100 (1 # 10) 11025 44100)) 1
    = Some (XFin (13421773 # 134217728), XFin (13421773 # 134217728)) /\
  x64 (1 # 10) = XFin (3602879701896397 # 36028797018963968) /\
  (3602879701896397 # 36028797018963968 < 13421773 # 134217728)%Q /\
  (1 # 10 < 13421773 # 134217728)%Q /\
  apply_accepted decimal_float (mkEntries "inf" "0.1" "1" "60") world0
    = true /\
  device (thread_steps 4
            (start (apply_params decimal_float
                      (mkEntries "inf" "0.1" "1" "60") world0)))
    = DevTone (mkTone 44100 (1 # 10) inf_q 44100) /\
  nth_error (samples32 sin64 (mkTone 44100 (1 # 10) inf_q 44100)) 0
    = Some (XNaN, XNaN) /\
  nth_error (samples32 sin64 (mkTone 44100 (1 # 10) inf_q 44100)) 1
    = Some (XNaN, XNaN) /\
  apply_accepted decimal_float (mkEntries "1e308" "0.1" "1" "60") world0
    = true /\
  nth_error (samples32 sin64
               (mkTone 44100 (1 # 10) (inject_Z (10 ^ 308)) 44100)) 1
    = Some (XNaN, XNaN).
Proof.
  split; [vm_compute; reflexivity|].
  split; [vm_compute; reflexivity|].
  split; [vm_compute; reflexivity|].
  split; [vm_compute; reflexivity|].
  split.
  { change 1%nat with (Z.to_nat 1).
    rewrite samples32_row by (cbn; lia). vm_compute. reflexivity. }
  split; [vm_compute; reflexivity|].
  split; [reflexivity|].
  split; [reflexivity|].
  split; [vm_compute; reflexivity|].
  split; [vm_compute; reflexivity|].
  split.
  { change 0%nat with (Z.to_nat 0).
    rewrite samples32_row by (cbn; lia). vm_compute. reflexivity. }
  split.
  { change 1%nat with (Z.to_nat 1).
    rewrite samples32_row by (cbn; lia). vm_compute. reflexivity. }
  split; [vm_compute; reflexivity|].
  change 1%nat with (Z.to_nat 1).
  rewrite samples32_row by (cbn; lia). vm_compute. reflexivity.
Qed.

(** ** The play length after the thread has started *)

Lemma tones_app (l1 l2 : list Event) : tones (l1 ++ l2) = tones l1 ++ tones l2.
Proof.
  induction l1 as [|e l1 IH]; cbn; [reflexivity|].
  destruct e; cbn; rewrite IH; reflexivity.
Qed.

(** One statement inside the loop: the locals stay, and a tone handed to the
    device has the length computed at thread start. *)
Lemma thread_step_in_loop (L : Locals) (w : World) :
  in_loop L w ->
  in_loop L (thread_step w) /\
  exists new,
    log (thread_step w) = new ++ log w /\
    Forall (fun t => tone_len t = play_samples L) (tones new).
Proof.
  unfold in_loop, thread_step, update_status, update_tray_tooltip.
  destruct (thread w) as [[ | L' | L' | L' sig | L' | L' | L' | L' | L' [|k] | | | e]|]
    eqn:Hthread; cbn; intros H; try discriminate; try contradiction;
    try (injection H as ->).
  - destruct (stop_evt w); cbn; split; auto; exists []; split; auto.
  - destruct (run_gen L w) as [e | sig] eqn:G; cbn.
    + split; [exact I|]. exists []; split; auto.
    + apply run_gen_tone in G. subst sig. split; [split; reflexivity|].
      exists []; split; auto.
  - destruct H as [-> Hlen]. split; [reflexivity|].
    exists [EvPlayTone sig]. split; [reflexivity|]. cbn. auto.
  - split; [reflexivity|]. exists []; split; auto.
  - destruct (root w); cbn; destruct (tray_icon w); cbn;
      (split; [reflexivity|]); exists [EvStatus TxtWaiting]; split; cbn; auto.
  - split; [reflexivity|].
    exists [EvPlaySilence (cycle_samples L - play_samples L)]. split; cbn; auto.
  - destruct (idle_count (params w)); cbn;
      (split; [exact I || reflexivity|]); exists []; split; auto.
  - split; [reflexivity|]. exists []; split; auto.
  - destruct (stop_evt w); cbn; (split; [reflexivity|]).
    + exists []; split; auto.
    + exists [EvTick]; split; cbn; auto.
  - destruct (root w); cbn; destruct (tray_icon w); cbn;
      (split; [exact I|]); exists [EvStatus TxtStopped]; split; cbn; auto.
  - rewrite Hthread. split; [exact I|]. exists []; split; auto.
  - rewrite Hthread. split; [exact I|]. exists []; split; auto.
Qed.

(** However the parameters are updated while the thread runs, every tone it
    plays has the length computed from the play time read at its start. *)
Lemma tone_length_fixed_at_start
  (str_float : string -> option Q) (L : Locals) (l : list Action) (w : World) :
  in_loop L w ->
  no_start l = true ->
  exists new,
    log (exec str_float l w) = new ++ log w /\
    Forall (fun t => tone_len t = play_samples L) (tones new).
Proof.
  revert w. induction l as [|a l IH]; intros w Hin Hl; cbn.
  - exists []. split; auto.
  - cbn in Hl. apply andb_true_iff in Hl. destruct Hl as [Ha Hl].
    apply negb_true_iff in Ha.
    assert (Hact : in_loop L (act str_float a w) /\
                   exists new1,
                     log (act str_float a w) = new1 ++ log w /\
                     Forall (fun t => tone_len t = play_samples L) (tones new1)).
    { destruct a as [ | | | e | ]; try discriminate; cbn.
      - split; [exact Hin|]. exists []; split; auto.
      - destruct (apply_params_frame str_float e w)
          as (_ & _ & Hth & _ & _ & _ & Hlog).
        split; [unfold in_loop in *; rewrite Hth; exact Hin|].
        exists []; split; auto.
      - apply thread_step_in_loop, Hin. }
    destruct Hact as (Hin1 & new1 & Hlog1 & Hall1).
    destruct (IH _ Hin1 Hl) as (new2 & Hlog2 & Hall2).
    exists (new2 ++ new1). split.
    + rewrite Hlog2, Hlog1, app_assoc. reflexivity.
    + rewrite tones_app. apply Forall_app. split; assumption.
Qed.

(** ** Claims on live updates and on the level labels *)

(** C2, at the failing input.  The update arrives during the first idle
    wait.  The wait still runs its 59 ticks, and the next tone has the new
    volume and frequency; but its length is the 44100 samples computed from
    the old play time when the thread started, where the new play time of
    2 s gives 88200.  The idle wait that follows counts with the new
    values. *)
Theorem play_length_ignores_update :
  params (exec decimal_float run_with_update world0) = mkParams 880 (1 # 2) 2 10 /\
  ticks (exec decimal_float run_with_update world0) = 59%nat /\
  tones (log (exec decimal_float run_with_update world0))
    = [mkTone 44100 (1 # 2) 880 44100; mkTone 44100 (1 # 1000) 440 44100] /\
  py_int (mul_int (play_sec (params (exec decimal_float run_with_update world0)))
                  (samplerate (exec decimal_float run_with_update world0)))
    = 88200 /\
  thread (thread_steps 4 (exec decimal_float run_with_update world0))
    = Some (PcTicks (mkLocals 44100 44100 2646000) 8).
Proof. vm_compute. repeat split; reflexivity. Qed.

(** The thread's statements write the status label only. *)
Lemma thread_step_levels (w : World) : levels (thread_step w) = levels w.
Proof.
  unfold levels, thread_step, update_status, update_tray_tooltip.
  destruct (thread w) as [[ | L | L | L sig | L | L | L | L | L [|k] | | | e]|];
    cbn; try reflexivity;
    try (destruct (run_setup w); reflexivity);
    try (destruct (run_gen _ w); reflexivity);
    try (destruct (idle_count _); reflexivity);
    try (destruct (stop_evt w); reflexivity);
    destruct (root w) as [g|] eqn:Hroot; cbn;
    destruct (tray_icon w) as [t|] eqn:Htray; cbn;
    rewrite ?Hroot; reflexivity.
Qed.

(** No action ever writes the level labels. *)
Lemma levels_never_written
  (str_float : string -> option Q) (l : list Action) (w : World) :
  levels (exec str_float l w) = levels w.
Proof.
  revert w. induction l as [|a l IH]; intros w; cbn; [reflexivity|].
  rewrite IH.
  destruct a as [ | | | e | ]; cbn.
  - unfold start. destruct (is_alive w); reflexivity.
  - reflexivity.
  - unfold toggle_play, start. destruct (is_alive w); reflexivity.
  - destruct (apply_params_frame str_float e w) as (_ & _ & _ & _ & Hr & _).
    unfold levels. rewrite Hr. reflexivity.
  - apply thread_step_levels.
Qed.

(** Had [update_levels] been called, the labels would show its arguments. *)
Lemma update_levels_writes (left right : Q) (w : World) :
  root w <> None ->
  levels (update_levels left right w) = Some (LevelShown left, LevelShown right).
Proof.
  unfold levels, update_levels. destruct (root w); [reflexivity | congruence].
Qed.

(** C9, at the failing input.  Volume 0.5 at 440 Hz: the device is playing
    the tone, whose second row is positive on both channels, and the two
    level labels still hold their initial text, as they do after every run
    of the program. *)
Theorem levels_stay_initial_while_tone_plays :
  device world_playing = DevTone (mkTone 44100 (1 # 2) 440 44100) /\
  (exists x : R,
     nth_error (waveform (mkTone 44100 (1 # 2) 440 44100)) 1 = Some (x, x) /\
     (0 < x)%R) /\
  levels world_playing = Some (LevelInitial, LevelInitial) /\
  (forall (str_float : string -> option Q) (l : list Action),
     levels (exec str_float l world0) = Some (LevelInitial, LevelInitial)).
Proof.
  split; [vm_compute; reflexivity|].
  split; [|split; [vm_compute; reflexivity|]].
  2: { intros sf l. rewrite levels_never_written. reflexivity. }
  eexists. split.
  - apply waveform_nth. cbn [tone_len]. lia.
  - cbn [tone_vol tone_freq tone_fs].
    apply Rmult_lt_0_compat.
    + unfold Q2R; cbn. lra.
    + pose proof PI_RGT_0 as Hpi.
      apply sin_gt_0; unfold Q2R; cbn; lra.
Qed.

(** ** [load_params] *)

Section Loading.

Variable str_float : string -> option Q.




End Loading.

(** What was saved is what is loaded. *)
Lemma load_after_save (str_float : string -> option Q) (w : World) :
  load_params str_float (param_file (save_params w)) = inr (params w).
Proof. destruct w as [[f v p c] ? ? ? ? ? ? ? ? ?]. reflexivity. Qed.




(** * Further properties of the program *)

(** ** Saving and loading *)

(** Loading what [save_params] wrote returns the parameters in memory,
    whatever they are. *)
Theorem save_then_load_round_trip
  (str_float : string -> option Q) (w : World) :
  load_params str_float (param_file (save_params w)) = inr (params w) /\
  params (save_params w) = params w.
Proof. destruct w as [[f v p c] ? ? ? ? ? ? ? ? ?]. split; reflexivity. Qed.

(** After an accepted update the file holds the parameters in memory:
    loading it, as the next program start does, returns them, and they are
    within the bounds of the clamps. *)
Theorem accepted_update_is_persisted
  (str_float : string -> option Q) (e : Entries) (w : World) :
  apply_accepted str_float e w = true ->
  load_params str_float (param_file (apply_params str_float e w))
    = inr (params (apply_params str_float e w)) /\
  in_bounds (params (apply_params str_float e w)).
Proof.
  intros H. split.
  - apply apply_accepted_iff in H.
    destruct H as (f & v & p & c & Hf & Hv & Hp & Hc).
    destruct (apply_params_all_numeric str_float e w f v p c Hf Hv Hp Hc)
      as [_ ->].
    reflexivity.
  - exact (apply_accepted_ranges str_float e w H).
Qed.

Lemma accepted_update_is_persisted_witness :
  load_params decimal_float
    (param_file (apply_params decimal_float
                   (mkEntries "880" "7" "0.01" "30") world0))
    = inr (params (apply_params decimal_float
                     (mkEntries "880" "7" "0.01" "30") world0)) /\
  in_bounds (params (apply_params decimal_float
                       (mkEntries "880" "7" "0.01" "30") world0)).
Proof.
  apply (accepted_update_is_persisted decimal_float
           (mkEntries "880" "7" "0.01" "30") world0).
  reflexivity.
Defined.

(** The loaded parameters depend on the four keys only: other keys of the
    file, and the order of the keys, do not matter. *)
Theorem load_params_reads_four_keys
  (str_float : string -> option Q) (items items' : list (string * json)) :
  (forall k, In k param_keys -> dict_get k items = dict_get k items') ->
  load_params str_float (FileJSON (JObject items))
    = load_params str_float (FileJSON (JObject items')).
Proof.
  intros H. unfold load_params, load_field.
  rewrite (H "frequency"%string), (H "volume"%string),
    (H "play_sec"%string), (H "cycle_sec"%string);
    try reflexivity; cbn; auto 6.
Qed.

Lemma load_params_reads_four_keys_witness :
  load_params decimal_float
    (FileJSON (JObject [("cycle_sec"%string, JNumber 30);
                        ("theme"%string, JString "dark");
                        ("volume"%string, JNumber (1 # 4))]))
  = load_params decimal_float
      (FileJSON (JObject [("volume"%string, JNumber (1 # 4));
                          ("cycle_sec"%string, JNumber 30)])).
Proof.
  apply (load_params_reads_four_keys decimal_float).
  intros k Hk. cbn in Hk.
  destruct Hk as [<-|[<-|[<-|[<-|[]]]]]; reflexivity.
Defined.

(** ** Updates, accepted or not *)

Section MoreUpdates.

Variable str_float : string -> option Q.

Ltac run_apply' :=
  unfold apply_params, apply_accepted, apply_params_m, apply_params_body,
    try_except_ValueError, bind, entry_float, modify, ret, raise.

(** What a rejected update leaves behind, by the first entry that is not
    numeric. *)
Lemma apply_params_prefix (e : Entries) (w : World) :
  match str_float (freq_ent e) with
  | None => apply_params str_float e w = w
  | Some f =>
      match str_float (vol_ent e) with
      | None =>
          apply_params str_float e w
          = with_params (set_frequency f (params w)) w
      | Some v =>
          match str_float (play_ent e) with
          | None =>
              apply_params str_float e w
              = with_params
                  (set_volume (py_max 0 (py_min 1 v))
                     (set_frequency f (params w))) w
          | Some p =>
              match str_float (cycle_ent e) with
              | None =>
                  apply_params str_float e w
                  = with_params
                      (set_play_sec (py_max (1 # 10) p)
                         (set_volume (py_max 0 (py_min 1 v))
                            (set_frequency f (params w)))) w
              | Some c =>
                  apply_params str_float e w
                  = save_params
                      (with_params
                         (mkParams f (py_max 0 (py_min 1 v))
                                   (py_max (1 # 10) p) (py_max (1 # 10) c)) w)
              end
          end
      end
  end.
Proof.
  run_apply'.
  destruct (str_float (freq_ent e)); cbn; [|destruct w; reflexivity].
  destruct (str_float (vol_ent e)); cbn; [|reflexivity].
  destruct (str_float (play_ent e)); cbn; [|reflexivity].
  destruct (str_float (cycle_ent e)); cbn; reflexivity.
Qed.

End MoreUpdates.

(** A rejected update is not undone: the entries before the first one that
    is not numeric have already been written (clamped) to the parameters in
    memory, the later fields and the file are as before.  Only a first entry
    that is not numeric leaves everything unchanged. *)
Theorem rejected_update_keeps_earlier_writes
  (str_float : string -> option Q) (e : Entries) (w : World) :
  (str_float (freq_ent e) = None -> apply_params str_float e w = w) /\
  (forall f,
     str_float (freq_ent e) = Some f -> str_float (vol_ent e) = None ->
     apply_params str_float e w
     = with_params (mkParams f (volume (params w)) (play_sec (params w))
                             (cycle_sec (params w))) w) /\
  (forall f v,
     str_float (freq_ent e) = Some f -> str_float (vol_ent e) = Some v ->
     str_float (play_ent e) = None ->
     apply_params str_float e w
     = with_params (mkParams f (py_max 0 (py_min 1 v)) (play_sec (params w))
                             (cycle_sec (params w))) w) /\
  (forall f v p,
     str_float (freq_ent e) = Some f -> str_float (vol_ent e) = Some v ->
     str_float (play_ent e) = Some p -> str_float (cycle_ent e) = None ->
     apply_params str_float e w
     = with_params (mkParams f (py_max 0 (py_min 1 v)) (py_max (1 # 10) p)
                             (cycle_sec (params w))) w).
Proof.
  pose proof (apply_params_prefix str_float e w) as H.
  split; [|split; [|split]].
  - intros Hf. rewrite Hf in H. exact H.
  - intros f Hf Hv. rewrite Hf, Hv in H. exact H.
  - intros f v Hf Hv Hp. rewrite Hf, Hv, Hp in H. exact H.
  - intros f v p Hf Hv Hp Hc. rewrite Hf, Hv, Hp, Hc in H. exact H.
Qed.

Lemma rejected_update_keeps_earlier_writes_witness :
  apply_params decimal_float (mkEntries "fast" "0.5" "2" "10") world0 = world0 /\
  apply_params decimal_float (mkEntries "880" "7" "long" "10") world0
  = with_params (mkParams 880 1 1 60) world0.
Proof.
  destruct (rejected_update_keeps_earlier_writes decimal_float
              (mkEntries "fast" "0.5" "2" "10") world0) as (H1 & _).
  destruct (rejected_update_keeps_earlier_writes decimal_float
              (mkEntries "880" "7" "long" "10") world0) as (_ & _ & H3 & _).
  split.
  - apply H1. reflexivity.
  - apply (H3 880%Q 7%Q); reflexivity.
Defined.

(** Pressing the button twice on the same entries is pressing it once,
    whether the update is accepted or rejected. *)
Theorem apply_params_twice
  (str_float : string -> option Q) (e : Entries) (w : World) :
  apply_params str_float e (apply_params str_float e w)
  = apply_params str_float e w.
Proof.
  pose proof (apply_params_prefix str_float e w) as H1.
  pose proof (apply_params_prefix str_float e (apply_params str_float e w)) as H2.
  destruct (str_float (freq_ent e)) as [f|]; [|congruence].
  destruct (str_float (vol_ent e)) as [v|];
    [|rewrite H2, H1; reflexivity].
  destruct (str_float (play_ent e)) as [p|];
    [|rewrite H2, H1; reflexivity].
  destruct (str_float (cycle_ent e)) as [c|];
    rewrite H2, H1; reflexivity.
Qed.

(** Every action keeps the bounds of the clamps: once the volume is in
    [0, 1] and both durations are at least 0.1, they stay so through any
    run, rejected updates included. *)
Theorem bounds_are_kept
  (str_float : string -> option Q) (l : list Action) (w : World) :
  in_bounds (params w) -> in_bounds (params (exec str_float l w)).
Proof.
  revert w. induction l as [|a l IH]; intros w Hb; cbn; [exact Hb|].
  apply IH. destruct (control_params w) as (Hs1 & Hs2 & Hs3).
  destruct a as [ | | | e | ]; cbn;
    rewrite ?Hs1, ?Hs2, ?Hs3, ?thread_step_params; try exact Hb.
  pose proof (apply_params_prefix str_float e w) as H.
  destruct Hb as (Hv0 & Hv1 & Hp & Hc).
  destruct (str_float (freq_ent e)) as [f|]; [|rewrite H; repeat split; assumption].
  destruct (str_float (vol_ent e)) as [v|];
    [|rewrite H; repeat split; assumption].
  pose proof (volume_clamp_range v) as [Hlo Hhi].
  destruct (str_float (play_ent e)) as [p|];
    [|rewrite H; repeat split; assumption].
  destruct (str_float (cycle_ent e)) as [c|];
    rewrite H; repeat split; cbn; auto using py_max_lower.
Qed.

Lemma bounds_are_kept_witness :
  in_bounds (params (exec decimal_float
                       [AApply (mkEntries "880" "7" "long" "10"); AStart;
                        AThread; AApply (mkEntries "1" "-3" "0" "0"); AStop]
                       world0)).
Proof.
  apply (bounds_are_kept decimal_float).
  unfold in_bounds. vm_compute. repeat split; discriminate.
Defined.

(** ** The controls *)

Section MoreControls.

Variable str_float : string -> option Q.

(** A player that is not running makes no call of its own: until [start],
    whatever is pressed and however often the ended thread is scheduled, no
    tone, silence, tick or status text is produced, the window is left as it
    is, and the thread stays ended. *)
Theorem idle_player_is_silent (l : list Action) (w : World) :
  is_alive w = false ->
  no_start l = true ->
  is_alive (exec str_float l w) = false /\
  log (exec str_float l w) = log w /\
  root (exec str_float l w) = root w /\
  thread (exec str_float l w) = thread w.
Proof.
  revert w. induction l as [|a l IH]; intros w Hd Hl; cbn; [auto|].
  cbn in Hl. apply andb_true_iff in Hl. destruct Hl as [Ha Hl].
  apply negb_true_iff in Ha.
  assert (Hact : is_alive (act str_float a w) = false /\
                 log (act str_float a w) = log w /\
                 root (act str_float a w) = root w /\
                 thread (act str_float a w) = thread w).
  { destruct a as [ | | | e | ]; try discriminate; cbn.
    - repeat split. exact Hd.
    - destruct (apply_params_frame str_float e w)
        as (_ & _ & Hth & _ & Hr & _ & Hlog).
      unfold is_alive in *. rewrite Hth. auto.
    - assert (Hsame : thread_step w = w).
      { unfold is_alive in Hd. unfold thread_step.
        destruct (thread w) as [[]|]; try discriminate; reflexivity. }
      rewrite Hsame. auto. }
  destruct Hact as (H1 & H2 & H3 & H4).
  destruct (IH _ H1 Hl) as (K1 & K2 & K3 & K4).
  repeat split; congruence.
Qed.

End MoreControls.

Lemma idle_player_is_silent_witness :
  is_alive (exec decimal_float
              [AThread; AStop; AApply (mkEntries "880" "0.5" "2" "10"); AThread]
              world0) = false /\
  log (exec decimal_float
         [AThread; AStop; AApply (mkEntries "880" "0.5" "2" "10"); AThread]
         world0) = log world0 /\
  root (exec decimal_float
          [AThread; AStop; AApply (mkEntries "880" "0.5" "2" "10"); AThread]
          world0) = root world0 /\
  thread (exec decimal_float
            [AThread; AStop; AApply (mkEntries "880" "0.5" "2" "10"); AThread]
            world0) = thread world0.
Proof.
  apply (idle_player_is_silent decimal_float); reflexivity.
Defined.

(** [toggle_play] twice.  On a running player the second press stops it
    again instead of restarting it, because the thread is still alive: the
    result is that of one [stop()], and the loop ends.  On a player that is
    not running the first press starts it and the second stops it. *)
Theorem toggle_play_twice (w : World) :
  (is_alive w = true ->
   toggle_play (toggle_play w) = stop w /\
   is_alive (thread_steps 9 (toggle_play (toggle_play w))) = false) /\
  (is_alive w = false ->
   toggle_play (toggle_play w) = stop (start w) /\
   thread (toggle_play (toggle_play w)) = Some PcSetup /\
   stop_evt (toggle_play (toggle_play w)) = true).
Proof.
  split; intros H.
  - assert (E : toggle_play (toggle_play w) = stop w).
    { unfold toggle_play at 2. rewrite H.
      unfold toggle_play.
      change (is_alive (stop w)) with (is_alive w). rewrite H. reflexivity. }
    rewrite E. split; [reflexivity | apply stopped_after_nine].
  - assert (E : toggle_play (toggle_play w) = stop (start w)).
    { unfold toggle_play at 2. rewrite H.
      unfold toggle_play.
      assert (Hl : is_alive (start w) = true)
        by (unfold start; rewrite H; reflexivity).
      rewrite Hl. reflexivity. }
    rewrite E. unfold start. rewrite H. repeat split.
Qed.

Lemma toggle_play_twice_witness :
  toggle_play (toggle_play world_gen) = stop world_gen /\
  toggle_play (toggle_play world0) = stop (start world0).
Proof.
  destruct (toggle_play_twice world_gen) as (Hrun & _).
  destruct (toggle_play_twice world0) as (_ & Hoff).
  split.
  - apply Hrun. reflexivity.
  - apply Hoff. reflexivity.
Defined.

(** [start()] right after [stop()] is lost.  While the stopped thread is
    still alive, [start()] returns without clearing the stop event or making
    a thread, so the loop ends and nothing runs afterwards. *)
Theorem start_after_stop_is_lost (w : World) :
  is_alive w = true ->
  start (stop w) = stop w /\
  stop_evt (start (stop w)) = true /\
  is_alive (thread_steps 9 (start (stop w))) = false.
Proof.
  intros H.
  assert (E : start (stop w) = stop w).
  { unfold start. change (is_alive (stop w)) with (is_alive w).
    rewrite H. reflexivity. }
  rewrite E. repeat split. apply stopped_after_nine.
Qed.

Lemma start_after_stop_is_lost_witness :
  start (stop world_gen) = stop world_gen /\
  stop_evt (start (stop world_gen)) = true /\
  is_alive (thread_steps 9 (start (stop world_gen))) = false.
Proof. apply (start_after_stop_is_lost world_gen). reflexivity. Defined.
(** ** The loop *)

Lemma thread_steps_add (a b : nat) (w : World) :
  thread_steps (a + b) w = thread_steps b (thread_steps a w).
Proof. revert w. induction a as [|a IH]; intros w; cbn; auto. Qed.

(** The two GUI calls of [_run] touch the window and the tray icon only. *)
Lemma status_calls_frame (txt : StatusText) (tip : TrayText) (w : World) :
  let x := update_tray_tooltip tip (update_status txt w) in
  params x = params w /\ stop_evt x = stop_evt w /\
  max_rows x = max_rows w /\ thread x = thread w /\
  device x = device w /\ log x = log w.
Proof.
  unfold update_tray_tooltip, update_status.
  destruct (root w); cbn; destruct (tray_icon w); repeat split.
Qed.

(** The statements of [_run], one by one. *)
Lemma step_loop_head (w : World) (L : Locals) :
  thread w = Some (PcLoopHead L) -> stop_evt w = false ->
  thread_step w = goto (PcGen L) w.
Proof. intros Hth Hs. unfold thread_step. rewrite Hth, Hs. reflexivity. Qed.

Lemma step_gen (w : World) (L : Locals) :
  thread w = Some (PcGen L) ->
  play_samples L <= max_rows w -> play_samples L < 2 ^ 60 ->
  thread_step w
  = goto (PcPlay L (mkTone (play_samples L) (volume (params w))
                           (frequency (params w)) (fs L))) w.
Proof.
  intros Hth Hrows Hdim. unfold thread_step.
  rewrite Hth, (run_gen_ok L w Hrows Hdim). reflexivity.
Qed.

Lemma step_play (w : World) (L : Locals) (sig : Tone) :
  thread w = Some (PcPlay L sig) ->
  thread_step w
  = goto (PcWait L) (with_device (DevTone sig) (emit (EvPlayTone sig) w)).
Proof. intros Hth. unfold thread_step. rewrite Hth. reflexivity. Qed.

Lemma step_wait (w : World) (L : Locals) :
  thread w = Some (PcWait L) ->
  thread_step w = goto (PcStatus L) (with_device DevIdle w).
Proof. intros Hth. unfold thread_step. rewrite Hth. reflexivity. Qed.

Lemma step_status (w : World) (L : Locals) :
  thread w = Some (PcStatus L) ->
  thread_step w
  = goto (PcSilence L)
      (update_tray_tooltip TipWaitNext
         (update_status TxtWaiting (emit (EvStatus TxtWaiting) w))).
Proof. intros Hth. unfold thread_step. rewrite Hth. reflexivity. Qed.

Lemma step_silence (w : World) (L : Locals) :
  thread w = Some (PcSilence L) ->
  thread_step w
  = goto (PcRange L)
      (with_device (DevSilence (cycle_samples L - play_samples L))
         (emit (EvPlaySilence (cycle_samples L - play_samples L)) w)).
Proof. intros Hth. unfold thread_step. rewrite Hth. reflexivity. Qed.

Lemma step_range (w : World) (L : Locals) (n : Z) :
  thread w = Some (PcRange L) -> idle_count (params w) = inr n ->
  thread_step w = goto (PcTicks L (Z.to_nat n)) w.
Proof. intros Hth Hn. unfold thread_step. rewrite Hth, Hn. reflexivity. Qed.

Lemma step_range_raises (w : World) (L : Locals) (e : exn) :
  thread w = Some (PcRange L) -> idle_count (params w) = inl e ->
  thread_step w = goto (PcCrashed e) w.
Proof. intros Hth He. unfold thread_step. rewrite Hth, He. reflexivity. Qed.

Lemma step_crashed (w : World) (e : exn) :
  thread w = Some (PcCrashed e) -> thread_step w = w.
Proof. intros Hth. unfold thread_step. rewrite Hth. reflexivity. Qed.

Ltac next_step lem :=
  match goal with
  | |- context [thread_step (goto ?pc ?x)] =>
      first [ rewrite (lem (goto pc x) _ eq_refl)
            | rewrite (lem (goto pc x) _ _ eq_refl) ]
  end.

(** What [np.arange] and [int] can raise inside the loop. *)
Lemma run_gen_raises (L : Locals) (w : World) (e : exn) :
  run_gen L w = inl e -> e = ValueError \/ e = MemoryError.
Proof.
  unfold run_gen, np_arange, np_zeros.
  destruct (play_samples L <? 0); [discriminate|].
  destruct (2 ^ 60 <=? play_samples L); [intros H; injection H; auto|].
  destruct (max_rows w <? play_samples L); [intros H; injection H; auto|].
  discriminate.
Qed.

Lemma idle_count_raises_only (p : Params) (e : exn) :
  idle_count p = inl e -> e = OverflowError \/ e = ValueError.
Proof.
  unfold idle_count, int_of_float.
  destruct (xsub _ _); [discriminate | |]; intros H; injection H; auto.
Qed.

Lemma locals_alive (w : World) (L : Locals) :
  thread_locals w = Some L -> is_alive w = true.
Proof.
  unfold thread_locals, is_alive.
  destruct (thread w) as [[]|]; cbn; congruence.
Qed.

(** One statement of a thread in its loop, the stop event clear: it stays
    in the loop, or an exception of [np.arange] or [int] ends it; with
    memory for the tone and a difference [int] accepts, it stays. *)
Lemma loop_step (w : World) (L : Locals) :
  thread_locals w = Some L ->
  stop_evt w = false ->
  stop_evt (thread_step w) = false /\
  (thread_locals (thread_step w) = Some L \/
   exists e, thread (thread_step w) = Some (PcCrashed e) /\
             (e = ValueError \/ e = OverflowError \/ e = MemoryError)) /\
  (play_samples L <= max_rows w -> play_samples L < 2 ^ 60 ->
   (exists n, idle_count (params w) = inr n) ->
   thread_locals (thread_step w) = Some L).
Proof.
  unfold thread_locals. intros HL Hs.
  destruct (thread w) as [[ | L' | L' | L' sig | L' | L' | L' | L' | L' k | | | x]|]
    eqn:Hth; cbn in HL; try discriminate; injection HL as ->.
  - rewrite (step_loop_head w L Hth Hs). cbn. auto.
  - destruct (run_gen L w) as [e | sig] eqn:G.
    + assert (E : thread_step w = goto (PcCrashed e) w)
        by (unfold thread_step; rewrite Hth, G; reflexivity).
      rewrite E. cbn. split; [exact Hs|]. split.
      * right. exists e. split; [reflexivity|].
        destruct (run_gen_raises L w e G) as [-> | ->]; auto.
      * intros Hrows Hdim _. rewrite (run_gen_ok L w Hrows Hdim) in G.
        discriminate.
    + assert (E : thread_step w = goto (PcPlay L sig) w)
        by (unfold thread_step; rewrite Hth, G; reflexivity).
      rewrite E. cbn. auto.
  - rewrite (step_play w L sig Hth). cbn. auto.
  - rewrite (step_wait w L Hth). cbn. auto.
  - rewrite (step_status w L Hth).
    destruct (status_calls_frame TxtWaiting TipWaitNext
                (emit (EvStatus TxtWaiting) w)) as (_ & F2 & _).
    cbn [stop_evt thread goto with_thread pc_locals].
    cbv zeta in F2. rewrite F2. cbn. auto.
  - rewrite (step_silence w L Hth). cbn. auto.
  - destruct (idle_count (params w)) as [e | n] eqn:G.
    + rewrite (step_range_raises w L e Hth G). cbn.
      split; [exact Hs|]. split.
      * right. exists e. split; [reflexivity|].
        destruct (idle_count_raises_only _ e G) as [-> | ->]; auto.
      * intros _ _ [n Hn]. discriminate.
    + rewrite (step_range w L n Hth G). cbn. auto.
  - unfold thread_step. rewrite Hth, Hs. destruct k; cbn; auto.
Qed.

Section MoreLoop.

Variable str_float : string -> option Q.

(** The loop runs until it is stopped or an exception ends it.  With the
    stop event clear, through any run of its own statements and parameter
    updates, a thread in its loop is still there, alive and with the locals
    it computed at its start, unless [np.arange] or [int] has raised
    ([ValueError], [OverflowError] or [MemoryError]); the stop event stays
    clear either way.  When no update is made, the tone fits the memory and
    [int] accepts the difference of the two times, nothing is raised. *)
Theorem loop_runs_until_stopped (l : list Action) (w : World) (L : Locals) :
  thread_locals w = Some L ->
  stop_evt w = false ->
  only_updates l = true ->
  stop_evt (exec str_float l w) = false /\
  ((thread_locals (exec str_float l w) = Some L /\
    is_alive (exec str_float l w) = true) \/
   exists e, thread (exec str_float l w) = Some (PcCrashed e) /\
             (e = ValueError \/ e = OverflowError \/ e = MemoryError)) /\
  (no_update l = true ->
   play_samples L <= max_rows w -> play_samples L < 2 ^ 60 ->
   (exists n, idle_count (params w) = inr n) ->
   thread_locals (exec str_float l w) = Some L /\
   is_alive (exec str_float l w) = true).
Proof.
  intros HL Hs Hl.
  assert (Hany : forall l w,
             only_updates l = true -> stop_evt w = false ->
             (thread_locals w = Some L \/
              exists e, thread w = Some (PcCrashed e) /\
                        (e = ValueError \/ e = OverflowError \/ e = MemoryError)) ->
             stop_evt (exec str_float l w) = false /\
             (thread_locals (exec str_float l w) = Some L \/
              exists e, thread (exec str_float l w) = Some (PcCrashed e) /\
                        (e = ValueError \/ e = OverflowError \/ e = MemoryError))).
  { clear. induction l as [|a l IH]; intros w Hl Hs Hin; cbn; [auto|].
    cbn in Hl. apply andb_true_iff in Hl. destruct Hl as [Ha Hl].
    destruct a as [ | | | e | ]; try discriminate; cbn.
    - destruct (apply_params_frame str_float e w) as (_ & Hst & Hth & _).
      apply IH; [exact Hl | congruence |].
      unfold thread_locals in *. rewrite Hth. exact Hin.
    - destruct Hin as [HL | (e & He & Hset)].
      + destruct (loop_step w L HL Hs) as (S1 & S2 & _).
        apply IH; assumption.
      + rewrite (step_crashed w e He).
        apply IH; [exact Hl | exact Hs |]. right. exists e. auto. }
  assert (Hquiet : forall l w,
             only_updates l = true -> no_update l = true ->
             stop_evt w = false -> thread_locals w = Some L ->
             play_samples L <= max_rows w -> play_samples L < 2 ^ 60 ->
             (exists n, idle_count (params w) = inr n) ->
             thread_locals (exec str_float l w) = Some L).
  { clear. induction l as [|a l IH]; intros w Hl Hn Hs HL Hrows Hdim Hidle;
      cbn; [exact HL|].
    cbn in Hl, Hn. apply andb_true_iff in Hl. destruct Hl as [Ha Hl].
    apply andb_true_iff in Hn. destruct Hn as [Hb Hn].
    destruct a as [ | | | e | ]; try discriminate; cbn.
    destruct (loop_step w L HL Hs) as (S1 & _ & S3).
    destruct (thread_step_machine w) as [_ Hm].
    apply IH; try assumption.
    - apply S3; assumption.
    - rewrite Hm. exact Hrows.
    - rewrite thread_step_params. exact Hidle. }
  destruct (Hany l w Hl Hs (or_introl HL)) as [A1 A2].
  split; [exact A1|]. split.
  - destruct A2 as [A2 | A2]; [left | right; exact A2].
    split; [exact A2 | exact (locals_alive _ _ A2)].
  - intros Hn Hrows Hdim Hidle.
    pose proof (Hquiet l w Hl Hn Hs HL Hrows Hdim Hidle) as B.
    split; [exact B | exact (locals_alive _ _ B)].
Qed.

End MoreLoop.

Lemma loop_runs_until_stopped_witness :
  stop_evt (exec decimal_float
              [AThread; AApply (mkEntries "880" "0.5" "2" "inf"); AThread;
               AThread; AThread; AThread; AThread; AThread; AThread]
              world_gen) = false /\
  thread (exec decimal_float
            [AThread; AApply (mkEntries "880" "0.5" "2" "inf"); AThread;
             AThread; AThread; AThread; AThread; AThread; AThread]
            world_gen) = Some (PcCrashed OverflowError) /\
  thread_locals (exec decimal_float (repeat AThread 9) world_gen)
    = Some (mkLocals 44100 44100 2646000) /\
  is_alive (exec decimal_float (repeat AThread 9) world_gen) = true.
Proof.
  destruct (loop_runs_until_stopped decimal_float
              [AThread; AApply (mkEntries "880" "0.5" "2" "inf"); AThread;
               AThread; AThread; AThread; AThread; AThread; AThread]
              world_gen (mkLocals 44100 44100 2646000)
              eq_refl eq_refl eq_refl) as (A1 & _ & _).
  destruct (loop_runs_until_stopped decimal_float (repeat AThread 9)
              world_gen (mkLocals 44100 44100 2646000)
              eq_refl eq_refl eq_refl) as (_ & _ & B).
  split; [exact A1|]. split; [vm_compute; reflexivity|].
  apply B.
  - reflexivity.
  - vm_compute. discriminate.
  - vm_compute. reflexivity.
  - exists 59. vm_compute. reflexivity.
Defined.

(** The ticks of an idle wait, with nothing else acting. *)
Lemma idle_ticks_run (k : nat) (w : World) (L : Locals) :
  thread w = Some (PcTicks L k) ->
  stop_evt w = false ->
  thread (thread_steps k w) = Some (PcTicks L 0) /\
  stop_evt (thread_steps k w) = false /\
  params (thread_steps k w) = params w /\
  log (thread_steps k w) = repeat EvTick k ++ log w.
Proof.
  revert w. induction k as [|k IH]; intros w Hth Hs; cbn [thread_steps].
  - auto.
  - assert (Hstep : thread_step w = goto (PcTicks L k) (emit EvTick w)).
    { unfold thread_step. rewrite Hth, Hs. reflexivity. }
    rewrite Hstep.
    destruct (IH (goto (PcTicks L k) (emit EvTick w)) eq_refl Hs)
      as (H1 & H2 & H3 & H4).
    repeat split; try assumption.
    rewrite H4. cbn [log goto with_thread emit].
    change (EvTick :: log w) with ([EvTick] ++ log w).
    rewrite app_assoc. f_equal.
    change (repeat EvTick k ++ [EvTick] = repeat EvTick (S k)).
    symmetry. apply repeat_cons.
Qed.

(** From the loop test to the start of the idle wait. *)
Lemma loop_head_to_ticks (w : World) (L : Locals) (n : Z) :
  thread w = Some (PcLoopHead L) ->
  stop_evt w = false ->
  play_samples L <= max_rows w -> play_samples L < 2 ^ 60 ->
  idle_count (params w) = inr n ->
  thread (thread_steps 7 w) = Some (PcTicks L (Z.to_nat n)) /\
  stop_evt (thread_steps 7 w) = false /\
  params (thread_steps 7 w) = params w /\
  max_rows (thread_steps 7 w) = max_rows w /\
  log (thread_steps 7 w) = cycle_events L (params w) 0 ++ log w.
Proof.
  intros Hth Hs Hrows Hdim Hn. cbn [thread_steps].
  rewrite (step_loop_head w L Hth Hs).
  rewrite (step_gen (goto (PcGen L) w) L eq_refl Hrows Hdim).
  next_step step_play. next_step step_wait.
  next_step step_status. next_step step_silence.
  set (x := emit (EvStatus TxtWaiting) _).
  destruct (status_calls_frame TxtWaiting TipWaitNext x)
    as (F1 & F2 & F3 & _ & _ & F6).
  cbv zeta in F1, F2, F3, F6.
  set (y := update_tray_tooltip TipWaitNext (update_status TxtWaiting x)) in *.
  match goal with
  | |- context [thread_step (goto (PcRange L) ?z)] =>
      rewrite (step_range (goto (PcRange L) z) L n eq_refl)
        by (cbn [params goto with_thread with_device emit]; rewrite F1; exact Hn)
  end.
  cbn [thread stop_evt params max_rows log goto with_thread with_device emit].
  rewrite F1, F2, F3, F6.
  repeat split; assumption || reflexivity.
Qed.

(** One pass of the loop body. *)
Lemma one_cycle (w : World) (L : Locals) (n : Z) :
  thread w = Some (PcLoopHead L) ->
  stop_evt w = false ->
  play_samples L <= max_rows w -> play_samples L < 2 ^ 60 ->
  idle_count (params w) = inr n ->
  let k := Z.to_nat n in
  thread (thread_steps (8 + k) w) = Some (PcLoopHead L) /\
  stop_evt (thread_steps (8 + k) w) = false /\
  params (thread_steps (8 + k) w) = params w /\
  max_rows (thread_steps (8 + k) w) = max_rows w /\
  log (thread_steps (8 + k) w) = cycle_events L (params w) k ++ log w.
Proof.
  intros Hth Hs Hrows Hdim Hn k.
  destruct (loop_head_to_ticks w L n Hth Hs Hrows Hdim Hn)
    as (A1 & A2 & A3 & A5 & A4).
  fold k in A1.
  destruct (idle_ticks_run k (thread_steps 7 w) L A1 A2) as (B1 & B2 & B3 & B4).
  assert (B5 : max_rows (thread_steps k (thread_steps 7 w)) = max_rows w).
  { rewrite <- A5. generalize (thread_steps 7 w). clear.
    induction k as [|k IH]; intros w; cbn; [reflexivity|].
    rewrite IH. apply thread_step_machine. }
  replace (8 + k)%nat with (7 + (k + 1))%nat by lia.
  rewrite thread_steps_add, thread_steps_add.
  set (w2 := thread_steps k (thread_steps 7 w)) in *.
  assert (Hlast : thread_steps 1 w2 = goto (PcLoopHead L) w2).
  { cbn. unfold thread_step. rewrite B1. reflexivity. }
  rewrite Hlast. cbn [thread stop_evt params max_rows log goto with_thread].
  repeat split; try congruence.
  rewrite B4, A4. unfold cycle_events. cbn [repeat app].
  rewrite <- !app_assoc. reflexivity.
Qed.

(** The loop repeats.  Left alone with the stop event clear, memory for the
    tone, and a binary64 difference [cycle_sec - play_sec] whose [int] is
    [n], the thread is back at its loop test after every [8 + n]
    statements, and each pass has made the same calls: the tone with the
    current volume and frequency, the status text, the silence, and [n]
    one-second waits. *)
Theorem cycles_repeat (m : nat) (w : World) (L : Locals) (n : Z) :
  thread w = Some (PcLoopHead L) ->
  stop_evt w = false ->
  play_samples L <= max_rows w -> play_samples L < 2 ^ 60 ->
  idle_count (params w) = inr n ->
  let k := Z.to_nat n in
  let w' := thread_steps (m * (8 + k)) w in
  thread w' = Some (PcLoopHead L) /\
  stop_evt w' = false /\
  params w' = params w /\
  log w' = List.concat (repeat (cycle_events L (params w) k) m) ++ log w.
Proof.
  intros Hth Hs Hrows Hdim Hn k. cbv zeta.
  assert (H : thread (thread_steps (m * (8 + k)) w) = Some (PcLoopHead L) /\
              stop_evt (thread_steps (m * (8 + k)) w) = false /\
              params (thread_steps (m * (8 + k)) w) = params w /\
              max_rows (thread_steps (m * (8 + k)) w) = max_rows w /\
              log (thread_steps (m * (8 + k)) w)
              = List.concat (repeat (cycle_events L (params w) k) m) ++ log w).
  { induction m as [|m IH].
    - cbn. auto.
    - replace (S m * (8 + k))%nat with (m * (8 + k) + (8 + k))%nat by lia.
      rewrite thread_steps_add.
      destruct IH as (I1 & I2 & I3 & I5 & I4).
      destruct (one_cycle (thread_steps (m * (8 + k)) w) L n I1 I2)
        as (C1 & C2 & C3 & C5 & C4);
        [rewrite I5; exact Hrows | exact Hdim | rewrite I3; exact Hn |].
      fold k in C1, C2, C3, C4, C5. rewrite I3 in C4.
      repeat split; try congruence.
      rewrite C4, I4. cbn [repeat List.concat].
      rewrite app_assoc. reflexivity. }
  destruct H as (H1 & H2 & H3 & _ & H4). auto.
Qed.

Lemma cycles_repeat_witness :
  thread (thread_steps (3 * (8 + Z.to_nat 3))
            (thread_step (start (world_with (mkParams 440 (1 # 2) (1 # 10) (41 # 10)) 44100))))
    = Some (PcLoopHead (mkLocals 44100 4410 180809)) /\
  stop_evt (thread_steps (3 * (8 + Z.to_nat 3))
              (thread_step (start (world_with (mkParams 440 (1 # 2) (1 # 10) (41 # 10)) 44100))))
    = false /\
  params (thread_steps (3 * (8 + Z.to_nat 3))
            (thread_step (start (world_with (mkParams 440 (1 # 2) (1 # 10) (41 # 10)) 44100))))
    = params (thread_step (start (world_with (mkParams 440 (1 # 2) (1 # 10) (41 # 10)) 44100))) /\
  log (thread_steps (3 * (8 + Z.to_nat 3))
         (thread_step (start (world_with (mkParams 440 (1 # 2) (1 # 10) (41 # 10)) 44100))))
    = List.concat
        (repeat (cycle_events (mkLocals 44100 4410 180809)
                   (params (thread_step (start (world_with (mkParams 440 (1 # 2) (1 # 10) (41 # 10)) 44100))))
                   (Z.to_nat 3)) 3)
      ++ log (thread_step (start (world_with (mkParams 440 (1 # 2) (1 # 10) (41 # 10)) 44100))).
Proof.
  apply (cycles_repeat 3
           (thread_step (start (world_with (mkParams 440 (1 # 2) (1 # 10) (41 # 10)) 44100)))
           (mkLocals 44100 4410 180809) 3).
  - vm_compute. reflexivity.
  - reflexivity.
  - vm_compute. discriminate.
  - vm_compute. reflexivity.
  - vm_compute. reflexivity.
Defined.

(** [int(sec * fs)] when the doubles and their product are known. *)
Lemma count_samples_value (sec a r : Q) (rate : Z) :
  x64 sec = XFin a -> x64 (inject_Z rate) = XFin r ->
  (0 <= a * r)%Q -> (a * r < pow2 52)%Q ->
  count_samples sec rate = inr (Qfloor (rnd 53 (-1074) (a * r))).
Proof.
  intros Ea Er H0 Hb.
  unfold count_samples, mul_float_int, float_of_int. rewrite Er, Ea.
  cbn [xmul].
  pose proof (rnd_mono 53 (-1074) ltac:(lia) 0 (a * r) H0) as Hlo.
  rewrite rnd_zero in Hlo.
  pose proof (rnd_mono 53 (-1074) ltac:(lia) (a * r) (pow2 52)
                (Qlt_le_weak _ _ Hb)) as Hhi.
  assert (E52 : (rnd 53 (-1074) (pow2 52) == pow2 52)%Q)
    by (vm_compute; reflexivity).
  rewrite E52 in Hhi.
  pose proof (pow2_lt 52 1024 ltac:(lia)) as Hp.
  pose proof (pow2_pos 1024) as Hp0.
  unfold x64. rewrite round_fin_intro by lra.
  cbn [int_of_float]. f_equal.
  rewrite py_int_floor by (rewrite Qred_correct; exact Hlo).
  apply Qfloor_comp, Qred_correct.
Qed.

(** [np.zeros] rejects the silence buffer as soon as the stored cycle is
    shorter than the stored play time by one sample or more: with the
    doubles [c], [p] and [r] of the cycle, the play time and the rate,
    [c * r + 1 <= p * r] and a play product below 2^52, the thread ends in
    [ValueError] at its first statement, before any call to the device or
    the window.  The margin of one sample survives the rounding of the two
    products. *)
Theorem setup_fails_on_short_cycle (w : World) (p c r : Q) :
  thread w = Some PcSetup ->
  x64 (play_sec (params w)) = XFin p ->
  x64 (cycle_sec (params w)) = XFin c ->
  x64 (inject_Z (samplerate w)) = XFin r ->
  (0 <= c * r)%Q ->
  (c * r + 1 <= p * r)%Q ->
  (p * r < inject_Z (2 ^ 52))%Q ->
  thread (thread_step w) = Some (PcCrashed ValueError) /\
  is_alive (thread_step w) = false /\
  log (thread_step w) = log w /\
  device (thread_step w) = device w /\
  root (thread_step w) = root w.
Proof.
  intros Hth Ep Ec Er H0 Hm Hb.
  rewrite <- (pow2_Z 52) in Hb by lia.
  assert (Hc : count_samples (cycle_sec (params w)) (samplerate w)
               = inr (Qfloor (rnd 53 (-1074) (c * r))))
    by (apply count_samples_value; try assumption; lra).
  assert (Hp : count_samples (play_sec (params w)) (samplerate w)
               = inr (Qfloor (rnd 53 (-1074) (p * r))))
    by (apply count_samples_value; try assumption; lra).
  pose proof (margin_kept (c * r) (p * r) H0 Hm Hb) as Hlt.
  assert (Hsetup : run_setup w = inl ValueError).
  { unfold run_setup. cbv zeta. rewrite Hp, Hc. unfold np_zeros.
    destruct (Z.ltb_spec (Qfloor (rnd 53 (-1074) (c * r))
                          - Qfloor (rnd 53 (-1074) (p * r))) 0);
      [reflexivity | lia]. }
  assert (Hstep : thread_step w = goto (PcCrashed ValueError) w).
  { unfold thread_step. rewrite Hth, Hsetup. reflexivity. }
  rewrite Hstep. repeat split.
Qed.

Lemma setup_fails_on_short_cycle_witness :
  thread (thread_step
            (start (apply_params decimal_float
                      (mkEntries "440" "0.5" "10" "1") world0)))
    = Some (PcCrashed ValueError) /\
  is_alive (thread_step
              (start (apply_params decimal_float
                        (mkEntries "440" "0.5" "10" "1") world0))) = false /\
  log (thread_step
         (start (apply_params decimal_float
                   (mkEntries "440" "0.5" "10" "1") world0)))
    = log (start (apply_params decimal_float
                    (mkEntries "440" "0.5" "10" "1") world0)) /\
  device (thread_step
            (start (apply_params decimal_float
                      (mkEntries "440" "0.5" "10" "1") world0)))
    = device (start (apply_params decimal_float
                       (mkEntries "440" "0.5" "10" "1") world0)) /\
  root (thread_step
          (start (apply_params decimal_float
                    (mkEntries "440" "0.5" "10" "1") world0)))
    = root (start (apply_params decimal_float
                     (mkEntries "440" "0.5" "10" "1") world0)).
Proof.
  apply (setup_fails_on_short_cycle
           (start (apply_params decimal_float
                     (mkEntries "440" "0.5" "10" "1") world0))
           10 1 44100).
  - reflexivity.
  - vm_compute. reflexivity.
  - vm_compute. reflexivity.
  - vm_compute. reflexivity.
  - vm_compute. discriminate.
  - vm_compute. discriminate.
  - vm_compute. reflexivity.
Defined.

(** [start()] on a player that is not running reads the play time anew: the
    first tone of the new thread has [int(play_sec * samplerate)] samples,
    the binary64 product truncated, for the play time then in memory, with
    the volume and frequency then in memory; provided both counts are
    computed, the play count is not negative, the cycle count is not below
    it and fits the memory. *)
Theorem restart_reads_play_time (w : World) (n c : Z) :
  is_alive w = false ->
  count_samples (play_sec (params w)) (samplerate w) = inr n ->
  count_samples (cycle_sec (params w)) (samplerate w) = inr c ->
  0 <= n -> n <= c -> c <= max_rows w -> max_rows w < 2 ^ 60 ->
  stop_evt (start w) = false /\
  log (thread_steps 4 (start w))
  = EvPlayTone (mkTone n (volume (params w)) (frequency (params w))
                       (samplerate w))
    :: log w.
Proof.
  intros Hd Hn Hc H0 Hle Hrows Hdim.
  unfold start. rewrite Hd. split; [reflexivity|].
  set (w0 := goto PcSetup (with_stop_evt false w)).
  set (L := mkLocals (samplerate w) n c).
  assert (H1 : thread_step w0 = goto (PcLoopHead L) w0).
  { unfold thread_step. cbn [thread w0 goto with_thread].
    rewrite (run_setup_ok w0 n c Hn Hc Hle) by (cbn; lia). reflexivity. }
  cbn [thread_steps]. rewrite H1.
  rewrite (step_loop_head (goto (PcLoopHead L) w0) L eq_refl eq_refl).
  rewrite (step_gen (goto (PcGen L) (goto (PcLoopHead L) w0)) L eq_refl)
    by (cbn; lia).
  next_step step_play. reflexivity.
Qed.

Lemma restart_reads_play_time_witness :
  stop_evt (start (apply_params decimal_float
                     (mkEntries "880" "0.5" "0.7" "10")
                     (thread_steps 9 (stop world_gen)))) = false /\
  log (thread_steps 4
         (start (apply_params decimal_float
                   (mkEntries "880" "0.5" "0.7" "10")
                   (thread_steps 9 (stop world_gen)))))
  = EvPlayTone
      (mkTone 30869
         (volume (params (apply_params decimal_float
                            (mkEntries "880" "0.5" "0.7" "10")
                            (thread_steps 9 (stop world_gen)))))
         (frequency (params (apply_params decimal_float
                               (mkEntries "880" "0.5" "0.7" "10")
                               (thread_steps 9 (stop world_gen)))))
         (samplerate (apply_params decimal_float
                        (mkEntries "880" "0.5" "0.7" "10")
                        (thread_steps 9 (stop world_gen)))))
    :: log (apply_params decimal_float
              (mkEntries "880" "0.5" "0.7" "10")
              (thread_steps 9 (stop world_gen))).
Proof.
  apply (restart_reads_play_time
           (apply_params decimal_float (mkEntries "880" "0.5" "0.7" "10")
              (thread_steps 9 (stop world_gen)))
           30869 441000).
  - reflexivity.
  - vm_compute. reflexivity.
  - vm_compute. reflexivity.
  - lia.
  - lia.
  - vm_compute. discriminate.
  - vm_compute. reflexivity.
Defined.

(** [update_status] writes the window only, [update_tray_tooltip] the tray
    icon only. *)
Lemma update_status_frame (txt : StatusText) (w : World) :
  thread (update_status txt w) = thread w /\
  device (update_status txt w) = device w /\
  log (update_status txt w) = log w /\
  tray_icon (update_status txt w) = tray_icon w.
Proof. unfold update_status. destruct (root w); repeat split. Qed.

Lemma update_tray_tooltip_frame (tip : TrayText) (w : World) :
  thread (update_tray_tooltip tip w) = thread w /\
  device (update_tray_tooltip tip w) = device w /\
  log (update_tray_tooltip tip w) = log w /\
  root (update_tray_tooltip tip w) = root w.
Proof. unfold update_tray_tooltip. destruct (tray_icon w); repeat split. Qed.

(** The last statement of [_run]. *)
Lemma final_step (w : World) :
  thread w = Some PcFinal ->
  thread (thread_step w) = Some PcDone /\
  device (thread_step w) = device w /\
  ticks (thread_step w) = ticks w /\
  plays (thread_step w) = plays w.
Proof.
  intros H. unfold thread_step. rewrite H.
  set (x := emit (EvStatus TxtStopped) w).
  destruct (update_status_frame TxtStopped x) as (_ & S2 & S3 & _).
  destruct (update_tray_tooltip_frame TipStopped (update_status TxtStopped x))
    as (_ & U2 & U3 & _).
  split; [reflexivity|].
  split.
  { change (device (goto PcDone ?y)) with (device y).
    rewrite U2, S2. reflexivity. }
  unfold ticks, plays.
  change (log (goto PcDone ?y)) with (log y).
  rewrite U3, S3. split; reflexivity.
Qed.

(** [stop()] while the tone plays.  The thread, released from [sd.wait()],
    still hands the silence buffer to the device after the stop and then
    ends without waiting a tick: the device is left with the silence. *)
Theorem stop_during_tone_leaves_silence (w : World) (L : Locals) :
  thread w = Some (PcWait L) ->
  device (stop w) = DevIdle /\
  is_alive (thread_steps 7 (stop w)) = false /\
  device (thread_steps 7 (stop w))
    = DevSilence (cycle_samples L - play_samples L) /\
  ticks (thread_steps 7 (stop w)) = ticks w /\
  plays (thread_steps 7 (stop w)) = plays w.
Proof.
  intros Hth. split; [reflexivity|].
  replace 7%nat with (3 + 4)%nat by reflexivity. rewrite thread_steps_add.
  assert (H3 : exists z,
             thread_steps 3 (stop w) = goto (PcRange L) z /\
             stop_evt z = true /\
             device z = DevSilence (cycle_samples L - play_samples L) /\
             ticks z = ticks w /\ plays z = plays w).
  { cbn [thread_steps].
    rewrite (step_wait (stop w) L Hth).
    next_step step_status. next_step step_silence.
    eexists. split; [reflexivity|].
    set (x := emit (EvStatus TxtWaiting) _).
    destruct (status_calls_frame TxtWaiting TipWaitNext x)
      as (_ & F2 & _ & _ & _ & F6).
    cbv zeta in F2, F6. unfold ticks, plays.
    cbn [stop_evt device log with_device emit goto with_thread].
    rewrite F2, F6. repeat split; reflexivity. }
  destruct H3 as (z0 & -> & Z1 & Z2 & Z3 & Z4).
  assert (Hz : exists z,
             z = goto (PcRange L) z0 /\ thread z = Some (PcRange L) /\
             stop_evt z = true /\
             device z = DevSilence (cycle_samples L - play_samples L) /\
             ticks z = ticks w /\ plays z = plays w).
  { eexists. split; [reflexivity|]. repeat split; assumption. }
  destruct Hz as (z & <- & T & S1 & S2 & S3 & S4).
  clear z0 Z1 Z2 Z3 Z4. cbn [thread_steps].
  destruct (idle_count (params z)) as [e | n] eqn:G.
  - rewrite (step_range_raises z L e T G).
    do 3 (next_step step_crashed).
    split; [reflexivity|]. split; [exact S2|]. split; [exact S3 | exact S4].
  - rewrite (step_range z L n T G).
    assert (Hout : thread_step (goto (PcTicks L (Z.to_nat n)) z)
                   = goto (PcLoopHead L) z).
    { unfold thread_step. cbn [thread goto with_thread stop_evt].
      rewrite S1. destruct (Z.to_nat n); reflexivity. }
    rewrite Hout.
    assert (Hhead : thread_step (goto (PcLoopHead L) z) = goto PcFinal z).
    { unfold thread_step. cbn [thread goto with_thread stop_evt].
      rewrite S1. reflexivity. }
    rewrite Hhead.
    destruct (final_step (goto PcFinal z) eq_refl) as (F1 & F2 & F3 & F4).
    unfold is_alive. rewrite F1, F2, F3, F4.
    split; [reflexivity|]. split; [exact S2|]. split; [exact S3 | exact S4].
Qed.

Lemma stop_during_tone_leaves_silence_witness :
  device (stop world_playing) = DevIdle /\
  is_alive (thread_steps 7 (stop world_playing)) = false /\
  device (thread_steps 7 (stop world_playing))
    = DevSilence (cycle_samples (mkLocals 44100 44100 2646000)
                  - play_samples (mkLocals 44100 44100 2646000)) /\
  ticks (thread_steps 7 (stop world_playing)) = ticks world_playing /\
  plays (thread_steps 7 (stop world_playing)) = plays world_playing.
Proof.
  apply (stop_during_tone_leaves_silence world_playing
           (mkLocals 44100 44100 2646000)).
  reflexivity.
Defined.

(** The thread is found returned only after its last statement. *)
Lemma thread_step_done (w : World) :
  thread (thread_step w) = Some PcDone ->
  thread w = Some PcFinal \/ thread w = Some PcDone.
Proof.
  unfold thread_step.
  destruct (thread w) as [[ | L | L | L sig | L | L | L | L | L [|k] | | | e]|]
    eqn:Hthread; auto;
    try (destruct (run_setup w)); try (destruct (run_gen _ w));
    try (destruct (idle_count _)); try (destruct (stop_evt w));
    intros H;
    try (change (thread (goto ?p ?y)) with (Some p) in H; discriminate).
  all: congruence.
Qed.

Section MoreInvariants.

Variable str_float : string -> option Q.

(** Every tone is followed by one silence.  Through any run the calls
    [sd.play(sig)] and [sd.play(silence)] stay paired: their numbers are
    equal, except between a tone and its silence, where one silence is
    owed. *)
Theorem tone_then_silence (l : list Action) (w : World) :
  plays w = (silences w + silence_owed w)%nat ->
  plays (exec str_float l w)
    = (silences (exec str_float l w) + silence_owed (exec str_float l w))%nat /\
  (silences (exec str_float l w) <= plays (exec str_float l w))%nat /\
  (plays (exec str_float l w) <= silences (exec str_float l w) + 1)%nat.
Proof.
  assert (Hmain : forall l w,
             plays w = (silences w + silence_owed w)%nat ->
             plays (exec str_float l w)
             = (silences (exec str_float l w)
                + silence_owed (exec str_float l w))%nat).
  { clear l w. induction l as [|a l IH]; intros w H; cbn; [exact H|].
    apply IH.
    assert (Hstart : plays (start w)
                     = (silences (start w) + silence_owed (start w))%nat).
    { unfold start. destruct (is_alive w) eqn:E; [exact H|].
      unfold plays, silences, silence_owed, is_alive in *. cbn.
      destruct (thread w) as [[]|]; try discriminate; lia. }
    destruct a as [ | | | e | ]; cbn.
    - exact Hstart.
    - exact H.
    - unfold toggle_play. destruct (is_alive w); [exact H | exact Hstart].
    - destruct (apply_params_frame str_float e w)
        as (_ & _ & Hth & _ & _ & _ & Hlog).
      unfold plays, silences, silence_owed in *. rewrite Hth, Hlog. exact H.
    - revert H. unfold plays, silences, silence_owed.
      step_cases w; intros H; try lia.
      all: try (destruct (stop_evt w); cbn; lia). }
  intros H. specialize (Hmain l w H).
  split; [exact Hmain|].
  unfold silence_owed in Hmain.
  destruct (thread (exec str_float l w)) as [[]|]; lia.
Qed.

(** Once its thread has returned from [_run], the status label of the
    window reads "stopped", through any run. *)
Theorem ended_loop_shows_stopped (l : list Action) (w : World) :
  status_settled w -> status_settled (exec str_float l w).
Proof.
  revert w. induction l as [|a l IH]; intros w H; cbn; [exact H|].
  apply IH.
  assert (Hstart : status_settled (start w)).
  { unfold status_settled, start in *.
    destruct (is_alive w); [exact H|]. cbn. intros g _ Ht. discriminate. }
  destruct a as [ | | | e | ]; cbn.
  - exact Hstart.
  - exact H.
  - unfold toggle_play. destruct (is_alive w); [exact H | exact Hstart].
  - destruct (apply_params_frame str_float e w)
      as (_ & _ & Hth & _ & Hr & _).
    unfold status_settled in *. rewrite Hth, Hr. exact H.
  - intros g Hg Ht.
    destruct (thread_step_done w Ht) as [Hf | Hd].
    + unfold thread_step in Hg. rewrite Hf in Hg.
      change (root (goto PcDone ?y)) with (root y) in Hg.
      destruct (update_tray_tooltip_frame TipStopped
                  (update_status TxtStopped (emit (EvStatus TxtStopped) w)))
        as (_ & _ & _ & Hr).
      rewrite Hr in Hg. unfold update_status in Hg.
      change (root (emit ?e ?y)) with (root y) in Hg.
      destruct (root w) as [g0|] eqn:Hroot; cbn in Hg;
        [|rewrite Hroot in Hg; discriminate].
      injection Hg as <-. reflexivity.
    + assert (Hsame : thread_step w = w)
        by (unfold thread_step; rewrite Hd; reflexivity).
      rewrite Hsame in Hg. exact (H g Hg Hd).
Qed.

End MoreInvariants.

Lemma tone_then_silence_witness :
  plays (exec decimal_float run_with_update world0)
    = (silences (exec decimal_float run_with_update world0)
       + silence_owed (exec decimal_float run_with_update world0))%nat /\
  (silences (exec decimal_float run_with_update world0)
     <= plays (exec decimal_float run_with_update world0))%nat /\
  (plays (exec decimal_float run_with_update world0)
     <= silences (exec decimal_float run_with_update world0) + 1)%nat.
Proof.
  apply (tone_then_silence decimal_float run_with_update world0).
  reflexivity.
Defined.

Lemma ended_loop_shows_stopped_witness :
  status_settled
    (exec decimal_float
       [AStart; AThread; AThread; AThread; AThread; AThread; AStop; AThread;
        AThread; AThread; AThread; AThread; AThread]
       world0).
Proof.
  apply (ended_loop_shows_stopped decimal_float).
  intros g _ Ht. discriminate.
Defined.

Lemma tone_length_fixed_at_start_witness :
  exists new,
    log (exec decimal_float
           (repeat AThread 9
            ++ [AApply (mkEntries "880" "0.5" "2" "10")]
            ++ repeat AThread 61)
           (thread_step (start world0)))
    = new ++ log (thread_step (start world0)) /\
    Forall (fun t => tone_len t
                     = play_samples (mkLocals 44100 44100 2646000))
           (tones new).
Proof.
  apply (tone_length_fixed_at_start decimal_float
           (mkLocals 44100 44100 2646000)).
  - vm_compute. reflexivity.
  - reflexivity.
Defined.
